(** * Resilience layer of deepiri-core-api

  A shallow embedding of the outbound HTTP client
  ([src/utils/httpClient.ts], [src/utils/proxyClient.ts]), the cache
  client ([src/services/cacheService.ts]) and the two rate-limiting
  middlewares ([src/middleware/rateBot.ts],
  [src/middleware/perEndpointLimiter.ts]), followed by the request
  pipeline around them: the log sanitizer
  ([src/utils/secureLogger.ts]), the input sanitizer, the throttler,
  the address filter, the error handler and the authentication
  middlewares ([src/middleware/]), and the token revocation service
  ([src/services/tokenRevocationService.ts]).

  Asynchronous functions are embedded as state-passing functions that
  return either a value or a thrown error; every call runs to
  completion before the next one starts (one event-loop task at a
  time).  Timers are not part of the state: the breaker transitions
  they trigger are separate functions. *)

From stdpp Require Import gmap strings list fin_maps pretty.
From Stdlib Require Import Ascii ZArith Lia.

Set Warnings "-register-all".

Local Open Scope Z_scope.

(** ** JavaScript values and string primitives *)

Module Js.

Inductive json :=
| JNull
| JBool (b : bool)
| JNum (n : Z)
| JStr (s : string)
| JArr (items : list json)
| JObj (fields : list (string * json)).

(** A string is truthy exactly when it is not empty. *)
Definition truthy (s : string) : bool :=
  match s with
  | EmptyString => false
  | String _ _ => true
  end.

(** An optional string used as a condition, or on the left of [||]:
    its value when truthy. *)
Definition given (x : option string) : option string :=
  match x with
  | Some s => if truthy s then Some s else None
  | None => None
  end.

Definition lower_ascii (c : ascii) : ascii :=
  let n := nat_of_ascii c in
  if (Nat.leb 65 n && Nat.leb n 90)%bool then ascii_of_nat (n + 32) else c.

(** [String.prototype.toLowerCase], on the ASCII letters.  No code
    point outside ASCII lowers to one of the letters tested below. *)
Fixpoint toLowerCase (s : string) : string :=
  match s with
  | EmptyString => EmptyString
  | String c rest => String (lower_ascii c) (toLowerCase rest)
  end.

(** [s.startsWith(p)] *)
Fixpoint startsWith (s p : string) {struct p} : bool :=
  match p with
  | EmptyString => true
  | String a p' =>
      match s with
      | EmptyString => false
      | String b s' => if Ascii.eqb a b then startsWith s' p' else false
      end
  end.

(** [s.includes(p)] *)
Fixpoint includes (s p : string) : bool :=
  if startsWith s p then true
  else match s with
       | EmptyString => false
       | String _ s' => includes s' p
       end.

(** [Math.ceil(a / 1000)] for an integer number of milliseconds. *)
Definition ceil_div_1000 (a : Z) : Z := - ((- a) / 1000).

(** Log levels of the logger and of [console]. *)
Inductive level := debug | info | warn | error.

(** How an awaited promise settles: resolved with a value, or rejected
    with an error that the [await] throws. *)
Inductive result (E A : Type) :=
| Ok (a : A)
| Throw (e : E).

Arguments Ok {E A} a.
Arguments Throw {E A} e.

End Js.

Export Js.

(** ** The circuit breaker (package [opossum])

  The package is a dependency, not repository code.  The model keeps
  what the repository relies on, as the package documents it and as
  section 4.1 of the specification restates it: the three states, the
  counters of the rolling window, the entry test of [fire], and the
  transitions made when the wrapped action settles or a timer fires.
  The invocation timeout of the breaker is real time and is left
  out. *)

Module Opossum.

Inductive state := CLOSED | OPEN | HALF_OPEN.

Record Options := {
  errorThresholdPercentage : Z;
  timeout : Z;
  resetTimeout : Z;
  rollingCountTimeout : Z;
  rollingCountBuckets : Z
}.

Record Stats := {
  fires : nat;
  failures : nat;
  successes : nat;
  rejects : nat
}.

Record breaker := {
  options : Options;
  status : state;
  stats : Stats
}.

(** Events the repository attaches listeners to. *)
Inductive event :=
| EvOpen
| EvHalfOpen
| EvClose
| EvFailure (msg : string).

Definition no_stats : Stats :=
  {| fires := 0; failures := 0; successes := 0; rejects := 0 |}.

(** [new CircuitBreaker(action, options)] *)
Definition create (o : Options) : breaker :=
  {| options := o; status := CLOSED; stats := no_stats |}.

Definition opened (b : breaker) : bool :=
  match status b with OPEN => true | _ => false end.

Definition halfOpen (b : breaker) : bool :=
  match status b with HALF_OPEN => true | _ => false end.

Definition closed (b : breaker) : bool :=
  match status b with CLOSED => true | _ => false end.

Definition with_status (s : state) (b : breaker) : breaker :=
  {| options := options b; status := s; stats := stats b |}.

Definition with_stats (f : Stats -> Stats) (b : breaker) : breaker :=
  {| options := options b; status := status b; stats := f (stats b) |}.

Definition count_fire (s : Stats) : Stats :=
  {| fires := S (fires s); failures := failures s;
     successes := successes s; rejects := rejects s |}.

Definition count_failure (s : Stats) : Stats :=
  {| fires := fires s; failures := S (failures s);
     successes := successes s; rejects := rejects s |}.

Definition count_success (s : Stats) : Stats :=
  {| fires := fires s; failures := failures s;
     successes := S (successes s); rejects := rejects s |}.

Definition count_reject (s : Stats) : Stats :=
  {| fires := fires s; failures := failures s;
     successes := successes s; rejects := S (rejects s) |}.

(** Entering [fire]: the call is counted, and an open breaker rejects
    it without running the action. *)
Inductive entry :=
| Rejected (b' : breaker)
| Entered (b' : breaker).

Definition enter (b : breaker) : entry :=
  let b1 := with_stats count_fire b in
  match status b with
  | OPEN => Rejected (with_stats count_reject b1)
  | _ => Entered b1
  end.

(** The action resolved: a half-open breaker closes. *)
Definition on_success (b : breaker) : breaker * list event :=
  let b1 := with_stats count_success b in
  match status b1 with
  | HALF_OPEN => (with_status CLOSED b1, [EvClose])
  | _ => (b1, [])
  end.

(** failures / fires * 100 > errorThresholdPercentage *)
Definition over_threshold (b : breaker) : bool :=
  Z.ltb (errorThresholdPercentage (options b) * Z.of_nat (fires (stats b)))
        (Z.of_nat (failures (stats b)) * 100).

(** The action rejected: the failure is counted, then the breaker
    opens when the error rate of the window is over the threshold, or
    when it was half-open. *)
Definition on_failure (msg : string) (b : breaker) : breaker * list event :=
  let b1 := with_stats count_failure b in
  if (over_threshold b1 || halfOpen b1)%bool then
    match status b1 with
    | OPEN => (b1, [EvFailure msg])
    | _ => (with_status OPEN b1, [EvFailure msg; EvOpen])
    end
  else (b1, [EvFailure msg]).

(** Timer: [resetTimeout] ms after opening, the breaker lets a trial
    call through. *)
Definition reset_elapsed (b : breaker) : breaker * list event :=
  match status b with
  | OPEN => (with_status HALF_OPEN b, [EvHalfOpen])
  | _ => (b, [])
  end.

(** Timer: the rolling window has moved past every recorded call. *)
Definition window_elapsed (b : breaker) : breaker :=
  with_stats (fun _ => no_stats) b.

(** The name the observability accessors give to a state. *)
Definition state_name (b : breaker) : string :=
  if opened b then "open"
  else if halfOpen b then "halfOpen"
  else "closed".

End Opossum.

(** ** The service registry ([src/config/serviceRegistry.ts]) *)

Module ServiceRegistry.

(** The two environment variables the table reads. *)
Record Env := {
  ENGAGEMENT_SERVICE_URL : option string;
  PYTHON_AGENT_URL : option string
}.

Definition serviceRegistry (env : Env) : list (string * string) :=
  [ ("engagement", default "http://engagement:4002" (given (ENGAGEMENT_SERVICE_URL env)));
    ("pythonAgent", default "http://cyrex:8000" (given (PYTHON_AGENT_URL env)));
    ("googleMaps", "https://maps.googleapis.com");
    ("openWeather", "https://api.openweathermap.org");
    ("eventbrite", "https://www.eventbriteapi.com/v3");
    ("yelp", "https://api.yelp.com") ].

(** [serviceRegistry[serviceName]], on the table's own keys. *)
Definition getServiceUrl (env : Env) (serviceName : string) : option string :=
  snd <$> List.find (fun entry => String.eqb (fst entry) serviceName) (serviceRegistry env).

End ServiceRegistry.

(** ** Outbound HTTP client
    ([src/utils/httpClient.ts] and [src/utils/proxyClient.ts]) *)

Module Http.

Record AxiosResponse := {
  status : Z;
  data : json
}.

(** The constructor a thrown error is an instance of. *)
Inductive ErrorClass :=
| PlainError
| AxiosError
| TypeError.

(** A thrown [Error], with the properties the code sets or reads. *)
Record JsError := {
  message : string;
  code : option string;
  isCircuitOpen : bool;
  response : option AxiosResponse;
  errorClass : ErrorClass
}.

(** [HttpRequestOptions extends AxiosRequestConfig] *)
Record HttpRequestOptions := {
  serviceName : option string;
  url : option string;
  baseURL : option string;
  method : option string;
  timeout : option Z;
  validateStatus : option (Z -> bool)
}.

(** The defaults an axios instance was created with. *)
Record AxiosInstance := {
  inst_baseURL : option string;
  inst_timeout : Z;
  inst_validateStatus : Z -> bool
}.

(** What one transport invocation is asked to send. *)
Record WireRequest := {
  w_baseURL : option string;
  w_url : option string;
  w_method : option string;
  w_timeout : Z
}.

(** How the adapter of axios settles one request: the socket fails
    with a code and a message, the full URL of the request does not
    parse, or a response arrives. *)
Inductive TransportOutcome :=
| NetworkFailure (code : option string) (msg : string)
| InvalidUrl
| Reply (r : AxiosResponse).

Record LogEntry := {
  lvl : level;
  text : string;
  about : string
}.

(** The key of a breaker: the variable its action closes over. *)
Inductive Target :=
| Host (origin : string)
| Service (name : string).

(** A [CircuitBreaker] object; [uid] is its identity. *)
Record CircuitBreaker := {
  uid : nat;
  owner : Target;
  circuit : Opossum.breaker
}.

(** Module state of [httpClient.ts], the [ProxyClient] singleton, and
    the trace of effects. *)
Record world := {
  hostAxiosInstances : gmap string AxiosInstance;
  hostBreakers : gmap string CircuitBreaker;
  proxyAxiosInstances : gmap string AxiosInstance;
  proxyBreakers : gmap string CircuitBreaker;
  allocated : nat;
  wire : list WireRequest;
  logs : list LogEntry
}.

Definition M (A : Type) : Type := world -> result JsError A * world.

Definition init : world :=
  {| hostAxiosInstances := ∅; hostBreakers := ∅;
     proxyAxiosInstances := ∅; proxyBreakers := ∅;
     allocated := 0; wire := []; logs := [] |}.

Definition set_hostAxiosInstances (m : gmap string AxiosInstance) (w : world) : world :=
  {| hostAxiosInstances := m; hostBreakers := hostBreakers w;
     proxyAxiosInstances := proxyAxiosInstances w; proxyBreakers := proxyBreakers w;
     allocated := allocated w; wire := wire w; logs := logs w |}.

Definition set_hostBreakers (m : gmap string CircuitBreaker) (w : world) : world :=
  {| hostAxiosInstances := hostAxiosInstances w; hostBreakers := m;
     proxyAxiosInstances := proxyAxiosInstances w; proxyBreakers := proxyBreakers w;
     allocated := allocated w; wire := wire w; logs := logs w |}.

Definition set_proxyAxiosInstances (m : gmap string AxiosInstance) (w : world) : world :=
  {| hostAxiosInstances := hostAxiosInstances w; hostBreakers := hostBreakers w;
     proxyAxiosInstances := m; proxyBreakers := proxyBreakers w;
     allocated := allocated w; wire := wire w; logs := logs w |}.

Definition set_proxyBreakers (m : gmap string CircuitBreaker) (w : world) : world :=
  {| hostAxiosInstances := hostAxiosInstances w; hostBreakers := hostBreakers w;
     proxyAxiosInstances := proxyAxiosInstances w; proxyBreakers := m;
     allocated := allocated w; wire := wire w; logs := logs w |}.

Definition set_allocated (n : nat) (w : world) : world :=
  {| hostAxiosInstances := hostAxiosInstances w; hostBreakers := hostBreakers w;
     proxyAxiosInstances := proxyAxiosInstances w; proxyBreakers := proxyBreakers w;
     allocated := n; wire := wire w; logs := logs w |}.

Definition sent (req : WireRequest) (w : world) : world :=
  {| hostAxiosInstances := hostAxiosInstances w; hostBreakers := hostBreakers w;
     proxyAxiosInstances := proxyAxiosInstances w; proxyBreakers := proxyBreakers w;
     allocated := allocated w; wire := wire w ++ [req]; logs := logs w |}.

Definition logged (l : level) (t a : string) (w : world) : world :=
  {| hostAxiosInstances := hostAxiosInstances w; hostBreakers := hostBreakers w;
     proxyAxiosInstances := proxyAxiosInstances w; proxyBreakers := proxyBreakers w;
     allocated := allocated w; wire := wire w;
     logs := logs w ++ [{| lvl := l; text := t; about := a |}] |}.

(** Number of transport invocations made so far. *)
Definition invocations (w : world) : nat := length (wire w).

#[global] Instance Target_eq_dec : EqDecision Target.
Proof. solve_decision. Defined.

(** A step that only talks to the network and the logger. *)
Record io_only (w w' : world) : Prop := {
  io_hostAxios : hostAxiosInstances w' = hostAxiosInstances w;
  io_hostBreakers : hostBreakers w' = hostBreakers w;
  io_proxyAxios : proxyAxiosInstances w' = proxyAxiosInstances w;
  io_proxyBreakers : proxyBreakers w' = proxyBreakers w;
  io_allocated : allocated w' = allocated w
}.

(** A step that leaves both breaker registries as they are. *)
Record breakers_kept (w w' : world) : Prop := {
  kept_hostBreakers : hostBreakers w' = hostBreakers w;
  kept_proxyBreakers : proxyBreakers w' = proxyBreakers w;
  kept_allocated : allocated w' = allocated w
}.

(** *** Errors *)

(** [new Error(`HTTP ${status}`)], with [err.response] on the breaker
    paths. *)
Definition http_error (resp : AxiosResponse) (attach : bool) : JsError :=
  {| message := "HTTP " +:+ pretty (status resp); code := None;
     isCircuitOpen := false;
     response := if attach then Some resp else None;
     errorClass := PlainError |}.

(** The error axios rejects with when [validateStatus] refuses a
    response. *)
Definition bad_status_error (resp : AxiosResponse) : JsError :=
  {| message := "Request failed with status code " +:+ pretty (status resp);
     code := match status resp / 100 with
             | 4 => Some "ERR_BAD_REQUEST"
             | 5 => Some "ERR_BAD_RESPONSE"
             | _ => None
             end;
     isCircuitOpen := false;
     response := Some resp;
     errorClass := AxiosError |}.

(** [AxiosError.from(err)] for an error of the socket: its code
    ([ECONNREFUSED], [ECONNRESET], ...) and its message are kept. *)
Definition network_error (c : option string) (msg : string) : JsError :=
  {| message := msg; code := c; isCircuitOpen := false;
     response := None; errorClass := AxiosError |}.

(** The [TypeError] of [new URL(fullPath)] in the adapter, which
    rejects the request before anything is sent. *)
Definition invalid_url_error : JsError :=
  {| message := "Invalid URL"; code := Some "ERR_INVALID_URL"; isCircuitOpen := false;
     response := None; errorClass := TypeError |}.

(** The rejection of [breaker.fire] on an open breaker. *)
Definition open_breaker_error : JsError :=
  {| message := "Breaker is open"; code := Some "EOPENBREAKER";
     isCircuitOpen := false; response := None; errorClass := PlainError |}.

Definition circuit_open_error (what name : string) : JsError :=
  {| message := "Circuit open for " +:+ what +:+ " " +:+ name; code := None;
     isCircuitOpen := true; response := None; errorClass := PlainError |}.

Definition url_required_error : JsError :=
  {| message := "httpRequest requires url when serviceName is not provided";
     code := None; isCircuitOpen := false; response := None;
     errorClass := PlainError |}.

(** [err.code === 'EOPENBREAKER'] *)
Definition is_open_breaker (e : JsError) : bool :=
  match code e with
  | Some c => String.eqb c "EOPENBREAKER"
  | None => false
  end.

(** *** axios (a dependency: the instance defaults, the merge of a
    request configuration over them, and [validateStatus]) *)

(** The defaults of the package's global instance: no base URL, no
    timeout, and only 2xx statuses resolve. *)
Definition axios : AxiosInstance :=
  {| inst_baseURL := None; inst_timeout := 0;
     inst_validateStatus := fun s => ((200 <=? s) && (s <? 300))%bool |}.

(** [axios.create({ baseURL, timeout, validateStatus: () => true })] *)
Definition axios_create (base : option string) (t : Z) : AxiosInstance :=
  {| inst_baseURL := base; inst_timeout := t;
     inst_validateStatus := fun _ => true |}.

(** The request configuration overrides the instance defaults. *)
Definition merged (inst : AxiosInstance) (config : HttpRequestOptions) : WireRequest :=
  {| w_baseURL := match baseURL config with Some b => Some b | None => inst_baseURL inst end;
     w_url := url config;
     w_method := method config;
     w_timeout := default (inst_timeout inst) (timeout config) |}.

Definition validator (inst : AxiosInstance) (config : HttpRequestOptions) : Z -> bool :=
  default (inst_validateStatus inst) (validateStatus config).

(** [{ ...opts, timeout: opts.timeout ?? t }] *)
Definition with_timeout (t : Z) (opts : HttpRequestOptions) : HttpRequestOptions :=
  {| serviceName := serviceName opts; url := url opts; baseURL := baseURL opts;
     method := method opts; timeout := Some (default t (timeout opts));
     validateStatus := validateStatus opts |}.

(** *** p-retry and its operation (dependencies: which rejections are
    retried, and which error an exhausted operation rejects with) *)

(** The messages [isNetworkError] knows. *)
Definition networkErrorMsgs : list string :=
  [ "Failed to fetch";
    "NetworkError when attempting to fetch resource.";
    "The Internet connection appears to be offline.";
    "Network request failed";
    "fetch failed" ].

Definition isNetworkError (msg : string) : bool :=
  existsb (String.eqb msg) networkErrorMsgs.

(** [error instanceof TypeError && !isNetworkError(error.message)]:
    such a rejection stops the operation and is passed on at once. *)
Definition aborts (e : JsError) : bool :=
  match errorClass e with
  | TypeError => negb (isNetworkError (message e))
  | _ => false
  end.

(** [counts[message]] over the errors seen so far. *)
Definition count_message (msg : string) (errors : list JsError) : nat :=
  length (List.filter (fun e => String.eqb (message e) msg) errors).

(** The loop of [operation.mainError()]: an error becomes the main
    error when its message has been seen at least as often as that of
    the main error so far. *)
Fixpoint mainError_from (seen : list JsError) (main : option JsError) (mainErrorCount : nat)
    (errors : list JsError) : option JsError :=
  match errors with
  | [] => main
  | e :: rest =>
      let count := S (count_message (message e) seen) in
      if Nat.leb mainErrorCount count
      then mainError_from (seen ++ [e]) (Some e) count rest
      else mainError_from (seen ++ [e]) main mainErrorCount rest
  end.

(** [operation.mainError()]: the error of the operation whose message
    occurred most often, the latest one on a tie; [None] stands for
    [null]. *)
Definition mainError (errors : list JsError) : option JsError :=
  mainError_from [] None 0 errors.

(** The result of an attempt as an error, if it is one. *)
Definition thrown {A : Type} (r : result JsError A) : option JsError :=
  match r with
  | Throw e => Some e
  | Ok _ => None
  end.

(** The errors of the [len] results from [start] on, in order. *)
Definition failures {A : Type} (outcome : nat -> result JsError A) (start len : nat)
    : list JsError :=
  omap (fun n => thrown (outcome n)) (seq start len).

(** *** The client *)

Section Client.

(** [new URL(url).origin]; [None] when the constructor throws. *)
Variable new_URL_origin : string -> option string.

(** The network: what the [n]-th transport invocation of the process
    answers to the request it is given. *)
Variable transport : nat -> WireRequest -> TransportOutcome.

(** [HTTP_CLIENT_TIMEOUT_MS] and [HTTP_CLIENT_MAX_RETRIES], read once
    when the module is loaded (10000 and 2 when unset). *)
Variable DEFAULT_TIMEOUT : Z.
Variable DEFAULT_RETRIES : nat.

(** The breaker options [getBreakerForHost] reads from the
    environment. *)
Variable hostBreakerOptions : Opossum.Options.

(** The environment [src/config/serviceRegistry.ts] reads. *)
Variable env : ServiceRegistry.Env.

Local Abbreviation getServiceUrl := (ServiceRegistry.getServiceUrl env).

(** The options of the [ProxyClient] singleton, built with no
    argument. *)
Definition proxy_timeoutMs : Z := 10000.
Definition proxy_maxRetries : nat := 2.
Definition proxy_breakerOptions : Opossum.Options :=
  {| Opossum.errorThresholdPercentage := 50;
     Opossum.timeout := 5000;
     Opossum.resetTimeout := 30000;
     Opossum.rollingCountTimeout := 10000;
     Opossum.rollingCountBuckets := 10 |}.

Definition getOriginFromUrl (u : string) : string :=
  match new_URL_origin u with
  | Some o => o
  | None => EmptyString
  end.

(** [inst.request(config)]: one invocation of the adapter, recorded in
    [wire] whatever its outcome; a response resolves when the
    effective [validateStatus] accepts its status. *)
Definition axios_request (inst : AxiosInstance) (config : HttpRequestOptions) : M AxiosResponse :=
  fun w =>
    let req := merged inst config in
    match transport (invocations w) req with
    | NetworkFailure c msg => (Throw (network_error c msg), sent req w)
    | InvalidUrl => (Throw invalid_url_error, sent req w)
    | Reply r =>
        if validator inst config (status r)
        then (Ok r, sent req w)
        else (Throw (bad_status_error r), sent req w)
    end.

(** The operation of [pRetry] with [retries] retries left and the
    errors of the attempts made so far.  A rejection that [aborts]
    ends it at once; any other is handed to [onFailedAttempt] and
    recorded, and the attempt runs again while retries are left; when
    none is left the operation rejects with its main error. *)
Fixpoint operation {A : Type} (errors : list JsError) (retries : nat)
    (onFailedAttempt : JsError -> world -> world)
    (attempt : M A) (w : world) : result JsError A * world :=
  match attempt w with
  | (Ok a, w1) => (Ok a, w1)
  | (Throw e, w1) =>
      if aborts e then (Throw e, w1)
      else
        match retries with
        | O => (Throw (default e (mainError (errors ++ [e]))), onFailedAttempt e w1)
        | S n => operation (errors ++ [e]) n onFailedAttempt attempt (onFailedAttempt e w1)
        end
  end.

(** [pRetry(attempt, { retries, onFailedAttempt })] *)
Definition pRetry {A : Type} (retries : nat) (onFailedAttempt : JsError -> world -> world)
    (attempt : M A) : M A :=
  operation [] retries onFailedAttempt attempt.

Definition getAxiosForHost (origin : string) (w : world) : AxiosInstance * world :=
  match hostAxiosInstances w !! origin with
  | Some inst => (inst, w)
  | None =>
      let inst := axios_create (Some origin) DEFAULT_TIMEOUT in
      (inst, set_hostAxiosInstances (<[origin := inst]> (hostAxiosInstances w)) w)
  end.

(** The [attempt] closure of the per-origin action. *)
Definition host_attempt (inst : AxiosInstance) (config : HttpRequestOptions) : M AxiosResponse :=
  fun w =>
    match axios_request inst config w with
    | (Ok resp, w1) =>
        if 500 <=? status resp
        then (Throw (http_error resp true), w1)
        else (Ok resp, w1)
    | (Throw e, w1) => (Throw e, w1)
    end.

(** The [action] closure [getBreakerForHost] gives to the breaker. *)
Definition host_action (origin : string) (config : HttpRequestOptions) : M AxiosResponse :=
  fun w =>
    let (inst, w1) := getAxiosForHost origin w in
    pRetry DEFAULT_RETRIES
      (fun _ => logged debug "HTTP attempt failed for host" origin)
      (host_attempt inst config) w1.

(** [ProxyClient.getAxiosInstance] *)
Definition getAxiosInstance (service : string) (w : world) : AxiosInstance * world :=
  match proxyAxiosInstances w !! service with
  | Some inst => (inst, w)
  | None =>
      let inst := axios_create (getServiceUrl service) proxy_timeoutMs in
      (inst, set_proxyAxiosInstances (<[service := inst]> (proxyAxiosInstances w)) w)
  end.

(** The [attempt] closure of the per-service action. *)
Definition proxy_attempt (service : string) (inst : AxiosInstance)
    (config : HttpRequestOptions) : M AxiosResponse :=
  fun w =>
    match axios_request inst config w with
    | (Throw e, w1) =>
        (Throw e, logged warn "axios network error, will be retried" service w1)
    | (Ok resp, w1) =>
        if 500 <=? status resp
        then (Throw (http_error resp true),
              logged warn "axios received 5xx, will be retried" service w1)
        else (Ok resp, w1)
    end.

(** The [action] closure [ProxyClient.getBreaker] gives to the
    breaker. *)
Definition proxy_action (service : string) (config : HttpRequestOptions) : M AxiosResponse :=
  fun w =>
    let (inst, w1) := getAxiosInstance service w in
    pRetry proxy_maxRetries
      (fun _ => logged debug "Request attempt failed" service)
      (proxy_attempt service inst config) w1.

(** The action of a breaker is the closure it was constructed with. *)
Definition action (t : Target) : HttpRequestOptions -> M AxiosResponse :=
  match t with
  | Host origin => host_action origin
  | Service service => proxy_action service
  end.

Definition with_circuit (c : Opossum.breaker) (b : CircuitBreaker) : CircuitBreaker :=
  {| uid := uid b; owner := owner b; circuit := c |}.

(** A mutation of a breaker object is seen through the registry that
    holds it. *)
Definition store (b : CircuitBreaker) (w : world) : world :=
  match owner b with
  | Host origin => set_hostBreakers (<[origin := b]> (hostBreakers w)) w
  | Service service => set_proxyBreakers (<[service := b]> (proxyBreakers w)) w
  end.

(** The listeners registered with [breaker.on]. *)
Definition listener (t : Target) (ev : Opossum.event) : world -> world :=
  match t, ev with
  | Host o, Opossum.EvOpen => logged warn "HTTP breaker open" o
  | Host o, Opossum.EvHalfOpen => logged info "HTTP breaker half-open" o
  | Host o, Opossum.EvClose => logged info "HTTP breaker closed" o
  | Host o, Opossum.EvFailure _ => logged warn "HTTP breaker failure" o
  | Service s, Opossum.EvOpen => logged warn "circuit open" s
  | Service s, Opossum.EvHalfOpen => logged info "circuit half-open" s
  | Service s, Opossum.EvClose => logged info "circuit closed" s
  | Service s, Opossum.EvFailure _ => logged warn "circuit failure" s
  end.

Definition notify (t : Target) (evs : list Opossum.event) (w : world) : world :=
  foldl (fun acc ev => listener t ev acc) w evs.

(** [breaker.fire(config)] *)
Definition fire (b : CircuitBreaker) (config : HttpRequestOptions) : M AxiosResponse :=
  fun w =>
    match Opossum.enter (circuit b) with
    | Opossum.Rejected c => (Throw open_breaker_error, store (with_circuit c b) w)
    | Opossum.Entered c =>
        match action (owner b) config (store (with_circuit c b) w) with
        | (Ok resp, w1) =>
            let (c', evs) := Opossum.on_success c in
            (Ok resp, notify (owner b) evs (store (with_circuit c' b) w1))
        | (Throw e, w1) =>
            let (c', evs) := Opossum.on_failure (message e) c in
            (Throw e, notify (owner b) evs (store (with_circuit c' b) w1))
        end
    end.

Definition getBreakerForHost (origin : string) (w : world) : CircuitBreaker * world :=
  match hostBreakers w !! origin with
  | Some b => (b, w)
  | None =>
      let b := {| uid := allocated w; owner := Host origin;
                  circuit := Opossum.create hostBreakerOptions |} in
      (b, set_allocated (S (allocated w))
            (set_hostBreakers (<[origin := b]> (hostBreakers w)) w))
  end.

(** [ProxyClient.getBreaker] *)
Definition getBreaker (service : string) (w : world) : CircuitBreaker * world :=
  match proxyBreakers w !! service with
  | Some b => (b, w)
  | None =>
      let b := {| uid := allocated w; owner := Service service;
                  circuit := Opossum.create proxy_breakerOptions |} in
      (b, set_allocated (S (allocated w))
            (set_proxyBreakers (<[service := b]> (proxyBreakers w)) w))
  end.

(** The [catch] of [httpRequest] and of [ProxyClient.request]. *)
Definition rethrow (what name : string) (r : result JsError AxiosResponse * world)
    : result JsError AxiosResponse * world :=
  match r with
  | (Ok resp, w) => (Ok resp, w)
  | (Throw err, w) =>
      if is_open_breaker err
      then (Throw (circuit_open_error what name), w)
      else (Throw err, w)
  end.

(** [ProxyClient.request] *)
Definition proxy_request (service : string) (config : HttpRequestOptions) : M AxiosResponse :=
  fun w =>
    let (breaker, w1) := getBreaker service w in
    rethrow "service" service (fire breaker config w1).

(** The [attempt] closure of the fallback for URLs with no origin. *)
Definition direct_attempt (opts : HttpRequestOptions) : M AxiosResponse :=
  fun w =>
    match axios_request axios (with_timeout DEFAULT_TIMEOUT opts) w with
    | (Ok resp, w1) =>
        if 500 <=? status resp
        then (Throw (http_error resp false), w1)
        else (Ok resp, w1)
    | (Throw e, w1) => (Throw e, w1)
    end.

Definition httpRequest (opts : HttpRequestOptions) : M AxiosResponse :=
  fun w =>
    match given (serviceName opts) with
    | Some service => proxy_request service opts w
    | None =>
        match given (url opts) with
        | None => (Throw url_required_error, w)
        | Some u =>
            let origin := getOriginFromUrl u in
            if negb (truthy origin) then
              pRetry DEFAULT_RETRIES (fun _ w' => w') (direct_attempt opts) w
            else
              let (breaker, w1) := getBreakerForHost origin w in
              rethrow "host" origin (fire breaker opts w1)
        end
    end.

Definition getBreakerStates (w : world) : gmap string string :=
  (fun b => Opossum.state_name (circuit b)) <$> hostBreakers w.

(** *** Targets, timers and reachable states *)

(** The breaker a target identity is registered with, if any. *)
Definition lookup_breaker (t : Target) (w : world) : option CircuitBreaker :=
  match t with
  | Host origin => hostBreakers w !! origin
  | Service service => proxyBreakers w !! service
  end.

(** The target identity a call is made against; none when the call
    takes no breaker path. *)
Definition target_of (opts : HttpRequestOptions) : option Target :=
  match given (serviceName opts) with
  | Some service => Some (Service service)
  | None =>
      match given (url opts) with
      | None => None
      | Some u =>
          let origin := getOriginFromUrl u in
          if negb (truthy origin) then None else Some (Host origin)
      end
  end.

(** The reset timer of the breaker of [t] fires. *)
Definition reset_timer (t : Target) (w : world) : world :=
  match lookup_breaker t w with
  | None => w
  | Some b =>
      let (c, evs) := Opossum.reset_elapsed (circuit b) in
      notify t evs (store (with_circuit c b) w)
  end.

(** The rolling window of the breaker of [t] has moved on. *)
Definition window_timer (t : Target) (w : world) : world :=
  match lookup_breaker t w with
  | None => w
  | Some b => store (with_circuit (Opossum.window_elapsed (circuit b)) b) w
  end.

(** The states the process can be in: it starts with empty registries
    and then serves calls and timers, one at a time. *)
Inductive reachable : world -> Prop :=
| reach_init : reachable init
| reach_request opts w : reachable w -> reachable (snd (httpRequest opts w))
| reach_reset t w : reachable w -> reachable (reset_timer t w)
| reach_window t w : reachable w -> reachable (window_timer t w).

(** The axios instance, and the retry budget, of the pipeline of a
    target. *)
Definition instance_of (t : Target) : AxiosInstance :=
  match t with
  | Host origin => axios_create (Some origin) DEFAULT_TIMEOUT
  | Service service => axios_create (getServiceUrl service) proxy_timeoutMs
  end.

Definition retries_of (t : Target) : nat :=
  match t with
  | Host _ => DEFAULT_RETRIES
  | Service _ => proxy_maxRetries
  end.

(** The registry getter of each addressing mode. *)
Definition obtain (t : Target) (w : world) : CircuitBreaker * world :=
  match t with
  | Host origin => getBreakerForHost origin w
  | Service service => getBreaker service w
  end.

(** Every cached axios instance is the one its getter creates. *)
Definition inst_ok (w : world) : Prop :=
  (forall o i, hostAxiosInstances w !! o = Some i -> i = instance_of (Host o)) /\
  (forall s i, proxyAxiosInstances w !! s = Some i -> i = instance_of (Service s)).

(** Registry invariant: every breaker sits under the key its action
    closes over, and breaker objects are pairwise distinct. *)
Record wf (w : world) : Prop := {
  wf_owner : forall t b, lookup_breaker t w = Some b -> owner b = t;
  wf_fresh : forall t b, lookup_breaker t w = Some b -> (uid b < allocated w)%nat;
  wf_distinct : forall t1 t2 b1 b2,
      lookup_breaker t1 w = Some b1 -> lookup_breaker t2 w = Some b2 ->
      uid b1 = uid b2 -> t1 = t2;
  wf_inst : inst_ok w
}.

(** What an attempt makes of one transport outcome, on the breaker
    paths ([attach] tells whether the response is attached to the
    error) and on the fallback path. *)
Definition verdict (accept : Z -> bool) (attach : bool) (out : TransportOutcome)
    : result JsError AxiosResponse :=
  match out with
  | NetworkFailure c msg => Throw (network_error c msg)
  | InvalidUrl => Throw invalid_url_error
  | Reply r =>
      if accept (status r)
      then if 500 <=? status r then Throw (http_error r attach) else Ok r
      else Throw (bad_status_error r)
  end.

(** How the attempt of the pipeline of [t] settles when it is the
    [n]-th transport invocation of the process. *)
Definition attempt_outcome (t : Target) (config : HttpRequestOptions) (n : nat)
    : result JsError AxiosResponse :=
  verdict (validator (instance_of t) config) true
    (transport n (merged (instance_of t) config)).

(** The same for the fallback path. *)
Definition direct_outcome (opts : HttpRequestOptions) (n : nat)
    : result JsError AxiosResponse :=
  verdict (validator axios (with_timeout DEFAULT_TIMEOUT opts)) false
    (transport n (merged axios (with_timeout DEFAULT_TIMEOUT opts))).

(** The full URL of a request with no base URL is its url, and
    [new URL] refuses it when it has no origin. *)
Definition unparsable (req : WireRequest) : bool :=
  match given (w_baseURL req) with
  | Some _ => false
  | None =>
      match w_url req with
      | Some u => negb (bool_decide (is_Some (new_URL_origin u)))
      | None => true
      end
  end.

(** The adapter of axios under Node: a request whose full URL does not
    parse is rejected with the [TypeError] before anything is sent. *)
Definition node_adapter : Prop :=
  forall n req, unparsable req = true -> transport n req = InvalidUrl.

End Client.

End Http.

(** ** Cache client ([src/services/cacheService.ts], the variant with
    the circuit breaker) *)

Module Cache.

(** The connected client object; its content is the backend's. *)
Inductive RedisClient := redis_client.

Record CacheService := {
  client : option RedisClient;
  isConnected : bool;
  _breaker : option Opossum.breaker
}.

(** The commands the methods send to the backend. *)
Inductive Command :=
| GET (key : string)
| SETEX (key : string) (ttl : Z) (value : string)
| DEL (key : string).

(** What the backend answers: an error, or a reply whose bulk string
    (if any) is the stored value. *)
Inductive Reply :=
| Failure (msg : string)
| Bulk (value : option string).

Record LogEntry := {
  lvl : level;
  text : string
}.

Record world := {
  service : CacheService;
  commands : list Command;
  logs : list LogEntry
}.

Definition M (A : Type) : Type := world -> result string A * world.

(** The singleton before [initialize]. *)
Definition fresh : world :=
  {| service := {| client := None; isConnected := false; _breaker := None |};
     commands := []; logs := [] |}.

Definition issued (c : Command) (w : world) : world :=
  {| service := service w; commands := commands w ++ [c]; logs := logs w |}.

Definition logged (l : level) (t : string) (w : world) : world :=
  {| service := service w; commands := commands w;
     logs := logs w ++ [{| lvl := l; text := t |}] |}.

Definition set_breaker (c : Opossum.breaker) (w : world) : world :=
  {| service := {| client := client (service w);
                   isConnected := isConnected (service w);
                   _breaker := Some c |};
     commands := commands w; logs := logs w |}.

Definition set_connected (b : bool) (w : world) : world :=
  {| service := {| client := client (service w);
                   isConnected := b;
                   _breaker := _breaker (service w) |};
     commands := commands w; logs := logs w |}.

(** The listeners on the client: [error] and [end] clear the flag,
    [connect] and [ready] set it. *)
Definition on_error (w : world) : world :=
  set_connected false (logged error "Redis Client Error:" w).

Definition on_connect (w : world) : world :=
  set_connected true (logged info "Redis client connected" w).

Definition on_ready (w : world) : world :=
  set_connected true (logged info "Redis client ready" w).

Definition on_end (w : world) : world :=
  set_connected false (logged info "Redis client disconnected" w).

(** [initialize]: the client is created, and the breaker only when
    [connect] resolved. *)
Definition initialize (connects : bool) (o : Opossum.Options) (w : world) : world :=
  let w1 := {| service := {| client := Some redis_client;
                             isConnected := isConnected (service w);
                             _breaker := _breaker (service w) |};
               commands := commands w; logs := logs w |} in
  if connects then set_breaker (Opossum.create o) (on_ready (on_connect w1))
  else set_connected false (logged error "Failed to initialize Redis:" w1).

Definition getBreakerState (w : world) : string :=
  match _breaker (service w) with
  | None => "unknown"
  | Some b => Opossum.state_name b
  end.

Definition getConnectionStatus (w : world) : bool := isConnected (service w).

(** [!this.isConnected || !this.client] *)
Definition disconnected (w : world) : bool :=
  (negb (isConnected (service w)) ||
   match client (service w) with Some _ => false | None => true end)%bool.

(** The listeners registered with [breaker.on]. *)
Definition listener (ev : Opossum.event) : world -> world :=
  match ev with
  | Opossum.EvOpen => logged warn "Redis circuit open"
  | Opossum.EvHalfOpen => logged info "Redis circuit half-open"
  | Opossum.EvClose => logged info "Redis circuit closed"
  | Opossum.EvFailure _ => logged warn "Redis circuit failure"
  end.

Definition notify (evs : list Opossum.event) (w : world) : world :=
  foldl (fun acc ev => listener ev acc) w evs.

(** [breaker.fire(exec)], the action being [fn => fn()]. *)
Definition fire {A : Type} (b : Opossum.breaker) (exec : M A) : M A :=
  fun w =>
    match Opossum.enter b with
    | Opossum.Rejected c => (Throw "Breaker is open", set_breaker c w)
    | Opossum.Entered c =>
        match exec (set_breaker c w) with
        | (Ok a, w1) =>
            let (c', evs) := Opossum.on_success c in
            (Ok a, notify evs (set_breaker c' w1))
        | (Throw msg, w1) =>
            let (c', evs) := Opossum.on_failure msg c in
            (Throw msg, notify evs (set_breaker c' w1))
        end
    end.

Section Backend.

(** The backend: what it answers to the [n]-th command it is sent. *)
Variable redis : nat -> Command -> Reply.

(** [JSON.parse] and [JSON.stringify]; [None] when they throw. *)
Variable JSON_parse : string -> option json.
Variable JSON_stringify : json -> option string.

Definition send (c : Command) : M (option string) :=
  fun w =>
    match redis (length (commands w)) c with
    | Failure msg => (Throw msg, issued c w)
    | Bulk v => (Ok v, issued c w)
    end.

(** The [exec] closure of [get]. *)
Definition exec_get (key : string) : M json :=
  fun w =>
    match send (GET key) w with
    | (Throw msg, w1) => (Throw msg, w1)
    | (Ok value, w1) =>
        match given value with
        | Some s =>
            match JSON_parse s with
            | Some j => (Ok j, w1)
            | None => (Throw "Unexpected token in JSON", w1)
            end
        | None => (Ok JNull, w1)
        end
    end.

(** The [exec] closure of [set]. *)
Definition exec_set (key : string) (value : json) (ttl : Z) : M unit :=
  fun w =>
    match JSON_stringify value with
    | None => (Throw "Converting circular structure to JSON", w)
    | Some stringValue =>
        match send (SETEX key ttl stringValue) w with
        | (Throw msg, w1) => (Throw msg, w1)
        | (Ok _, w1) => (Ok tt, w1)
        end
    end.

(** The [exec] closure of [del]. *)
Definition exec_del (key : string) : M unit :=
  fun w =>
    match send (DEL key) w with
    | (Throw msg, w1) => (Throw msg, w1)
    | (Ok _, w1) => (Ok tt, w1)
    end.

(** [breaker ? breaker.fire(exec) : exec()] after the open test. *)
Definition guarded {A : Type} (skip : world -> result string A * world) (exec : M A) : M A :=
  fun w =>
    match _breaker (service w) with
    | Some b => if Opossum.opened b then skip w else fire b exec w
    | None => exec w
    end.

Definition get (key : string) : M json :=
  fun w =>
    match
      (if disconnected w
       then (Ok JNull, logged warn "Redis not connected, skipping cache get" w)
       else guarded
              (fun w' => (Ok JNull,
                 logged warn "Redis breaker open - treating as cache miss for get" w'))
              (exec_get key) w)
    with
    | (Ok v, w1) => (Ok v, w1)
    | (Throw _, w1) => (Ok JNull, logged error ("Cache get error for key " +:+ key +:+ ":") w1)
    end.

(** [set(key, value, ttl = 3600)] *)
Definition set (key : string) (value : json) (ttl : option Z) : M unit :=
  fun w =>
    match
      (if disconnected w
       then (Ok tt, logged warn "Redis not connected, skipping cache set" w)
       else guarded
              (fun w' => (Ok tt, logged warn "Redis breaker open - skipping cache set" w'))
              (exec_set key value (default 3600 ttl)) w)
    with
    | (Ok _, w1) => (Ok tt, w1)
    | (Throw _, w1) => (Ok tt, logged error ("Cache set error for key " +:+ key +:+ ":") w1)
    end.

Definition del (key : string) : M unit :=
  fun w =>
    match
      (if disconnected w
       then (Ok tt, w)
       else guarded
              (fun w' => (Ok tt, logged warn "Redis breaker open - skipping delete" w'))
              (exec_del key) w)
    with
    | (Ok _, w1) => (Ok tt, w1)
    | (Throw _, w1) => (Ok tt, logged error ("Cache delete error for key " +:+ key +:+ ":") w1)
    end.

End Backend.

(** The backend is down, or its breaker is open. *)
Definition unavailable (w : world) : Prop :=
  isConnected (service w) = false \/
  client (service w) = None \/
  exists b, _breaker (service w) = Some b /\ Opossum.status b = Opossum.OPEN.

End Cache.

(** ** Rate-limiting middlewares ([src/middleware/rateBot.ts] and
    [src/middleware/perEndpointLimiter.ts]) *)

Module RateLimit.

(** The parts of an express request the middlewares read. *)
Record Request := {
  path : string;
  userAgent : option string;
  userId : option string;
  ip : option string
}.

Record Response := {
  statusCode : Z;
  headers : list (string * string);
  body : json
}.

(** A middleware either hands the request to [next] or answers it. *)
Inductive Outcome :=
| Next
| Respond (r : Response).

(** What it does on the way. *)
Inductive Effect :=
| Consume (keyPrefix key : string)
| Log (l : level) (text : string).

(** What [limiter.consume] rejects with: a [RateLimiterRes] when the
    quota is exceeded, anything else when the store fails. *)
Inductive Thrown :=
| RateLimiterRes (msBeforeNext : Z)
| Unexpected (msg : string).

Record Limiter := {
  keyPrefix : string;
  points : Z;
  duration : Z;
  blockDuration : option Z
}.

(** [(req as any).user?.userId || req.ip || 'anonymous'] *)
Definition getKey (req : Request) : string :=
  match given (userId req) with
  | Some u => u
  | None =>
      match given (ip req) with
      | Some a => a
      | None => "anonymous"
      end
  end.

Definition isBotUserAgent (req : Request) : bool :=
  let ua := toLowerCase (default "" (given (userAgent req))) in
  (includes ua "bot" || includes ua "crawler" || includes ua "spider")%bool.

(** [NODE_ENV !== 'production'] *)
Definition not_production (NODE_ENV : option string) : bool :=
  match NODE_ENV with
  | Some v => negb (String.eqb v "production")
  | None => true
  end.

Section RateBot.

Variable NODE_ENV : option string.

(** Whether the [redisReady] promise of the module resolved. *)
Variable redisReady : bool.

(** How [limiter.consume(key)] settles for the request at hand. *)
Variable consume : Limiter -> string -> result Thrown unit.

(** 100 requests per 15 minutes, in Redis. *)
Definition rateLimiterRedis : Limiter :=
  {| keyPrefix := "rl_main"; points := 100; duration := 900; blockDuration := None |}.

(** 10 requests per second, in memory. *)
Definition tokenBucketLimiter : Limiter :=
  {| keyPrefix := "rl_burst"; points := 10; duration := 1; blockDuration := None |}.

Definition bots_not_allowed : Response :=
  {| statusCode := 403; headers := [];
     body := JObj [("success", JBool false); ("message", JStr "Bots are not allowed")] |}.

Definition too_many_requests (retryAfterSec : Z) : Response :=
  {| statusCode := 429;
     headers := [("Retry-After", pretty retryAfterSec)];
     body := JObj [("success", JBool false);
                   ("message", JStr "Too many requests, please try again later.");
                   ("retryAfter", JNum retryAfterSec)] |}.

(** The [try] block: both limiters, the distributed one first. *)
Definition consume_both (key : string) : result Thrown unit * list Effect :=
  match consume rateLimiterRedis key with
  | Throw err => (Throw err, [Consume "rl_main" key])
  | Ok _ =>
      match consume tokenBucketLimiter key with
      | Throw err => (Throw err, [Consume "rl_main" key; Consume "rl_burst" key])
      | Ok _ => (Ok tt, [Consume "rl_main" key; Consume "rl_burst" key])
      end
  end.

Definition rateBot (req : Request) : Outcome * list Effect :=
  if not_production NODE_ENV then (Next, [])
  else
    let path := default "" (given (Some (path req))) in
    if startsWith path "/api/auth" then (Next, [])
    else if isBotUserAgent req then (Respond bots_not_allowed, [])
    else
      let key := getKey req in
      if negb redisReady
      then (Next, [Log warn "[rate-limit] Redis unavailable; failing open"])
      else
        match consume_both key with
        | (Ok _, effects) => (Next, effects)
        | (Throw (RateLimiterRes msBeforeNext), effects) =>
            (Respond (too_many_requests (ceil_div_1000 msBeforeNext)), effects)
        | (Throw (Unexpected _), effects) =>
            (Next, effects ++ [Log error "[rate-limit] unexpected error:"])
        end.

(** The request gets as far as the store check. *)
Definition reaches_store (req : Request) : bool :=
  (negb (not_production NODE_ENV) &&
   negb (startsWith (path req) "/api/auth") &&
   negb (isBotUserAgent req))%bool.

End RateBot.

Section PerEndpoint.

Variable redisReady : bool.
Variable consume : Limiter -> string -> result Thrown unit.

Record EndpointRule := {
  prefix : string;
  limiter : Limiter
}.

Definition endpointRules : list EndpointRule :=
  [ {| prefix := "/api/users";
       limiter := {| keyPrefix := "endpoint_users"; points := 50;
                     duration := 900; blockDuration := Some 60 |} |};
    {| prefix := "/api/adventures";
       limiter := {| keyPrefix := "endpoint_adventures"; points := 200;
                     duration := 900; blockDuration := Some 30 |} |} ].

Definition getLimiterForPath (path : string) : option Limiter :=
  limiter <$> List.find (fun r => startsWith path (prefix r)) endpointRules.

Definition getRateLimitKey (req : Request) : string := getKey req.

Definition endpoint_limit_exceeded (retryAfterSeconds : Z) : Response :=
  {| statusCode := 429;
     headers := [("Retry-After", pretty retryAfterSeconds)];
     body := JObj [("message", JStr "Endpoint rate limit exceeded");
                   ("retryAfterSeconds", JNum retryAfterSeconds)] |}.

Definition perEndpointLimiter (req : Request) : Outcome * list Effect :=
  match getLimiterForPath (path req) with
  | None => (Next, [])
  | Some limiter =>
      let key := getRateLimitKey req in
      if negb redisReady
      then (Next, [Log warn "[rate-limit] Redis not available; failing open"])
      else
        match consume limiter key with
        | Ok _ => (Next, [Consume (keyPrefix limiter) key])
        | Throw (RateLimiterRes msBeforeNext) =>
            (Respond (endpoint_limit_exceeded (ceil_div_1000 msBeforeNext)),
             [Consume (keyPrefix limiter) key])
        | Throw (Unexpected _) =>
            (Next, [Consume (keyPrefix limiter) key;
                    Log error "[rate-limit] unexpected error:"])
        end
  end.

End PerEndpoint.

End RateLimit.

(** ** Test doubles

    Concrete stand-ins for the platform and the network, in the manner
    of [tests/httpClient.test.ts]: they instantiate the parameters of
    the models at concrete inputs. *)

Module Demo.

Import Http.

(** An origin parser that knows two hosts; every other string is
    refused, as a relative URL is. *)
Definition origin_of (u : string) : option string :=
  if startsWith u "https://svc.example/" then Some "https://svc.example"
  else if startsWith u "https://other.example/" then Some "https://other.example"
  else None.

Definition reply (s : Z) (d : json) : TransportOutcome :=
  Reply {| status := s; data := d |}.

Definition ok_body : json := JObj [("ok", JBool true)].

(** 500, 500, then 200 with body [{ok:true}]. *)
Definition flaky (n : nat) (_ : WireRequest) : TransportOutcome :=
  match n with
  | 0%nat | 1%nat => reply 500 (JObj [])
  | _ => reply 200 ok_body
  end.

(** Every request is answered 404. *)
Definition not_found (_ : nat) (_ : WireRequest) : TransportOutcome :=
  reply 404 (JObj []).

(** Every request is answered 500. *)
Definition failing (_ : nat) (_ : WireRequest) : TransportOutcome :=
  reply 500 (JObj []).

(** The breaker options of an unset environment. *)
Definition breaker_defaults : Opossum.Options :=
  {| Opossum.errorThresholdPercentage := 50;
     Opossum.timeout := 5000;
     Opossum.resetTimeout := 30000;
     Opossum.rollingCountTimeout := 10000;
     Opossum.rollingCountBuckets := 10 |}.

Definition no_env : ServiceRegistry.Env :=
  {| ServiceRegistry.ENGAGEMENT_SERVICE_URL := None;
     ServiceRegistry.PYTHON_AGENT_URL := None |}.

(** [{ url: u, method: 'get' }] *)
Definition get (u : string) : HttpRequestOptions :=
  {| serviceName := None; url := Some u; baseURL := None;
     method := Some "get"; timeout := None; validateStatus := None |}.

(** [{ url: u, baseURL: base, method: 'get' }] *)
Definition get_from (base u : string) : HttpRequestOptions :=
  {| serviceName := None; url := Some u; baseURL := Some base;
     method := Some "get"; timeout := None; validateStatus := None |}.

(** [{ serviceName: s, url: u, method: 'get' }] *)
Definition get_service (s u : string) : HttpRequestOptions :=
  {| serviceName := Some s; url := Some u; baseURL := None;
     method := Some "get"; timeout := None; validateStatus := None |}.

(** [{ method: 'get' }] *)
Definition get_nothing : HttpRequestOptions :=
  {| serviceName := None; url := None; baseURL := None;
     method := Some "get"; timeout := None; validateStatus := None |}.

(** [httpRequest] against a given network, in an unset environment. *)
Definition request (net : nat -> WireRequest -> TransportOutcome)
    : HttpRequestOptions -> M AxiosResponse :=
  httpRequest origin_of net 10000 2 breaker_defaults no_env.

(** The adapter of Node over a network: a request whose full URL does
    not parse is refused with the [TypeError], any other reaches the
    network. *)
Definition node (net : nat -> WireRequest -> TransportOutcome)
    (n : nat) (req : WireRequest) : TransportOutcome :=
  if unparsable origin_of req then InvalidUrl else net n req.

(** A cache backend that refuses every command. *)
Definition redis_down (_ : nat) (_ : Cache.Command) : Cache.Reply :=
  Cache.Failure "ECONNREFUSED".

(** A cache backend that holds one string under every key. *)
Definition redis_up (_ : nat) (_ : Cache.Command) : Cache.Reply :=
  Cache.Bulk (Some "cached").

(** Stand-ins for [JSON.parse] and [JSON.stringify] on strings. *)
Definition parse (s : string) : option json := Some (JStr s).

Definition stringify (j : json) : option string :=
  match j with
  | JStr s => Some s
  | _ => Some "{}"
  end.

(** A connected cache service whose breaker has been forced open, as
    in [tests/cacheService.test.ts]. *)
Definition cache_open : Cache.world :=
  {| Cache.service :=
       {| Cache.client := Some Cache.redis_client;
          Cache.isConnected := true;
          Cache._breaker :=
            Some (Opossum.with_status Opossum.OPEN (Opossum.create breaker_defaults)) |};
     Cache.commands := []; Cache.logs := [] |}.

(** A cache service whose connection attempt failed. *)
Definition cache_down : Cache.world :=
  Cache.initialize false breaker_defaults Cache.fresh.

(** A cache service that connected. *)
Definition cache_ready : Cache.world :=
  Cache.initialize true breaker_defaults Cache.fresh.

Definition browser : RateLimit.Request :=
  {| RateLimit.path := "/api/tasks";
     RateLimit.userAgent := Some "Mozilla/5.0 (X11; Linux x86_64)";
     RateLimit.userId := Some "user-1";
     RateLimit.ip := Some "203.0.113.7" |}.

Definition crawler : RateLimit.Request :=
  {| RateLimit.path := "/api/tasks";
     RateLimit.userAgent := Some "Mozilla/5.0 (compatible; Googlebot/2.1)";
     RateLimit.userId := None;
     RateLimit.ip := Some "203.0.113.9" |}.

Definition crawler_login : RateLimit.Request :=
  {| RateLimit.path := "/api/auth/login";
     RateLimit.userAgent := Some "Mozilla/5.0 (compatible; Googlebot/2.1)";
     RateLimit.userId := None;
     RateLimit.ip := Some "203.0.113.9" |}.

Definition users_page : RateLimit.Request :=
  {| RateLimit.path := "/api/users/42";
     RateLimit.userAgent := Some "Mozilla/5.0 (X11; Linux x86_64)";
     RateLimit.userId := Some "user-1";
     RateLimit.ip := Some "203.0.113.7" |}.

(** Limiters that grant every request. *)
Definition granting (_ : RateLimit.Limiter) (_ : string)
    : result RateLimit.Thrown unit := Ok tt.

(** Limiters whose quota is used up, the window closing in 1.5 s. *)
Definition exhausted (_ : RateLimit.Limiter) (_ : string)
    : result RateLimit.Thrown unit := Throw (RateLimit.RateLimiterRes 1500).

(** Limiters of which only the burst limiter is used up, its window
    closing in 0.4 s. *)
Definition burst_exhausted (l : RateLimit.Limiter) (_ : string)
    : result RateLimit.Thrown unit :=
  if String.eqb (RateLimit.keyPrefix l) "rl_burst"
  then Throw (RateLimit.RateLimiterRes 400)
  else Ok tt.

(** Limiters whose quota is used up while the window is closing: no
    time is left before the next request. *)
Definition expiring (_ : RateLimit.Limiter) (_ : string)
    : result RateLimit.Thrown unit := Throw (RateLimit.RateLimiterRes 0).

End Demo.

(** ** Further test doubles *)

Module Samples.

Import Http.

(** 500 on the first three invocations, 200 afterwards. *)
Definition recovering (n : nat) (_ : WireRequest) : TransportOutcome :=
  match n with
  | 0%nat | 1%nat | 2%nat => Demo.reply 500 (JObj [])
  | _ => Demo.reply 200 Demo.ok_body
  end.

(** Limiters of which the distributed one grants and the burst
    limiter fails. *)
Definition burst_broken (l : RateLimit.Limiter) (_ : string)
    : result RateLimit.Thrown unit :=
  if String.eqb (RateLimit.keyPrefix l) "rl_burst"
  then Throw (RateLimit.Unexpected "ECONNRESET")
  else Ok tt.

(** 500, 500, then 503 for good. *)
Definition degrading (n : nat) (_ : WireRequest) : TransportOutcome :=
  match n with
  | 0%nat | 1%nat => Demo.reply 500 (JObj [])
  | _ => Demo.reply 503 (JObj [])
  end.

(** The state after one call to svc.example on which every attempt
    was answered 500. *)
Definition after_outage : world :=
  snd (Demo.request recovering (Demo.get "https://svc.example/api") init).

End Samples.

(** ** Truthiness of values *)

Module JsValue.

(** [if (v)] for a parsed value: null, false, 0 and the empty string
    are falsy, arrays and objects are truthy. *)
Definition truthy_value (v : json) : bool :=
  match v with
  | JNull => false
  | JBool b => b
  | JNum n => negb (n =? 0)
  | JStr s => truthy s
  | JArr _ => true
  | JObj _ => true
  end.

(** [if (x)] when [x] may also be undefined. *)
Definition present (x : option json) : bool :=
  match x with
  | Some v => truthy_value v
  | None => false
  end.

End JsValue.

(** ** Log sanitizer ([src/utils/secureLogger.ts])

    Strings are byte strings: keys are lower-cased on the ASCII
    letters, and a string that holds a byte outside ASCII never
    matches the pattern of a secret.  Objects are lists of entries with
    distinct keys other than [__proto__]. *)

Module SecureLogger.

Definition SENSITIVE_FIELDS : list string :=
  [ "password"; "secret"; "token"; "key"; "credential"; "auth"; "jwt";
    "api_key"; "apiKey"; "access_token"; "refresh_token" ].

(** One character of [[a-zA-Z0-9+/=_-]]. *)
Definition secret_char (c : ascii) : bool :=
  let n := nat_of_ascii c in
  ((Nat.leb 97 n && Nat.leb n 122) || (Nat.leb 65 n && Nat.leb n 90) ||
   (Nat.leb 48 n && Nat.leb n 57) ||
   Nat.eqb n 43 || Nat.eqb n 47 || Nat.eqb n 61 || Nat.eqb n 95 || Nat.eqb n 45)%bool.

Fixpoint all_secret_chars (s : string) : bool :=
  match s with
  | EmptyString => true
  | String c rest => (secret_char c && all_secret_chars rest)%bool
  end.

(** [/^[a-zA-Z0-9+/=_-]+$/.test(s)] *)
Definition matches_secret_pattern (s : string) : bool :=
  (truthy s && all_secret_chars s)%bool.

(** [obj.length > 20 && /^[a-zA-Z0-9+/=_-]+$/.test(obj)] *)
Definition looks_like_secret (s : string) : bool :=
  (Nat.ltb 20 (String.length s) && matches_secret_pattern s)%bool.

(** [SENSITIVE_FIELDS.some(field => key.toLowerCase().includes(field))] *)
Definition isSensitive (key : string) : bool :=
  existsb (fun field => includes (toLowerCase key) field) SENSITIVE_FIELDS.

Fixpoint sanitizeObject (obj : json) (depth : nat) {struct obj} : json :=
  if Nat.ltb 10 depth then JStr "[Max Depth Reached]"
  else
    match obj with
    | JNull => JNull
    | JStr s => if looks_like_secret s then JStr "[REDACTED]" else JStr s
    | JArr items => JArr (List.map (fun item => sanitizeObject item (S depth)) items)
    | JObj fields =>
        JObj (List.map
                (fun entry =>
                   let '(key, value) := entry in
                   (key, if isSensitive key then JStr "[REDACTED]"
                         else sanitizeObject value (S depth)))
                fields)
    | JBool b => JBool b
    | JNum n => JNum n
    end.

Record LogLine := {
  line_level : level;
  line_message : string;
  line_data : option json
}.

(** [secureLog(level, message, data?)]: what is handed to the logger. *)
Definition secureLog (l : level) (message : string) (data : option json) : LogLine :=
  {| line_level := l; line_message := message;
     line_data := match data with
                  | Some d => if JsValue.truthy_value d then Some (sanitizeObject d 0) else None
                  | None => None
                  end |}.

(** A value shows nothing the sanitizer hides: no string that looks
    like a secret, and under every sensitive key the redaction
    marker. *)
Fixpoint discreet (v : json) : bool :=
  match v with
  | JStr s => negb (looks_like_secret s)
  | JArr items => forallb discreet items
  | JObj fields =>
      forallb (fun entry =>
                 let '(key, value) := entry in
                 if isSensitive key
                 then match value with
                      | JStr s => String.eqb s "[REDACTED]"
                      | _ => false
                      end
                 else discreet value)
              fields
  | _ => true
  end.


End SecureLogger.

(** ** Request sanitizer ([src/middleware/sanitize.ts])

    An object is the list of its own entries, in the order of
    [Object.entries], with distinct keys. *)

Module Sanitize.

(** [k.startsWith('$') || k.includes('.')] *)
Definition operator_key (k : string) : bool :=
  (startsWith k "$" || includes k ".")%bool.

(** The key [__proto__]: the assignment [clean[k] = ...] under it does
    not make an entry of the copy but sets its prototype. *)
Definition proto_key (k : string) : bool := String.eqb k "__proto__".

(** The copy [strip] builds: its own entries.  What an entry
    [__proto__] held is, stripped, the prototype of the copy, which
    its entries do not show. *)
Fixpoint strip (obj : json) : json :=
  match obj with
  | JArr items => JArr (List.map strip items)
  | JObj fields =>
      JObj ((fix entries (l : list (string * json)) : list (string * json) :=
               match l with
               | [] => []
               | (k, v) :: rest =>
                   if operator_key k then entries rest
                   else if proto_key k then entries rest
                   else (k, strip v) :: entries rest
               end) fields)
  | other => other
  end.

Record Request := {
  body : option json;
  query : option json;
  params : option json
}.

(** [if (x) x = strip(x)] *)
Definition cleaned (x : option json) : option json :=
  if JsValue.present x then strip <$> x else x.

(** The middleware: the three parts are replaced and [next] is
    called. *)
Definition sanitize (req : Request) : Request :=
  {| body := cleaned (body req);
     query := cleaned (query req);
     params := cleaned (params req) |}.

(** No key of the value, at any depth, starts with [$] or contains a
    dot. *)
Fixpoint operator_free (v : json) : bool :=
  match v with
  | JArr items => forallb operator_free items
  | JObj fields =>
      forallb (fun entry =>
                 let '(k, value) := entry in
                 (negb (operator_key k) && operator_free value)%bool)
              fields
  | _ => true
  end.

(** No key of the value, at any depth, is an operator key or
    [__proto__]. *)
Fixpoint plain (v : json) : bool :=
  match v with
  | JArr items => forallb plain items
  | JObj fields =>
      forallb (fun entry =>
                 let '(k, value) := entry in
                 (negb (operator_key k) && negb (proto_key k) && plain value)%bool)
              fields
  | _ => true
  end.

Section Express.

Variable NODE_ENV : option string.

(** The [express-rate-limit] middleware the function builds. *)
Variable limiter : RateLimit.Request -> RateLimit.Outcome.

(** The variant of [rateBot] that delegates to [express-rate-limit]. *)
Definition rateBot (req : RateLimit.Request) : RateLimit.Outcome :=
  if RateLimit.not_production NODE_ENV then RateLimit.Next
  else
    let path := default "" (given (Some (RateLimit.path req))) in
    if startsWith path "/api/auth" then RateLimit.Next
    else
      let ua := toLowerCase (default "" (given (RateLimit.userAgent req))) in
      if (includes ua "bot" || includes ua "crawler" || includes ua "spider")%bool
      then RateLimit.Respond RateLimit.bots_not_allowed
      else limiter req.

End Express.

End Sanitize.

(** ** In-memory throttle ([src/middleware/throttler.ts]) *)

Module Throttler.

(** What the middleware does with the request: [next] now, or a timer
    of the given delay ([TimerNaN] when the delay is not a number). *)
Inductive Decision :=
| Pass
| Timer (ms : Z)
| TimerNaN.

(** [throttleRequests(maxRequests, windowMs)] on a request of [key]
    arriving at [now].  The table [requestTimes] is a plain object;
    keys are taken not to be names that objects inherit, such as
    [constructor]. *)
Definition throttleRequests (maxRequests windowMs : Z) (key : string) (now : Z)
    (requestTimes : gmap string (list Z)) : Decision * gmap string (list Z) :=
  let recorded := default [] (requestTimes !! key) in
  let recent := List.filter (fun time => now - time <? windowMs) recorded in
  if maxRequests <=? Z.of_nat (length recent) then
    (match recent with
     | oldest :: _ => Timer (Z.max 0 (windowMs - (now - oldest)))
     | [] => TimerNaN
     end,
     <[key := recent]> requestTimes)
  else (Pass, <[key := recent ++ [now]]> requestTimes).

(** The timer callback, run at [later]: unless the client is gone the
    time is recorded and [next] is called.  [None] when the push
    throws because the key has no array. *)
Definition delayed (key : string) (later : Z) (gone : bool)
    (requestTimes : gmap string (list Z)) : option (bool * gmap string (list Z)) :=
  if gone then Some (false, requestTimes)
  else
    match requestTimes !! key with
    | Some times => Some (true, <[key := times ++ [later]]> requestTimes)
    | None => None
    end.

End Throttler.

(** ** More of the cache client ([src/services/cacheService.ts]) *)

Module CacheKeys.

(** The [reconnectStrategy] of the client: [None] stands for [false]
    (stop reconnecting); [jitter] is [Math.floor(Math.random() * 100)]. *)
Definition reconnectStrategy (maxReconnectAttempts maxReconnectDelay : Z)
    (jitter : Z) (retries : Z) : option Z :=
  if maxReconnectAttempts <? retries then None
  else
    let base := 100 in
    let exp := Z.min maxReconnectDelay (base * 2 ^ retries) in
    Some (Z.min maxReconnectDelay (exp + jitter)).

(** [`user:${userId}:preferences`] *)
Definition preferences_key (userId : string) : string :=
  "user:" +:+ userId +:+ ":preferences".

Section Backend.

Variable redis : nat -> Cache.Command -> Cache.Reply.
Variable JSON_parse : string -> option json.
Variable JSON_stringify : json -> option string.

Definition setUserPreferences (userId : string) (preferences : json) : Cache.M unit :=
  Cache.set redis JSON_stringify (preferences_key userId) preferences (Some 3600).

Definition getUserPreferences (userId : string) : Cache.M json :=
  Cache.get redis JSON_parse (preferences_key userId).

End Backend.

End CacheKeys.

(** ** More string primitives

    Strings are byte strings and are taken to be ASCII, as header
    values, addresses and environment settings are. *)

Module JsString.

(** White space as [trim] and the class [\s] have it, within ASCII:
    tab, line feed, vertical tab, form feed, carriage return, space. *)
Definition is_white_space (a : ascii) : bool :=
  let n := nat_of_ascii a in
  (Nat.leb 9 n && Nat.leb n 13 || Nat.eqb n 32)%bool.

Fixpoint trimStart (s : string) : string :=
  match s with
  | EmptyString => EmptyString
  | String a s' => if is_white_space a then trimStart s' else s
  end.

Fixpoint trimEnd (s : string) : string :=
  match s with
  | EmptyString => EmptyString
  | String a s' =>
      match trimEnd s' with
      | EmptyString => if is_white_space a then EmptyString else String a EmptyString
      | String b t => String a (String b t)
      end
  end.

(** [s.trim()] *)
Definition trim (s : string) : string := trimEnd (trimStart s).

(** [s.split(sep)] for a separator of one character. *)
Fixpoint split (sep : ascii) (s : string) : list string :=
  match s with
  | EmptyString => [EmptyString]
  | String a s' =>
      if Ascii.eqb a sep then EmptyString :: split sep s'
      else
        match split sep s' with
        | piece :: pieces => String a piece :: pieces
        | [] => [String a EmptyString]
        end
  end.

(** [s.slice(n)] for a non-negative [n]. *)
Fixpoint slice (n : nat) (s : string) : string :=
  match n, s with
  | O, _ => s
  | S n', String _ s' => slice n' s'
  | S _, EmptyString => EmptyString
  end.

(** [s.replace(p, '')] for a string pattern: the first occurrence of
    [p] is removed. *)
Fixpoint remove_first (p s : string) : string :=
  if startsWith s p then slice (String.length p) s
  else
    match s with
    | EmptyString => EmptyString
    | String a s' => String a (remove_first p s')
    end.

Definition is_digit (a : ascii) : bool :=
  let n := nat_of_ascii a in (Nat.leb 48 n && Nat.leb n 57)%bool.

(** The longest prefix of digits, and what follows it. *)
Fixpoint span_digits (s : string) : string * string :=
  match s with
  | EmptyString => (EmptyString, EmptyString)
  | String a s' =>
      if is_digit a then let '(ds, rest) := span_digits s' in (String a ds, rest)
      else (EmptyString, s)
  end.

(** [parseInt(ds, 10)] for a string of digits, read left to right
    from [acc]. *)
Fixpoint parse_digits (acc : Z) (ds : string) : Z :=
  match ds with
  | EmptyString => acc
  | String a ds' => parse_digits (10 * acc + Z.of_nat (nat_of_ascii a - 48)) ds'
  end.

(** Every character of the string satisfies the test. *)
Fixpoint all_chars (test : ascii -> bool) (s : string) : bool :=
  match s with
  | EmptyString => true
  | String a s' => (test a && all_chars test s')%bool
  end.

(** The character [U+0022]. *)
Definition quote : string := String (ascii_of_nat 34) EmptyString.

(** [pieces.join(sep)] *)
Fixpoint join (sep : string) (pieces : list string) : string :=
  match pieces with
  | [] => EmptyString
  | [piece] => piece
  | piece :: rest => piece +:+ sep +:+ join sep rest
  end.

End JsString.

(** ** Address filter ([src/middleware/ipFilter.ts]) *)

Module IpFilter.

Import JsString.

(** [value.split(',').map(v => v.trim()).filter(Boolean)], and the
    empty list when the setting is absent or empty. *)
Definition parseList (value : option string) : list string :=
  match given value with
  | None => []
  | Some v => List.filter truthy (List.map trim (split "," v))
  end.

(** What the middleware reads of a request: the [x-forwarded-for]
    header and [req.socket.remoteAddress]. *)
Record Request := {
  forwardedFor : option string;
  remoteAddress : option string
}.

(** [(req.headers['x-forwarded-for'] || (req.socket.remoteAddress || '')).toString()] *)
Definition address (req : Request) : string :=
  match given (forwardedFor req) with
  | Some forwarded => forwarded
  | None => default "" (given (remoteAddress req))
  end.

Definition forbidden : RateLimit.Response :=
  {| RateLimit.statusCode := 403; RateLimit.headers := [];
     RateLimit.body := JObj [("success", JBool false); ("message", JStr "Forbidden")] |}.

(** [entries.length && entries.some(entry => ip.includes(entry))] *)
Definition matches (entries : list string) (ip : string) : bool :=
  match entries with
  | [] => false
  | _ => existsb (fun entry => includes ip entry) entries
  end.

Section Filter.

Variable IP_ALLOW_LIST : option string.
Variable IP_DENY_LIST : option string.

Definition allow : list string := parseList IP_ALLOW_LIST.

Definition deny : list string := parseList IP_DENY_LIST.

Definition ipFilter (req : Request) : RateLimit.Outcome * list RateLimit.Effect :=
  let ip := address req in
  if matches deny ip
  then (RateLimit.Respond forbidden, [RateLimit.Log warn ("Blocked IP " +:+ ip)])
  else
    match allow with
    | _ :: _ =>
        if negb (existsb (fun ok => includes ip ok) allow)
        then (RateLimit.Respond forbidden,
              [RateLimit.Log warn ("Denied IP " +:+ ip +:+ " not in allow list")])
        else (RateLimit.Next, [])
    | [] => (RateLimit.Next, [])
    end.

End Filter.

End IpFilter.

(** ** Error handler ([src/middleware/errorHandler.ts]) *)

Module ErrorHandler.

Import JsString.

(** The error as the handler reads it.  [statusCode], [code] and
    [errors] are own properties when present; [errors] holds the
    messages of [Object.values(err.errors)] in that order; a [code]
    that is not a number is never [11000] and counts as absent. *)
Record CustomError := {
  name : string;
  message : string;
  stack : option string;
  statusCode : option Z;
  code : option Z;
  errors : option (list string)
}.

(** The local variable [error] of the handler: what of it is read. *)
Record Picked := {
  picked_message : string;
  picked_statusCode : option Z
}.

Record Request := {
  requestId : option string;
  method : string;
  url : string;
  userAgent : option string;
  ip : option string
}.

(** The answer: [res.status(status).json(errorResponse)]. *)
Record Answer := {
  status : Z;
  answer_message : string;
  answer_requestId : string;
  answer_stack : option string;
  answer_context : option Request
}.

Definition is_code (c : Z) (err : CustomError) : bool :=
  match code err with
  | Some n => n =? c
  | None => false
  end.

Definition has_status (c : Z) (err : CustomError) : bool :=
  match statusCode err with
  | Some n => n =? c
  | None => false
  end.

(** The chain of [if] statements, each of which replaces [error]. *)
Definition pick (err : CustomError) : Picked :=
  let picked := {| picked_message := message err; picked_statusCode := statusCode err |} in
  let picked :=
    if String.eqb (name err) "CastError"
    then {| picked_message := "Resource not found"; picked_statusCode := Some 404 |}
    else picked in
  let picked :=
    if is_code 11000 err
    then {| picked_message := "Duplicate field value entered"; picked_statusCode := Some 400 |}
    else picked in
  let picked :=
    if String.eqb (name err) "ValidationError"
    then {| picked_message := join ", " (default [] (errors err));
            picked_statusCode := Some 400 |}
    else picked in
  let picked :=
    if String.eqb (name err) "JsonWebTokenError"
    then {| picked_message := "Invalid token"; picked_statusCode := Some 401 |}
    else picked in
  let picked :=
    if String.eqb (name err) "TokenExpiredError"
    then {| picked_message := "Token expired"; picked_statusCode := Some 401 |}
    else picked in
  if has_status 429 err
  then {| picked_message := "Too many requests, please try again later";
          picked_statusCode := Some 429 |}
  else picked.

(** [NODE_ENV === 'development'] *)
Definition development (NODE_ENV : option string) : bool :=
  match NODE_ENV with
  | Some v => String.eqb v "development"
  | None => false
  end.

Definition errorHandler (NODE_ENV : option string) (err : CustomError) (req : Request)
    : Answer :=
  let picked := pick err in
  let statusCode :=
    match picked_statusCode picked with
    | Some n => if n =? 0 then 500 else n
    | None => 500
    end in
  let message :=
    if truthy (picked_message picked) then picked_message picked
    else "Internal Server Error" in
  {| status := statusCode;
     answer_message := message;
     answer_requestId := default "unknown" (given (requestId req));
     answer_stack := if development NODE_ENV then stack err else None;
     answer_context := if development NODE_ENV then Some req else None |}.

(** The messages the handler writes itself. *)
Definition fixed_messages : list string :=
  ["Resource not found"; "Duplicate field value entered"; "Invalid token";
   "Token expired"; "Too many requests, please try again later";
   "Internal Server Error"].

End ErrorHandler.

(** ** Token revocation ([src/services/tokenRevocationService.ts])

    Numbers are integers: a numeric attribute value is its own floor,
    and sums and products are exact. *)

Module TokenRevocation.

Import JsString.

(** The multiplier of a unit letter of the pattern
    [^(\d+)\s*(s|m|h|d|w)?$], matched without regard to case. *)
Definition unit_seconds (u : ascii) : option Z :=
  let c := lower_ascii u in
  if Ascii.eqb c "s" then Some 1
  else if Ascii.eqb c "m" then Some 60
  else if Ascii.eqb c "h" then Some (60 * 60)
  else if Ascii.eqb c "d" then Some (24 * 60 * 60)
  else if Ascii.eqb c "w" then Some (7 * 24 * 60 * 60)
  else None.

(** [parseDurationToSeconds]: [None] stands for [null]. *)
Definition parseDurationToSeconds (value : string) : option Z :=
  let '(digits, rest) := span_digits (trim value) in
  match digits with
  | EmptyString => None
  | String _ _ =>
      let amount := parse_digits 0 digits in
      match trimStart rest with
      | EmptyString => Some amount
      | String u EmptyString =>
          match unit_seconds u with
          | Some factor => Some (amount * factor)
          | None => None
          end
      | String _ (String _ _) => None
      end
  end.

(** An entry of [item.properties.customAttributes]. *)
Record Attribute := {
  key : string;
  value : json
}.

(** A token item as the service reads it. *)
Record Item := {
  itemId : option string;
  customAttributes : list Attribute
}.

(** [customAttributes.find(attr => keys.includes(String(attr.key || '').toLowerCase()))?.value] *)
Definition lookup (keys : list string) (item : Item) : option json :=
  value <$> List.find (fun attr => existsb (String.eqb (toLowerCase (key attr))) keys)
                      (customAttributes item).

(** [parsed && parsed > 0] *)
Definition positive (parsed : option Z) : option Z :=
  match parsed with
  | Some n => if 0 <? n then Some n else None
  | None => None
  end.

Section Expiry.

(** [process.env.JWT_EXPIRES_IN] *)
Variable JWT_EXPIRES_IN : option string.

(** [new Date(v).getTime()], [None] when it is not a number. *)
Variable Date_getTime : json -> option Z.

(** [Date.now()] *)
Variable now : Z.

Definition defaultExpiresIn : Z :=
  default (7 * 24 * 60 * 60)
          (positive (parseDurationToSeconds (default "7d" (given JWT_EXPIRES_IN)))).

Definition fromExpiresAt (item : Item) : option Z :=
  match lookup ["expiresat"; "expiry"; "expires"; "tokenexpiresat"] item with
  | Some expiresAtValue =>
      if JsValue.truthy_value expiresAtValue then
        match Date_getTime expiresAtValue with
        | Some time =>
            let diffSeconds := (time - now) / 1000 in
            if 0 <? diffSeconds then Some diffSeconds else None
        | None => None
        end
      else None
  | None => None
  end.

Definition resolveExpiresIn (item : Item) : Z :=
  let later := default defaultExpiresIn (fromExpiresAt item) in
  match lookup ["expiresin"; "expiresinseconds"; "ttl"] item with
  | Some (JNum n) => Z.max 1 n
  | Some (JStr s) => default later (positive (parseDurationToSeconds s))
  | _ => later
  end.

End Expiry.

(** The key under which a revoked token is kept. *)
Definition revoked_key (tokenId : string) : string := "revoked_token:" +:+ tokenId.

Record Error := {
  error_name : string;
  error_message : string
}.

(** [isTokenRevoked], over what [redis.get] settles with. *)
Definition isTokenRevoked (redis_get : string -> result Error (option string))
    (tokenId : string) : result Error bool :=
  match redis_get (revoked_key tokenId) with
  | Ok (Some reply) => Ok (String.eqb reply "1")
  | Ok None => Ok false
  | Throw e => Throw e
  end.

(** A command sent to Redis: [setex(key, seconds, value)]. *)
Record Setex := {
  setex_key : string;
  setex_seconds : Z;
  setex_value : string
}.

Section Revoke.

Variable JWT_EXPIRES_IN : option string.
Variable Date_getTime : json -> option Z.

(** [Date.now()] while the item at the given position is handled. *)
Variable Date_now : nat -> Z.

(** [String(v)] for an attribute value. *)
Variable String_of : json -> string.

Definition resolveTokenId (item : Item) : option string :=
  match given (itemId item) with
  | Some id => Some id
  | None =>
      match List.find (fun attr =>
                         existsb (String.eqb (toLowerCase (key attr)))
                                 ["tokenid"; "jti"; "token_id"; "id"])
                      (customAttributes item) with
      | Some tokenAttr =>
          if JsValue.truthy_value (value tokenAttr) then Some (String_of (value tokenAttr))
          else None
      | None => None
      end
  end.

(** [revokeToken]: the command it sends. *)
Definition revokeToken (tokenId : string) (expiresIn : Z) : Setex :=
  {| setex_key := revoked_key tokenId; setex_seconds := expiresIn; setex_value := "1" |}.

(** The commands [revokeAllUserTokens] sends for the items found, from
    position [position] on.  Every task runs up to its [setex] before
    any of them settles, so the commands go out in the order of the
    items. *)
Fixpoint revokeTasks (position : nat) (items : list Item) : list Setex :=
  match items with
  | [] => []
  | item :: rest =>
      match given (resolveTokenId item) with
      | Some tokenId =>
          revokeToken tokenId
            (resolveExpiresIn JWT_EXPIRES_IN Date_getTime (Date_now position) item)
          :: revokeTasks (S position) rest
      | None => revokeTasks (S position) rest
      end
  end.

Definition revokeAllUserTokens (items : list Item) : list Setex := revokeTasks 0 items.

End Revoke.

End TokenRevocation.

(** ** Authentication middlewares ([src/middleware/authenticateToken.ts],
       [src/middleware/authenticateJWT.ts]) *)

Module Auth.

Import JsString.

(** The decoded payload: any of the fields may be missing. *)
Record JWTPayload := {
  userId : option string;
  email : option string;
  roles : option (list string);
  jti : option string
}.

(** [(req as any).user] *)
Record UserContext := {
  user_id : option string;
  user_userId : option string;
  user_email : option string;
  user_roles : list string
}.

Definition context (decoded : JWTPayload) : UserContext :=
  {| user_id := userId decoded;
     user_userId := userId decoded;
     user_email := email decoded;
     user_roles := default ["user"] (roles decoded) |}.

Inductive Outcome :=
| Next (user : UserContext)
| Respond (r : RateLimit.Response).

Definition Error := TokenRevocation.Error.

(** *** [authenticateToken] *)

Definition challenge (params : string) (text code : string) : RateLimit.Response :=
  {| RateLimit.statusCode := 401;
     RateLimit.headers := [("WWW-Authenticate", "Bearer " +:+ params)];
     RateLimit.body := JObj [("success", JBool false); ("error", JStr text);
                             ("code", JStr code)] |}.

Definition no_token : RateLimit.Response :=
  challenge ("error=" +:+ quote +:+ "invalid_request" +:+ quote)
            "No token provided" "NO_TOKEN".

Definition token_expired : RateLimit.Response :=
  challenge ("error=" +:+ quote +:+ "invalid_token" +:+ quote
             +:+ ", error_description=" +:+ quote +:+ "expired" +:+ quote)
            "Token expired" "TOKEN_EXPIRED".

Definition invalid_token : RateLimit.Response :=
  challenge ("error=" +:+ quote +:+ "invalid_token" +:+ quote)
            "Invalid token" "INVALID_TOKEN".

Section Token.

(** [verifyAccessToken] of [utils/jwt]. *)
Variable verifyAccessToken : string -> result Error JWTPayload.

Definition authenticateToken (authorization : option string) : Outcome :=
  match given authorization with
  | Some authHeader =>
      if startsWith authHeader "Bearer " then
        let token := trim (slice 7 authHeader) in
        match verifyAccessToken token with
        | Ok decoded => Next (context decoded)
        | Throw err =>
            if String.eqb (TokenRevocation.error_message err) "Access token expired"
            then Respond token_expired
            else Respond invalid_token
        end
      else Respond no_token
  | None => Respond no_token
  end.

End Token.

(** *** [authenticateJWT] *)

Record User := {
  isActive : bool
}.

(** The calls the middleware makes, in order. *)
Inductive Call :=
| Verify (token : string)
| FindById (id : string)
| IsTokenRevoked (jti : string)
| SecureLog (l : level) (text : string).

Definition denied (message : string) : RateLimit.Response :=
  {| RateLimit.statusCode := 401; RateLimit.headers := [];
     RateLimit.body := JObj [("success", JBool false); ("message", JStr message)] |}.

Definition internal_error : RateLimit.Response :=
  {| RateLimit.statusCode := 500; RateLimit.headers := [];
     RateLimit.body := JObj [("success", JBool false);
                             ("message", JStr "Internal server error during authentication.")] |}.

(** The [catch] block. *)
Definition caught (err : Error) : RateLimit.Response :=
  if String.eqb (TokenRevocation.error_name err) "JsonWebTokenError"
  then denied "Access denied. Invalid token."
  else if String.eqb (TokenRevocation.error_name err) "TokenExpiredError"
  then denied "Access denied. Token expired."
  else internal_error.

Definition logged_error : Call := SecureLog error "JWT authentication error:".

Section JWT.

(** [jwt.verify] with the configured secret, algorithm, issuer and
    audience. *)
Variable jwt_verify : string -> result Error JWTPayload.

(** [User.findById] *)
Variable User_findById : string -> result Error (option User).

(** [tokenRevocationService.isTokenRevoked] *)
Variable isTokenRevoked : string -> result Error bool.

Definition authenticateJWT (authorization : option string) : Outcome * list Call :=
  match given authorization with
  | None => (Respond (denied "Access denied. No token provided."), [])
  | Some authHeader =>
      let token := trim (remove_first "Bearer " authHeader) in
      if negb (truthy token)
      then (Respond (denied "Access denied. No token provided."), [])
      else
        match jwt_verify token with
        | Throw err => (Respond (caught err), [Verify token; logged_error])
        | Ok decoded =>
            match given (userId decoded), given (email decoded) with
            | Some id, Some _ =>
                match User_findById id with
                | Throw err =>
                    (Respond (caught err), [Verify token; FindById id; logged_error])
                | Ok None =>
                    (Respond (denied "Access denied. User not found."),
                     [Verify token; FindById id])
                | Ok (Some user) =>
                    if negb (isActive user)
                    then (Respond (denied "Access denied. Account is deactivated."),
                          [Verify token; FindById id])
                    else
                      match given (jti decoded) with
                      | Some tokenId =>
                          match isTokenRevoked tokenId with
                          | Throw err =>
                              (Respond (caught err),
                               [Verify token; FindById id; IsTokenRevoked tokenId;
                                logged_error])
                          | Ok true =>
                              (Respond (denied "Access denied. Token has been revoked."),
                               [Verify token; FindById id; IsTokenRevoked tokenId])
                          | Ok false =>
                              (Next (context decoded),
                               [Verify token; FindById id; IsTokenRevoked tokenId])
                          end
                      | None => (Next (context decoded), [Verify token; FindById id])
                      end
                end
            | _, _ =>
                (Respond (denied "Access denied. Invalid token payload."), [Verify token])
            end
        end
  end.

End JWT.

End Auth.

(** * Properties *)

(** ** Strings and rounding *)

Module JsFacts.

Lemma startsWith_spec s : forall t, startsWith t s = true <-> exists post, t = s +:+ post.
Proof.
  induction s as [|a s IH]; intros t; simpl.
  - split; [intros _; by exists t | done].
  - destruct t as [|b t].
    + split; [done | intros [post H]; discriminate].
    + destruct (Ascii.eqb a b) eqn:E.
      * apply Ascii.eqb_eq in E as ->. rewrite IH.
        split; intros [post H]; exists post; [by rewrite H | by injection H].
      * apply Ascii.eqb_neq in E.
        split; [done | intros [post H]; injection H as <- _; done].
Qed.

Lemma includes_spec p : forall s,
  includes s p = true <-> exists pre post, s = pre +:+ p +:+ post.
Proof.
  induction s as [|c s IH].
  - simpl. destruct (startsWith "" p) eqn:E.
    + apply startsWith_spec in E as [post E]. split; [|done].
      intros _. by exists "", post.
    + split; [done|]. intros (pre & post & H).
      destruct pre; [|discriminate]. simpl in H.
      assert (startsWith "" p = true) by (apply startsWith_spec; eauto). congruence.
  - simpl. destruct (startsWith (String c s) p) eqn:E.
    + apply startsWith_spec in E as [post E]. split; [|done].
      intros _. by exists "", post.
    + rewrite IH. split.
      * intros (pre & post & ->). by exists (String c pre), post.
      * intros (pre & post & H). destruct pre as [|c' pre].
        -- simpl in H. assert (startsWith (String c s) p = true)
             by (apply startsWith_spec; eauto). congruence.
        -- injection H as -> ->. eauto.
Qed.

Lemma given_Some x s : given x = Some s -> x = Some s /\ truthy s = true.
Proof.
  unfold given. destruct x as [s'|]; [|done].
  destruct (truthy s') eqn:E; [|done]. by intros [= <-].
Qed.

Lemma ceil_div_1000_spec ms :
  1000 * (ceil_div_1000 ms - 1) < ms <= 1000 * ceil_div_1000 ms.
Proof.
  unfold ceil_div_1000.
  pose proof (Z.div_mod (- ms) 1000 ltac:(lia)).
  pose proof (Z.mod_pos_bound (- ms) 1000 ltac:(lia)). lia.
Qed.

Lemma ceil_div_1000_pos ms : 0 < ms -> 0 < ceil_div_1000 ms.
Proof. pose proof (ceil_div_1000_spec ms). lia. Qed.

End JsFacts.

(** ** The HTTP client *)

Module HttpFacts.
Import Http.

(** ** Frames *)

Lemma io_only_refl w : io_only w w.
Proof. by split. Qed.

Lemma io_only_trans w1 w2 w3 : io_only w1 w2 -> io_only w2 w3 -> io_only w1 w3.
Proof. intros [] []; split; congruence. Qed.

Lemma io_only_sent req w : io_only w (sent req w).
Proof. by split. Qed.

Lemma io_only_logged l t a w : io_only w (logged l t a w).
Proof. by split. Qed.

Lemma invocations_sent req w : invocations (sent req w) = S (invocations w).
Proof. unfold invocations; simpl. rewrite length_app; simpl; lia. Qed.

Lemma invocations_logged l t a w : invocations (logged l t a w) = invocations w.
Proof. reflexivity. Qed.

(** ** The main error of a retry operation *)

Lemma count_message_snoc msg seen e :
  count_message msg (seen ++ [e])
  = (count_message msg seen + if String.eqb (message e) msg then 1 else 0)%nat.
Proof.
  unfold count_message. rewrite List.filter_app, length_app. simpl.
  by destruct (String.eqb (message e) msg).
Qed.

Lemma mainError_from_spec errors : forall seen main mainErrorCount,
  (forall x, In x seen -> (count_message (message x) seen <= mainErrorCount)%nat) ->
  match main with
  | Some m => In m seen /\ count_message (message m) seen = mainErrorCount
  | None => seen = [] /\ mainErrorCount = 0%nat
  end ->
  seen ++ errors <> [] ->
  exists m,
    mainError_from seen main mainErrorCount errors = Some m /\
    In m (seen ++ errors) /\
    forall x, In x (seen ++ errors) ->
      (count_message (message x) (seen ++ errors)
       <= count_message (message m) (seen ++ errors))%nat.
Proof.
  induction errors as [|e rest IH]; intros seen main mc Hmax Hmain Hne.
  - rewrite app_nil_r in *. simpl.
    destruct main as [m|]; [|by destruct Hmain].
    destruct Hmain as [Hin Hc]. exists m. split; [done|]. split; [done|].
    intros x Hx. rewrite Hc. by apply Hmax.
  - simpl. replace (seen ++ e :: rest) with ((seen ++ [e]) ++ rest)
      by (by rewrite <- app_assoc).
    assert (Hself : count_message (message e) (seen ++ [e])
                    = S (count_message (message e) seen)).
    { rewrite count_message_snoc, String.eqb_refl. lia. }
    destruct (Nat.leb mc (S (count_message (message e) seen))) eqn:E.
    + apply Nat.leb_le in E. apply IH.
      * intros x Hx. rewrite count_message_snoc.
        destruct (String.eqb (message e) (message x)) eqn:Ex.
        -- apply String.eqb_eq in Ex. rewrite <- Ex. lia.
        -- apply in_app_or in Hx as [Hx | [<- | []]].
           ++ specialize (Hmax x Hx). lia.
           ++ by rewrite String.eqb_refl in Ex.
      * split; [apply in_or_app; right; by left | exact Hself].
      * by destruct seen.
    + apply Nat.leb_gt in E.
      destruct main as [m|]; [|destruct Hmain as [_ ->]; lia].
      destruct Hmain as [Hin Hc]. apply IH.
      * intros x Hx. rewrite count_message_snoc.
        destruct (String.eqb (message e) (message x)) eqn:Ex.
        -- apply String.eqb_eq in Ex. rewrite <- Ex. lia.
        -- apply in_app_or in Hx as [Hx | [<- | []]].
           ++ specialize (Hmax x Hx). lia.
           ++ by rewrite String.eqb_refl in Ex.
      * split; [apply in_or_app; by left|].
        rewrite count_message_snoc.
        destruct (String.eqb (message e) (message m)) eqn:Em; [|lia].
        apply String.eqb_eq in Em. rewrite Em in E. lia.
      * by destruct seen.
Qed.

(** The main error is one of the errors, and no message occurs more
    often than its own. *)
Lemma mainError_spec errors :
  errors <> [] ->
  exists m,
    mainError errors = Some m /\ In m errors /\
    forall x, In x errors ->
      (count_message (message x) errors <= count_message (message m) errors)%nat.
Proof.
  intros Hne. apply (mainError_from_spec errors [] None 0%nat); [done|done|done].
Qed.

Lemma count_message_all msg seen :
  (forall x, In x seen -> message x = msg) -> count_message msg seen = length seen.
Proof.
  intros H. unfold count_message. induction seen as [|x seen IH]; [done|]. simpl.
  rewrite (H x) by (by left). rewrite String.eqb_refl. simpl. f_equal.
  apply IH. intros y Hy. apply H. by right.
Qed.

Lemma mainError_from_same errors e : forall seen main mainErrorCount,
  (forall x, In x (seen ++ errors) -> message x = message e) ->
  (mainErrorCount <= length seen)%nat ->
  mainError_from seen main mainErrorCount (errors ++ [e]) = Some e.
Proof.
  induction errors as [|x rest IH]; intros seen main mc Hall Hmc; simpl.
  - rewrite app_nil_r in Hall. rewrite (count_message_all _ _ Hall).
    destruct (Nat.leb mc (S (length seen))) eqn:E; [done|].
    apply Nat.leb_gt in E. lia.
  - assert (Hx : message x = message e)
      by (apply Hall, in_or_app; right; by left).
    rewrite Hx, (count_message_all (message e) seen)
      by (intros y Hy; apply Hall, in_or_app; by left).
    destruct (Nat.leb mc (S (length seen))) eqn:E;
      [|apply Nat.leb_gt in E; lia].
    apply IH.
    + intros y Hy. apply Hall. rewrite <- app_assoc in Hy. exact Hy.
    + rewrite length_app. simpl. lia.
Qed.

Lemma failures_in {A : Type} (outcome : nat -> result JsError A) m : forall len start,
  In m (failures outcome start len) ->
  exists i, (i < len)%nat /\ outcome (start + i)%nat = Throw m.
Proof.
  induction len as [|len IH]; intros start; unfold failures; simpl; [done|].
  destruct (outcome start) as [a|e] eqn:E; simpl.
  - intros Hin. destruct (IH (S start) Hin) as (i & Hi & Ho).
    exists (S i). split; [lia|]. by rewrite Nat.add_succ_r.
  - intros [<- | Hin].
    + exists 0%nat. split; [lia|]. by rewrite Nat.add_0_r.
    + destruct (IH (S start) Hin) as (i & Hi & Ho).
      exists (S i). split; [lia|]. by rewrite Nat.add_succ_r.
Qed.

Lemma failures_map {A : Type} (outcome : nat -> result JsError A) : forall len start f,
  (forall i, (i < len)%nat -> outcome (start + i)%nat = Throw (f i)) ->
  failures outcome start len = List.map f (seq 0 len).
Proof.
  induction len as [|len IH]; intros start f Hf; [done|].
  unfold failures. simpl. rewrite <- (Nat.add_0_r start) at 1. rewrite (Hf 0%nat) by lia.
  simpl. f_equal. rewrite <- (seq_shift len 0), List.map_map.
  apply (IH (S start) (fun i => f (S i))).
  intros i Hi. rewrite Nat.add_succ_l, <- Nat.add_succ_r. apply Hf. lia.
Qed.

(** When every error has the same message the main error is the last
    one. *)
Lemma mainError_same errors e :
  (forall x, In x errors -> message x = message e) ->
  mainError (errors ++ [e]) = Some e.
Proof. intros H. by apply mainError_from_same. Qed.

Section Client.

Variable new_URL_origin : string -> option string.
Variable transport : nat -> WireRequest -> TransportOutcome.
Variable DEFAULT_TIMEOUT : Z.
Variable DEFAULT_RETRIES : nat.
Variable hostBreakerOptions : Opossum.Options.
Variable env : ServiceRegistry.Env.

Local Abbreviation axios_request := (Http.axios_request transport).
Local Abbreviation host_attempt := (Http.host_attempt transport).
Local Abbreviation proxy_attempt := (Http.proxy_attempt transport).
Local Abbreviation direct_attempt := (Http.direct_attempt transport DEFAULT_TIMEOUT).
Local Abbreviation host_action := (Http.host_action transport DEFAULT_TIMEOUT DEFAULT_RETRIES).
Local Abbreviation proxy_action := (Http.proxy_action transport env).
Local Abbreviation action := (Http.action transport DEFAULT_TIMEOUT DEFAULT_RETRIES env).
Local Abbreviation fire := (Http.fire transport DEFAULT_TIMEOUT DEFAULT_RETRIES env).
Local Abbreviation getAxiosForHost := (Http.getAxiosForHost DEFAULT_TIMEOUT).
Local Abbreviation getAxiosInstance := (Http.getAxiosInstance env).
Local Abbreviation getBreakerForHost := (Http.getBreakerForHost hostBreakerOptions).
Local Abbreviation getOriginFromUrl := (Http.getOriginFromUrl new_URL_origin).
Local Abbreviation proxy_request := (Http.proxy_request transport DEFAULT_TIMEOUT DEFAULT_RETRIES env).
Local Abbreviation httpRequest :=
  (Http.httpRequest new_URL_origin transport DEFAULT_TIMEOUT DEFAULT_RETRIES
     hostBreakerOptions env).
Local Abbreviation target_of := (Http.target_of new_URL_origin).
Local Abbreviation reachable :=
  (Http.reachable new_URL_origin transport DEFAULT_TIMEOUT DEFAULT_RETRIES
     hostBreakerOptions env).
Local Abbreviation wf := (Http.wf DEFAULT_TIMEOUT env).
Local Abbreviation inst_ok := (Http.inst_ok DEFAULT_TIMEOUT env).
Local Abbreviation instance_of := (Http.instance_of DEFAULT_TIMEOUT env).
Local Abbreviation retries_of := (Http.retries_of DEFAULT_RETRIES).
Local Abbreviation attempt_outcome := (Http.attempt_outcome transport DEFAULT_TIMEOUT env).
Local Abbreviation direct_outcome := (Http.direct_outcome transport DEFAULT_TIMEOUT).
Local Abbreviation node_adapter := (Http.node_adapter new_URL_origin transport).
Local Abbreviation obtain := (Http.obtain hostBreakerOptions).
Local Abbreviation getBreaker := (Http.getBreaker).
Local Abbreviation reset_timer := (Http.reset_timer).
Local Abbreviation window_timer := (Http.window_timer).
Local Abbreviation getBreakerStates := (Http.getBreakerStates).

(** ** Attempts *)

Lemma axios_request_spec inst config w :
  axios_request inst config w =
    (match transport (invocations w) (merged inst config) with
     | NetworkFailure c msg => Throw (network_error c msg)
     | InvalidUrl => Throw invalid_url_error
     | Reply r => if validator inst config (status r) then Ok r
                  else Throw (bad_status_error r)
     end, sent (merged inst config) w).
Proof.
  unfold Http.axios_request.
  destruct (transport _ _) as [c msg| |r]; [done|done|].
  by destruct (validator _ _ _).
Qed.

Lemma host_attempt_spec inst config w :
  host_attempt inst config w =
    (verdict (validator inst config) true (transport (invocations w) (merged inst config)),
     sent (merged inst config) w).
Proof.
  unfold Http.host_attempt. rewrite axios_request_spec. unfold verdict.
  destruct (transport _ _) as [c msg| |r]; [done|done|].
  destruct (validator _ _ _); [|done].
  by destruct (500 <=? status r).
Qed.

Lemma direct_attempt_spec opts w :
  let config := with_timeout DEFAULT_TIMEOUT opts in
  direct_attempt opts w =
    (verdict (validator axios config) false (transport (invocations w) (merged axios config)),
     sent (merged axios config) w).
Proof.
  intros config. unfold Http.direct_attempt. fold config.
  rewrite axios_request_spec. unfold verdict.
  destruct (transport _ _) as [c msg| |r]; [done|done|].
  destruct (validator _ _ _); [|done].
  by destruct (500 <=? status r).
Qed.

Lemma proxy_attempt_fst service inst config w :
  fst (proxy_attempt service inst config w) =
    verdict (validator inst config) true (transport (invocations w) (merged inst config)).
Proof.
  unfold Http.proxy_attempt. rewrite axios_request_spec. unfold verdict.
  destruct (transport _ _) as [c msg| |r]; [done|done|].
  destruct (validator _ _ _); [|done].
  by destruct (500 <=? status r).
Qed.

Lemma proxy_attempt_invocations service inst config w :
  invocations (snd (proxy_attempt service inst config w)) = S (invocations w).
Proof.
  unfold Http.proxy_attempt. rewrite axios_request_spec.
  destruct (transport _ _) as [c msg| |r]; simpl.
  - apply invocations_sent.
  - apply invocations_sent.
  - destruct (validator _ _ _); simpl.
    + destruct (500 <=? status r); simpl; apply invocations_sent.
    + apply invocations_sent.
Qed.

Lemma proxy_attempt_io service inst config w :
  io_only w (snd (proxy_attempt service inst config w)).
Proof.
  unfold Http.proxy_attempt. rewrite axios_request_spec.
  destruct (transport _ _) as [c msg| |r]; simpl.
  - by split.
  - by split.
  - destruct (validator _ _ _); simpl.
    + destruct (500 <=? status r); simpl; by split.
    + by split.
Qed.

(** ** Retrying *)

Section Retry.

Context {A : Type}.
Variable attempt : M A.
Variable onFailedAttempt : JsError -> world -> world.
Variable outcome : nat -> result JsError A.

Hypothesis attempt_outcome : forall w, fst (attempt w) = outcome (invocations w).
Hypothesis attempt_counts : forall w, invocations (snd (attempt w)) = S (invocations w).
Hypothesis hook_counts : forall e w, invocations (onFailedAttempt e w) = invocations w.

(** The attempt fails with an error that is retried. *)
Local Abbreviation retried n := (exists e, outcome n = Throw e /\ aborts e = false).

Lemma operation_ok_after k : forall n errors w a,
  (k <= n)%nat ->
  (forall i, (i < k)%nat -> retried (invocations w + i)) ->
  outcome (invocations w + k) = Ok a ->
  fst (operation errors n onFailedAttempt attempt w) = Ok a /\
  invocations (snd (operation errors n onFailedAttempt attempt w))
  = (invocations w + k + 1)%nat.
Proof.
  induction k as [|k IH]; intros n errors w a Hk Hfail Hok.
  - rewrite Nat.add_0_r in Hok.
    pose proof (attempt_outcome w) as Ho. pose proof (attempt_counts w) as Hc.
    destruct n; simpl; destruct (attempt w) as [[a'|e] w1]; simpl in *;
      rewrite Hok in Ho; try discriminate; inversion Ho; subst; split; auto; lia.
  - destruct n as [|n]; [lia|].
    destruct (Hfail 0%nat) as (e & He & Hab); [lia|]. rewrite Nat.add_0_r in He.
    pose proof (attempt_outcome w) as Ho. pose proof (attempt_counts w) as Hc.
    simpl. destruct (attempt w) as [[a'|e'] w1]; simpl in *.
    { rewrite He in Ho; discriminate. }
    rewrite He in Ho. injection Ho as ->. rewrite Hab.
    assert (Hw1 : invocations (onFailedAttempt e w1) = S (invocations w))
      by (rewrite hook_counts; exact Hc).
    destruct (IH n (errors ++ [e]) (onFailedAttempt e w1) a) as [H1 H2].
    + lia.
    + intros i Hi. rewrite Hw1. replace (S (invocations w) + i)%nat
        with (invocations w + S i)%nat by lia. apply Hfail; lia.
    + rewrite Hw1. replace (S (invocations w) + k)%nat
        with (invocations w + S k)%nat by lia. exact Hok.
    + split; [exact H1|]. rewrite H2, Hw1. lia.
Qed.

Lemma operation_aborted k : forall n errors w e,
  (k <= n)%nat ->
  (forall i, (i < k)%nat -> retried (invocations w + i)) ->
  outcome (invocations w + k) = Throw e ->
  aborts e = true ->
  fst (operation errors n onFailedAttempt attempt w) = Throw e /\
  invocations (snd (operation errors n onFailedAttempt attempt w))
  = (invocations w + k + 1)%nat.
Proof.
  induction k as [|k IH]; intros n errors w e Hk Hfail Hthrow Hab.
  - rewrite Nat.add_0_r in Hthrow.
    pose proof (attempt_outcome w) as Ho. pose proof (attempt_counts w) as Hc.
    destruct n; simpl; destruct (attempt w) as [[a'|e'] w1]; simpl in *;
      rewrite Hthrow in Ho; try discriminate; injection Ho as ->; rewrite Hab;
      simpl; split; auto; lia.
  - destruct n as [|n]; [lia|].
    destruct (Hfail 0%nat) as (e0 & He0 & Hab0); [lia|]. rewrite Nat.add_0_r in He0.
    pose proof (attempt_outcome w) as Ho. pose proof (attempt_counts w) as Hc.
    simpl. destruct (attempt w) as [[a'|e'] w1]; simpl in *.
    { rewrite He0 in Ho; discriminate. }
    rewrite He0 in Ho. injection Ho as ->. rewrite Hab0.
    assert (Hw1 : invocations (onFailedAttempt e0 w1) = S (invocations w))
      by (rewrite hook_counts; exact Hc).
    destruct (IH n (errors ++ [e0]) (onFailedAttempt e0 w1) e) as [H1 H2].
    + lia.
    + intros i Hi. rewrite Hw1. replace (S (invocations w) + i)%nat
        with (invocations w + S i)%nat by lia. apply Hfail; lia.
    + rewrite Hw1. replace (S (invocations w) + k)%nat
        with (invocations w + S k)%nat by lia. exact Hthrow.
    + exact Hab.
    + split; [exact H1|]. rewrite H2, Hw1. lia.
Qed.

Lemma failures_cons start len e :
  outcome start = Throw e ->
  failures outcome start (S len) = e :: failures outcome (S start) len.
Proof. intros H. unfold failures. simpl. by rewrite H. Qed.

Lemma operation_exhausted : forall n errors w,
  (forall i, (i <= n)%nat -> retried (invocations w + i)) ->
  exists m,
    mainError (errors ++ failures outcome (invocations w) (S n)) = Some m /\
    fst (operation errors n onFailedAttempt attempt w) = Throw m /\
    invocations (snd (operation errors n onFailedAttempt attempt w))
    = (invocations w + n + 1)%nat.
Proof.
  induction n as [|n IH]; intros errors w Hfail.
  - destruct (Hfail 0%nat) as (e & He & Hab); [lia|].
    pose proof (attempt_outcome w) as Ho. pose proof (attempt_counts w) as Hc.
    rewrite Nat.add_0_r in *.
    rewrite (failures_cons _ 0 e He). unfold failures at 1. simpl.
    destruct (mainError_spec (errors ++ [e])) as (m & Hm & _);
      [by destruct errors|].
    exists m. split; [done|].
    destruct (attempt w) as [[a'|e'] w1]; simpl in *.
    { rewrite He in Ho; discriminate. }
    rewrite He in Ho. injection Ho as ->. rewrite Hab. simpl.
    rewrite Hm, hook_counts. split; [done|lia].
  - destruct (Hfail 0%nat) as (e & He & Hab); [lia|]. rewrite Nat.add_0_r in He.
    pose proof (attempt_outcome w) as Ho. pose proof (attempt_counts w) as Hc.
    rewrite (failures_cons _ (S n) e He).
    assert (Hstep : operation errors (S n) onFailedAttempt attempt w
                    = operation (errors ++ [e]) n onFailedAttempt attempt
                        (onFailedAttempt e (snd (attempt w)))).
    { simpl. destruct (attempt w) as [[a'|e'] w1]; simpl in *.
      { rewrite He in Ho; discriminate. }
      rewrite He in Ho. injection Ho as ->. by rewrite Hab. }
    assert (Hw1 : invocations (onFailedAttempt e (snd (attempt w))) = S (invocations w))
      by (rewrite hook_counts; exact Hc).
    destruct (IH (errors ++ [e]) (onFailedAttempt e (snd (attempt w)))) as (m & Hm & H1 & H2).
    + intros i Hi. rewrite Hw1. replace (S (invocations w) + i)%nat
        with (invocations w + S i)%nat by lia. apply Hfail; lia.
    + rewrite Hw1 in Hm, H2. rewrite <- app_assoc in Hm. simpl in Hm.
      exists m. rewrite Hstep. split; [exact Hm|]. split; [exact H1|lia].
Qed.

Lemma operation_bounds : forall n errors w,
  (invocations w < invocations (snd (operation errors n onFailedAttempt attempt w)) <=
   invocations w + n + 1)%nat.
Proof.
  induction n as [|n IH]; intros errors w; pose proof (attempt_counts w) as Hc;
    simpl; destruct (attempt w) as [[a'|e'] w1]; simpl in *;
    try destruct (aborts e'); simpl in *.
  - lia.
  - lia.
  - rewrite hook_counts. lia.
  - lia.
  - lia.
  - specialize (IH (errors ++ [e']) (onFailedAttempt e' w1)).
    rewrite hook_counts in IH. lia.
Qed.

(** A retry loop keeps whatever its attempt and its hook keep. *)
Lemma operation_keeps (R : world -> world -> Prop) :
  (forall w, R w w) ->
  (forall w1 w2 w3, R w1 w2 -> R w2 w3 -> R w1 w3) ->
  (forall w, R w (snd (attempt w))) ->
  (forall e w, R w (onFailedAttempt e w)) ->
  forall n errors w, R w (snd (operation errors n onFailedAttempt attempt w)).
Proof.
  intros Hrefl Htrans Hatt Hhook.
  induction n as [|n IH]; intros errors w; pose proof (Hatt w) as Ha;
    simpl; destruct (attempt w) as [[a'|e'] w1]; simpl in *;
    try destruct (aborts e'); simpl in *; eauto.
Qed.

Lemma pRetry_ok_after k n w a :
  (k <= n)%nat ->
  (forall i, (i < k)%nat -> retried (invocations w + i)) ->
  outcome (invocations w + k) = Ok a ->
  fst (pRetry n onFailedAttempt attempt w) = Ok a /\
  invocations (snd (pRetry n onFailedAttempt attempt w)) = (invocations w + k + 1)%nat.
Proof. unfold pRetry. apply operation_ok_after. Qed.

Lemma pRetry_aborted k n w e :
  (k <= n)%nat ->
  (forall i, (i < k)%nat -> retried (invocations w + i)) ->
  outcome (invocations w + k) = Throw e ->
  aborts e = true ->
  fst (pRetry n onFailedAttempt attempt w) = Throw e /\
  invocations (snd (pRetry n onFailedAttempt attempt w)) = (invocations w + k + 1)%nat.
Proof. unfold pRetry. apply operation_aborted. Qed.

Lemma pRetry_exhausted n w :
  (forall i, (i <= n)%nat -> retried (invocations w + i)) ->
  exists m,
    mainError (failures outcome (invocations w) (S n)) = Some m /\
    fst (pRetry n onFailedAttempt attempt w) = Throw m /\
    invocations (snd (pRetry n onFailedAttempt attempt w)) = (invocations w + n + 1)%nat.
Proof. intros H. exact (operation_exhausted n [] w H). Qed.

Lemma pRetry_bounds n w :
  (invocations w < invocations (snd (pRetry n onFailedAttempt attempt w)) <=
   invocations w + n + 1)%nat.
Proof. unfold pRetry. apply operation_bounds. Qed.

Lemma pRetry_keeps (R : world -> world -> Prop) :
  (forall w, R w w) ->
  (forall w1 w2 w3, R w1 w2 -> R w2 w3 -> R w1 w3) ->
  (forall w, R w (snd (attempt w))) ->
  (forall e w, R w (onFailedAttempt e w)) ->
  forall n w, R w (snd (pRetry n onFailedAttempt attempt w)).
Proof. intros H1 H2 H3 H4 n w. unfold pRetry. by apply operation_keeps. Qed.

End Retry.


(** ** Frames of the small steps *)

Lemma io_only_kept w w' : io_only w w' -> breakers_kept w w'.
Proof. intros []; by split. Qed.

Lemma breakers_kept_refl w : breakers_kept w w.
Proof. by split. Qed.

Lemma breakers_kept_trans w1 w2 w3 :
  breakers_kept w1 w2 -> breakers_kept w2 w3 -> breakers_kept w1 w3.
Proof. intros [] []; split; congruence. Qed.

Lemma lookup_breaker_kept t w w' :
  breakers_kept w w' -> lookup_breaker t w' = lookup_breaker t w.
Proof. intros []. destruct t; simpl; congruence. Qed.

Lemma notify_io t evs : forall w, io_only w (notify t evs w).
Proof.
  induction evs as [|ev evs IH]; intros w; simpl; [apply io_only_refl|].
  eapply io_only_trans; [|apply IH]. destruct t, ev; apply io_only_logged.
Qed.

Lemma notify_invocations t evs : forall w, invocations (notify t evs w) = invocations w.
Proof.
  induction evs as [|ev evs IH]; intros w; simpl; [done|].
  rewrite IH. by destruct t, ev.
Qed.

Lemma lookup_store t b w :
  lookup_breaker t (store b w) = if decide (t = owner b) then Some b else lookup_breaker t w.
Proof.
  unfold store. destruct (owner b) as [o|s], t as [o'|s']; simpl;
    try (rewrite lookup_insert); repeat case_decide; congruence.
Qed.

Lemma store_invocations b w : invocations (store b w) = invocations w.
Proof. unfold store. by destruct (owner b). Qed.

Lemma store_allocated b w : allocated (store b w) = allocated w.
Proof. unfold store. by destruct (owner b). Qed.

Lemma inst_ok_store b w : inst_ok w -> inst_ok (store b w).
Proof. unfold store. by destruct (owner b). Qed.

Lemma inst_ok_io w w' : io_only w w' -> inst_ok w -> inst_ok w'.
Proof. intros [H1 _ H2 _ _] [Ha Hb]. split; intros ? ?; rewrite ?H1, ?H2; auto. Qed.


(** ** Actions *)

Lemma getAxiosForHost_spec origin w :
  inst_ok w ->
  fst (getAxiosForHost origin w) = instance_of (Host origin) /\
  inst_ok (snd (getAxiosForHost origin w)) /\
  breakers_kept w (snd (getAxiosForHost origin w)) /\
  invocations (snd (getAxiosForHost origin w)) = invocations w.
Proof.
  intros [Hh Hp]. unfold Http.getAxiosForHost.
  destruct (hostAxiosInstances w !! origin) as [inst|] eqn:E; simpl.
  - repeat split; eauto.
  - repeat split; auto. simpl. intros o i.
    rewrite lookup_insert. case_decide; [intros [= <-]; by subst | apply Hh].
Qed.

Lemma getAxiosInstance_spec service w :
  inst_ok w ->
  fst (getAxiosInstance service w) = instance_of (Service service) /\
  inst_ok (snd (getAxiosInstance service w)) /\
  breakers_kept w (snd (getAxiosInstance service w)) /\
  invocations (snd (getAxiosInstance service w)) = invocations w.
Proof.
  intros [Hh Hp]. unfold Http.getAxiosInstance.
  destruct (proxyAxiosInstances w !! service) as [inst|] eqn:E; simpl.
  - repeat split; eauto.
  - repeat split; auto. simpl. intros o i.
    rewrite lookup_insert. case_decide; [intros [= <-]; by subst | apply Hp].
Qed.

(** An action is a retry loop over the attempts of its target, run
    after the instance getter. *)
Lemma action_unfold t config w :
  inst_ok w ->
  exists (hook : JsError -> world -> world) (attempt : M AxiosResponse) w1,
    action t config w = pRetry (retries_of t) hook attempt w1 /\
    inst_ok w1 /\ breakers_kept w w1 /\ invocations w1 = invocations w /\
    (forall w', fst (attempt w') = attempt_outcome t config (invocations w')) /\
    (forall w', invocations (snd (attempt w')) = S (invocations w')) /\
    (forall w', io_only w' (snd (attempt w'))) /\
    (forall e w', invocations (hook e w') = invocations w') /\
    (forall e w', io_only w' (hook e w')).
Proof.
  intros Hok. destruct t as [origin|service]; simpl.
  - destruct (getAxiosForHost_spec origin w Hok) as (Hi & Hok1 & Hk & Hn).
    unfold Http.host_action. destruct (getAxiosForHost origin w) as [inst w1].
    simpl in *. subst inst.
    exists (fun _ => logged debug "HTTP attempt failed for host" origin),
      (host_attempt (instance_of (Host origin)) config), w1.
    split; [reflexivity|]. do 3 (split; [assumption|]).
    split; [intros w'; by rewrite host_attempt_spec|].
    split; [intros w'; rewrite host_attempt_spec; apply invocations_sent|].
    split; [intros w'; rewrite host_attempt_spec; apply io_only_sent|].
    split; [reflexivity|]. intros e w'. apply io_only_logged.
  - destruct (getAxiosInstance_spec service w Hok) as (Hi & Hok1 & Hk & Hn).
    unfold Http.proxy_action. destruct (getAxiosInstance service w) as [inst w1].
    simpl in *. subst inst.
    exists (fun _ => logged debug "Request attempt failed" service),
      (proxy_attempt service (instance_of (Service service)) config), w1.
    split; [reflexivity|]. do 3 (split; [assumption|]).
    split; [intros w'; by rewrite proxy_attempt_fst|].
    split; [intros w'; apply proxy_attempt_invocations|].
    split; [intros w'; apply proxy_attempt_io|].
    split; [reflexivity|]. intros e w'. apply io_only_logged.
Qed.

Lemma action_keeps t config w :
  inst_ok w ->
  inst_ok (snd (action t config w)) /\ breakers_kept w (snd (action t config w)).
Proof.
  intros Hok.
  destruct (action_unfold t config w Hok)
    as (hook & attempt & w1 & -> & Hok1 & Hk & Hn & Ho & Hc & Hio & Hhc & Hhio).
  assert (Hio' : io_only w1 (snd (pRetry (retries_of t) hook attempt w1))).
  { apply pRetry_keeps; auto using io_only_refl. apply io_only_trans. }
  split.
  - eapply inst_ok_io; eauto.
  - eapply breakers_kept_trans; [exact Hk|]. by apply io_only_kept.
Qed.

Lemma action_ok_after t config k w a :
  inst_ok w ->
  (k <= retries_of t)%nat ->
  (forall i, (i < k)%nat ->
     exists e, attempt_outcome t config (invocations w + i) = Throw e /\ aborts e = false) ->
  attempt_outcome t config (invocations w + k) = Ok a ->
  fst (action t config w) = Ok a /\
  invocations (snd (action t config w)) = (invocations w + k + 1)%nat.
Proof.
  intros Hok Hk Hfail Hsucc.
  destruct (action_unfold t config w Hok)
    as (hook & attempt & w1 & -> & Hok1 & Hkept & Hn & Ho & Hc & Hio & Hhc & Hhio).
  rewrite <- Hn in *.
  eapply (pRetry_ok_after attempt hook (attempt_outcome t config)); eauto.
Qed.

Lemma action_exhausted t config w :
  inst_ok w ->
  (forall i, (i <= retries_of t)%nat ->
     exists e, attempt_outcome t config (invocations w + i) = Throw e /\ aborts e = false) ->
  exists m,
    mainError (failures (attempt_outcome t config) (invocations w) (S (retries_of t)))
      = Some m /\
    fst (action t config w) = Throw m /\
    invocations (snd (action t config w)) = (invocations w + retries_of t + 1)%nat.
Proof.
  intros Hok Hfail.
  destruct (action_unfold t config w Hok)
    as (hook & attempt & w1 & -> & Hok1 & Hkept & Hn & Ho & Hc & Hio & Hhc & Hhio).
  rewrite <- Hn in *.
  exact (pRetry_exhausted attempt hook (attempt_outcome t config) Ho Hc Hhc
           (retries_of t) w1 Hfail).
Qed.

Lemma action_bounds t config w :
  inst_ok w ->
  (invocations w < invocations (snd (action t config w)) <=
   invocations w + retries_of t + 1)%nat.
Proof.
  intros Hok.
  destruct (action_unfold t config w Hok)
    as (hook & attempt & w1 & -> & Hok1 & Hkept & Hn & Ho & Hc & Hio & Hhc & Hhio).
  rewrite <- Hn. eapply pRetry_bounds; eauto.
Qed.


(** ** Firing a breaker *)

Lemma snd_rethrow what name r : snd (rethrow what name r) = snd r.
Proof. destruct r as [[resp|e] w]; simpl; [done|]. by destruct (is_open_breaker e). Qed.

(** Where a fired breaker leaves the registries: only its own slot is
    written, and the object in it is still the same object. *)
Lemma settled_effect b c' evs w0 w1 :
  allocated w1 = allocated w0 ->
  (forall t, t <> owner b -> lookup_breaker t w1 = lookup_breaker t w0) ->
  let w' := notify (owner b) evs (store (with_circuit c' b) w1) in
  allocated w' = allocated w0 /\
  (forall t, t <> owner b -> lookup_breaker t w' = lookup_breaker t w0) /\
  lookup_breaker (owner b) w' = Some (with_circuit c' b).
Proof.
  intros Hal Hoth w'. subst w'.
  pose proof (io_only_kept _ _ (notify_io (owner b) evs (store (with_circuit c' b) w1))) as Hn.
  split; [|split].
  - by rewrite (kept_allocated _ _ Hn), store_allocated.
  - intros t Ht. rewrite (lookup_breaker_kept t _ _ Hn), lookup_store. simpl.
    case_decide; [done|]. by apply Hoth.
  - rewrite (lookup_breaker_kept _ _ _ Hn), lookup_store. simpl. by case_decide.
Qed.

Lemma fire_effect b config w :
  inst_ok w ->
  inst_ok (snd (fire b config w)) /\
  allocated (snd (fire b config w)) = allocated w /\
  (forall t, t <> owner b ->
     lookup_breaker t (snd (fire b config w)) = lookup_breaker t w) /\
  (exists c', lookup_breaker (owner b) (snd (fire b config w)) = Some (with_circuit c' b)).
Proof.
  intros Hok. unfold Http.fire.
  destruct (Opossum.enter (circuit b)) as [c|c]; simpl.
  - split; [by apply inst_ok_store|]. split; [apply store_allocated|]. split.
    + intros t Ht. rewrite lookup_store. simpl. by case_decide.
    + exists c. rewrite lookup_store. simpl. by case_decide.
  - destruct (action_keeps (owner b) config (store (with_circuit c b) w)
                (inst_ok_store _ _ Hok)) as [Hok1 Hk].
    assert (Hal : allocated (snd (action (owner b) config (store (with_circuit c b) w)))
                  = allocated w)
      by (rewrite (kept_allocated _ _ Hk); apply store_allocated).
    assert (Hoth : forall t, t <> owner b ->
              lookup_breaker t (snd (action (owner b) config (store (with_circuit c b) w)))
              = lookup_breaker t w).
    { intros t Ht. rewrite (lookup_breaker_kept t _ _ Hk), lookup_store. simpl.
      by case_decide. }
    destruct (action (owner b) config (store (with_circuit c b) w)) as [[resp|e] w1];
      simpl in *.
    + destruct (Opossum.on_success c) as [c' evs]. simpl.
      destruct (settled_effect b c' evs w w1 Hal Hoth) as (Ha & Hl & Ho).
      split; [|eauto].
      eapply inst_ok_io; [apply notify_io|]. by apply inst_ok_store.
    + destruct (Opossum.on_failure (message e) c) as [c' evs]. simpl.
      destruct (settled_effect b c' evs w w1 Hal Hoth) as (Ha & Hl & Ho).
      split; [|eauto].
      eapply inst_ok_io; [apply notify_io|]. by apply inst_ok_store.
Qed.

(** ** The registry getters *)

Lemma obtain_hit t w b :
  lookup_breaker t w = Some b -> obtain t w = (b, w).
Proof.
  destruct t; simpl; unfold Http.getBreakerForHost, Http.getBreaker; by intros ->.
Qed.

Lemma obtain_miss t w :
  lookup_breaker t w = None ->
  exists o, obtain t w =
    let b := {| uid := allocated w; owner := t; circuit := Opossum.create o |} in
    (b, set_allocated (S (allocated w)) (store b w)).
Proof.
  destruct t; simpl; unfold Http.getBreakerForHost, Http.getBreaker; intros ->; eauto.
Qed.

Lemma wf_step w w' t b b' :
  wf w ->
  lookup_breaker t w = Some b ->
  lookup_breaker t w' = Some b' ->
  uid b' = uid b -> owner b' = owner b ->
  (forall t', t' <> t -> lookup_breaker t' w' = lookup_breaker t' w) ->
  allocated w' = allocated w ->
  inst_ok w' ->
  wf w'.
Proof.
  intros [Ho Hf Hd Hi] Hb Hb' Hu Hown Hoth Hal Hok.
  assert (Hsame : forall t1 b1, lookup_breaker t1 w' = Some b1 ->
            exists b0, lookup_breaker t1 w = Some b0 /\ uid b1 = uid b0 /\ owner b1 = owner b0).
  { intros t1 b1 H1. destruct (decide (t1 = t)) as [->|Hne].
    - rewrite Hb' in H1. injection H1 as <-. eauto.
    - rewrite Hoth in H1 by done. eauto. }
  split; [| | |done].
  - intros t1 b1 H1. destruct (Hsame _ _ H1) as (b0 & H0 & _ & ->). eauto.
  - intros t1 b1 H1. destruct (Hsame _ _ H1) as (b0 & H0 & -> & _). rewrite Hal. eauto.
  - intros t1 t2 b1 b2 H1 H2 Hu12.
    destruct (Hsame _ _ H1) as (b01 & H01 & Hu1 & _).
    destruct (Hsame _ _ H2) as (b02 & H02 & Hu2 & _).
    eapply Hd; eauto. congruence.
Qed.

Lemma obtain_spec t w :
  wf w ->
  wf (snd (obtain t w)) /\
  lookup_breaker t (snd (obtain t w)) = Some (fst (obtain t w)) /\
  (forall t', t' <> t ->
     lookup_breaker t' (snd (obtain t w)) = lookup_breaker t' w) /\
  invocations (snd (obtain t w)) = invocations w /\
  (forall b0, lookup_breaker t w = Some b0 -> obtain t w = (b0, w)) /\
  (lookup_breaker t w = None ->
     Opossum.status (circuit (fst (obtain t w))) = Opossum.CLOSED).
Proof.
  intros Hwf. destruct (lookup_breaker t w) as [b|] eqn:E.
  - rewrite (obtain_hit _ _ _ E). simpl. repeat split; auto; try apply Hwf.
    + intros b0 [= <-]. done.
    + done.
  - destruct (obtain_miss _ _ E) as [o ->]. simpl.
    set (b := {| uid := allocated w; owner := t; circuit := Opossum.create o |}).
    assert (Hl : forall t', lookup_breaker t' (set_allocated (S (allocated w)) (store b w))
                   = if decide (t' = t) then Some b else lookup_breaker t' w).
    { intros t'. transitivity (lookup_breaker t' (store b w));
        [by destruct t' | apply lookup_store]. }
    destruct Hwf as [Ho Hf Hd Hi].
    split; [split|].
    + intros t1 b1. rewrite Hl. case_decide; [intros [= <-]; by subst|apply Ho].
    + intros t1 b1. rewrite Hl. simpl. case_decide.
      * intros [= <-]. simpl. lia.
      * intros H1. specialize (Hf _ _ H1). lia.
    + intros t1 t2 b1 b2. rewrite !Hl. repeat case_decide; subst.
      * done.
      * intros [= <-] H2 Hu. specialize (Hf _ _ H2). simpl in Hu. lia.
      * intros H1 [= <-] Hu. specialize (Hf _ _ H1). simpl in Hu. lia.
      * apply Hd.
    + exact (inst_ok_store b w Hi).
    + split; [rewrite Hl; by case_decide|].
      split; [intros t' Hne; rewrite Hl; by case_decide|].
      split; [apply (store_invocations b w)|].
      split; [intros b0 [=]|done].
Qed.


(** ** The invariant along a run *)

Lemma wf_io w w' : io_only w w' -> wf w -> wf w'.
Proof.
  intros Hio [Ho Hf Hd Hi].
  pose proof (io_only_kept _ _ Hio) as Hk.
  split.
  - intros t b. rewrite (lookup_breaker_kept t _ _ Hk). apply Ho.
  - intros t b. rewrite (lookup_breaker_kept t _ _ Hk), (kept_allocated _ _ Hk). apply Hf.
  - intros t1 t2 b1 b2. rewrite !(lookup_breaker_kept _ _ _ Hk). apply Hd.
  - by eapply inst_ok_io.
Qed.

Lemma wf_init : wf init.
Proof.
  split.
  - intros [o|s] b; simpl; by rewrite lookup_empty.
  - intros [o|s] b; simpl; by rewrite lookup_empty.
  - intros [o|s] t2 b1 b2; simpl; by rewrite lookup_empty.
  - split; intros k i; simpl; by rewrite lookup_empty.
Qed.

Lemma httpRequest_on_target opts t w :
  target_of opts = Some t ->
  httpRequest opts w =
    rethrow (match t with Host _ => "host" | Service _ => "service" end)
            (match t with Host o => o | Service s => s end)
            (fire (fst (obtain t w)) opts (snd (obtain t w))).
Proof.
  unfold Http.target_of, Http.httpRequest.
  destruct (given (serviceName opts)) as [s|].
  - intros [= <-]. simpl. unfold Http.proxy_request. by destruct (getBreaker s w).
  - destruct (given (url opts)) as [u|]; [|done]. simpl.
    destruct (negb (truthy (getOriginFromUrl u))); [done|].
    intros [= <-]. simpl. by destruct (getBreakerForHost (getOriginFromUrl u) w).
Qed.

Lemma httpRequest_off_target opts w :
  target_of opts = None ->
  httpRequest opts w = (Throw url_required_error, w) \/
  httpRequest opts w = pRetry DEFAULT_RETRIES (fun _ w' => w') (direct_attempt opts) w.
Proof.
  unfold Http.target_of, Http.httpRequest.
  destruct (given (serviceName opts)) as [s|]; [done|].
  destruct (given (url opts)) as [u|]; [|by left]. simpl.
  destruct (negb (truthy (getOriginFromUrl u))); [by right|done].
Qed.

Lemma direct_retry_io opts n w :
  io_only w (snd (pRetry n (fun _ w' => w') (direct_attempt opts) w)).
Proof.
  apply pRetry_keeps; auto using io_only_refl.
  - apply io_only_trans.
  - intros w'. rewrite direct_attempt_spec. apply io_only_sent.
Qed.

Lemma httpRequest_wf opts w : wf w -> wf (snd (httpRequest opts w)).
Proof.
  intros Hwf. destruct (target_of opts) as [t|] eqn:Et.
  - rewrite (httpRequest_on_target _ _ _ Et), snd_rethrow.
    destruct (obtain_spec t w Hwf) as (Hwf1 & Hl & _).
    destruct (obtain t w) as [b w1]. simpl in *.
    pose proof (wf_owner _ _ _ Hwf1 _ _ Hl) as Hown.
    destruct (fire_effect b opts w1 (wf_inst _ _ _ Hwf1)) as (Hi & Ha & Hoth & c' & Hc').
    rewrite Hown in *.
    eapply (wf_step w1 _ t b (with_circuit c' b)); eauto.
  - destruct (httpRequest_off_target opts w Et) as [-> | ->]; [done|].
    eapply wf_io; [apply direct_retry_io|done].
Qed.

Lemma reset_timer_wf t w : wf w -> wf (reset_timer t w).
Proof.
  intros Hwf. unfold Http.reset_timer.
  destruct (lookup_breaker t w) as [b|] eqn:E; [|done].
  pose proof (wf_owner _ _ _ Hwf _ _ E) as Hown.
  destruct (Opossum.reset_elapsed (circuit b)) as [c evs].
  rewrite <- Hown.
  destruct (settled_effect b c evs w w eq_refl (fun _ _ => eq_refl)) as (Ha & Hl & Ho).
  rewrite Hown in *.
  eapply (wf_step w _ t b (with_circuit c b)); eauto.
  eapply inst_ok_io; [apply notify_io|]. apply inst_ok_store, Hwf.
Qed.

Lemma window_timer_wf t w : wf w -> wf (window_timer t w).
Proof.
  intros Hwf. unfold Http.window_timer.
  destruct (lookup_breaker t w) as [b|] eqn:E; [|done].
  pose proof (wf_owner _ _ _ Hwf _ _ E) as Hown.
  set (b' := with_circuit (Opossum.window_elapsed (circuit b)) b).
  eapply (wf_step w _ t b b'); eauto.
  - rewrite lookup_store. simpl. rewrite Hown. by case_decide.
  - intros t' Hne. rewrite lookup_store. simpl. rewrite Hown. by case_decide.
  - apply store_allocated.
  - apply inst_ok_store, Hwf.
Qed.

Lemma reachable_wf w : reachable w -> wf w.
Proof.
  induction 1; auto using wf_init, httpRequest_wf, reset_timer_wf, window_timer_wf.
Qed.


(** ** Calls on a breaker path *)

Lemma enter_not_open b :
  Opossum.status b <> Opossum.OPEN ->
  Opossum.enter b = Opossum.Entered (Opossum.with_stats Opossum.count_fire b).
Proof. unfold Opossum.enter. by destruct (Opossum.status b). Qed.

Lemma on_success_closed c :
  Opossum.status c <> Opossum.OPEN ->
  Opossum.status (fst (Opossum.on_success c)) = Opossum.CLOSED.
Proof.
  intros H. unfold Opossum.on_success. simpl.
  destruct (Opossum.status c) eqn:E; simpl; congruence.
Qed.

(** While the breaker of the target is not open, a call whose first
    [k] attempts fail and whose next attempt succeeds resolves with
    that success after [k + 1] transport invocations, and leaves the
    breaker closed. *)
Lemma breaker_path_ok_after t k opts a w :
  wf w ->
  target_of opts = Some t ->
  (forall b, lookup_breaker t w = Some b -> Opossum.status (circuit b) <> Opossum.OPEN) ->
  (k <= retries_of t)%nat ->
  (forall i, (i < k)%nat ->
     exists e, attempt_outcome t opts (invocations w + i) = Throw e /\ aborts e = false) ->
  attempt_outcome t opts (invocations w + k) = Ok a ->
  exists w', httpRequest opts w = (Ok a, w') /\
    invocations w' = (invocations w + k + 1)%nat /\
    exists b', lookup_breaker t w' = Some b' /\
      Opossum.status (circuit b') = Opossum.CLOSED.
Proof.
  intros Hwf Ht Hopen Hk Hfail Hsucc.
  rewrite (httpRequest_on_target _ _ _ Ht).
  destruct (obtain_spec t w Hwf) as (Hwf1 & Hl & _ & Hn & Hhit & Hmiss).
  assert (Hst : Opossum.status (circuit (fst (obtain t w))) <> Opossum.OPEN).
  { destruct (lookup_breaker t w) as [b0|] eqn:E.
    - rewrite (Hhit b0 eq_refl). simpl. by apply Hopen.
    - by rewrite Hmiss. }
  destruct (obtain t w) as [b w1]. simpl in *.
  pose proof (wf_owner _ _ _ Hwf1 _ _ Hl) as Hown.
  unfold Http.fire. rewrite (enter_not_open _ Hst).
  set (c := Opossum.with_stats Opossum.count_fire (circuit b)).
  assert (Hc : Opossum.status c <> Opossum.OPEN) by done.
  destruct (action_ok_after (owner b) opts k (store (with_circuit c b) w1) a)
    as [Hfst Hinv].
  - apply inst_ok_store, Hwf1.
  - by rewrite Hown.
  - intros i Hi. rewrite store_invocations, Hn, Hown. by apply Hfail.
  - by rewrite store_invocations, Hn, Hown.
  - destruct (action (owner b) opts (store (with_circuit c b) w1)) as [[resp|e] w2];
      simpl in *; [|discriminate]. injection Hfst as ->.
    pose proof (on_success_closed c Hc) as Hcl.
    destruct (Opossum.on_success c) as [c' evs]. simpl in *.
    eexists. split; [reflexivity|]. split.
    + rewrite notify_invocations, store_invocations, Hinv, store_invocations. lia.
    + exists (with_circuit c' b). split; [|done].
      rewrite (lookup_breaker_kept _ _ _ (io_only_kept _ _ (notify_io _ _ _))).
      rewrite lookup_store. simpl. rewrite Hown. by case_decide.
Qed.

(** A call made against one target leaves the breaker of every other
    target exactly as it was. *)
Lemma httpRequest_other_target opts t w :
  wf w ->
  target_of opts <> Some t ->
  lookup_breaker t (snd (httpRequest opts w)) = lookup_breaker t w.
Proof.
  intros Hwf Hne. destruct (target_of opts) as [t0|] eqn:Et.
  - assert (Hne' : t <> t0) by congruence.
    rewrite (httpRequest_on_target _ _ _ Et), snd_rethrow.
    destruct (obtain_spec t0 w Hwf) as (Hwf1 & Hl & Hoth & _).
    destruct (obtain t0 w) as [b w1]. simpl in *.
    pose proof (wf_owner _ _ _ Hwf1 _ _ Hl) as Hown.
    destruct (fire_effect b opts w1 (wf_inst _ _ _ Hwf1)) as (_ & _ & Hf & _).
    rewrite Hf by congruence. by apply Hoth.
  - destruct (httpRequest_off_target opts w Et) as [-> | ->]; [done|].
    apply lookup_breaker_kept, io_only_kept, direct_retry_io.
Qed.

(** A registered breaker stays registered, as the same object, under
    the same key. *)
Lemma httpRequest_same_instance opts t b w :
  wf w ->
  lookup_breaker t w = Some b ->
  exists b', lookup_breaker t (snd (httpRequest opts w)) = Some b' /\ uid b' = uid b.
Proof.
  intros Hwf Hb. destruct (decide (target_of opts = Some t)) as [Et|Hne].
  - rewrite (httpRequest_on_target _ _ _ Et), snd_rethrow.
    destruct (obtain_spec t w Hwf) as (Hwf1 & _ & _ & _ & Hhit & _).
    rewrite (Hhit b Hb) in *. simpl in *.
    pose proof (wf_owner _ _ _ Hwf _ _ Hb) as Hown.
    destruct (fire_effect b opts w (wf_inst _ _ _ Hwf)) as (_ & _ & _ & c' & Hc').
    rewrite Hown in Hc'. eauto.
  - rewrite (httpRequest_other_target _ _ _ Hwf Hne). eauto.
Qed.

Lemma getBreakerStates_lookup w o :
  getBreakerStates w !! o =
    (fun b => Opossum.state_name (circuit b)) <$> lookup_breaker (Host o) w.
Proof. unfold Http.getBreakerStates. simpl. apply lookup_fmap. Qed.


Lemma target_of_url opts u :
  given (serviceName opts) = None ->
  given (url opts) = Some u ->
  truthy (getOriginFromUrl u) = true ->
  target_of opts = Some (Host (getOriginFromUrl u)).
Proof. unfold Http.target_of. by intros -> -> ->. Qed.

Lemma target_of_relative opts u :
  given (serviceName opts) = None ->
  given (url opts) = Some u ->
  new_URL_origin u = None ->
  target_of opts = None /\
  httpRequest opts = pRetry DEFAULT_RETRIES (fun _ w' => w') (direct_attempt opts).
Proof.
  unfold Http.target_of, Http.httpRequest, Http.getOriginFromUrl. by intros -> -> ->.
Qed.

(** On both breaker paths a response below 500 is returned at once. *)
Lemma breaker_path_client_error_not_retried t opts r w :
  wf w ->
  target_of opts = Some t ->
  validateStatus opts = None ->
  (forall b, lookup_breaker t w = Some b -> Opossum.status (circuit b) <> Opossum.OPEN) ->
  transport (invocations w) (merged (instance_of t) opts) = Reply r ->
  status r < 500 ->
  exists w', httpRequest opts w = (Ok r, w') /\ invocations w' = S (invocations w).
Proof.
  intros Hwf Ht Hv Hopen Hr Hlt.
  destruct (breaker_path_ok_after t 0 opts r w Hwf Ht Hopen) as (w' & H1 & H2 & _).
  - lia.
  - intros i Hi. lia.
  - unfold Http.attempt_outcome, validator. rewrite Nat.add_0_r, Hr, Hv. simpl.
    assert (Hi : inst_validateStatus (instance_of t) (status r) = true) by by destruct t.
    rewrite Hi. destruct (500 <=? status r) eqn:E; [lia|done].
  - exists w'. split; [done|lia].
Qed.

(** C1: a call by absolute URL whose first [k] attempts are answered
    5xx (with [k] within the retry budget) and whose next attempt is
    answered below 500 resolves with that answer after exactly [k + 1]
    transport invocations, the breaker of the origin being closed
    afterwards; [k = 1] is the 500-200 case with two invocations and
    [k = 2] the 500-500-200 case with three. *)
Theorem httpRequest_retries_then_succeeds (k : nat) opts u r w :
  reachable w ->
  given (serviceName opts) = None ->
  given (url opts) = Some u ->
  truthy (getOriginFromUrl u) = true ->
  validateStatus opts = None ->
  (forall b, hostBreakers w !! getOriginFromUrl u = Some b ->
     Opossum.status (circuit b) <> Opossum.OPEN) ->
  (k <= DEFAULT_RETRIES)%nat ->
  (forall i, (i < k)%nat -> exists ri,
     transport (invocations w + i)
       (merged (axios_create (Some (getOriginFromUrl u)) DEFAULT_TIMEOUT) opts) = Reply ri /\
     500 <= status ri) ->
  transport (invocations w + k)
    (merged (axios_create (Some (getOriginFromUrl u)) DEFAULT_TIMEOUT) opts) = Reply r ->
  status r < 500 ->
  exists w', httpRequest opts w = (Ok r, w') /\
    invocations w' = (invocations w + k + 1)%nat /\
    getBreakerStates w' !! getOriginFromUrl u = Some "closed".
Proof.
  intros Hre Hs Hu Ho Hv Hopen Hk Hfail Hr Hlt.
  pose proof (target_of_url _ _ Hs Hu Ho) as Ht.
  destruct (breaker_path_ok_after (Host (getOriginFromUrl u)) k opts r w)
    as (w' & H1 & H2 & b' & Hb' & Hcl); auto using reachable_wf.
  - intros i Hi. destruct (Hfail i Hi) as (ri & Hri & Hge).
    unfold Http.attempt_outcome, validator. simpl. rewrite Hri, Hv. simpl.
    destruct (500 <=? status ri) eqn:E; [eauto|lia].
  - unfold Http.attempt_outcome, validator. simpl. rewrite Hr, Hv. simpl.
    destruct (500 <=? status r) eqn:E; [lia|done].
  - exists w'. split; [done|]. split; [done|].
    rewrite getBreakerStates_lookup, Hb'. simpl.
    unfold Opossum.state_name, Opossum.opened, Opossum.halfOpen. by rewrite Hcl.
Qed.

(** C2: on the fallback path a client-error response is not returned:
    axios rejects it, every retry is spent on it, and the call throws. *)
Theorem fallback_retries_client_error opts u r w :
  given (serviceName opts) = None ->
  given (url opts) = Some u ->
  new_URL_origin u = None ->
  validateStatus opts = None ->
  (forall n req, transport n req = Reply r) ->
  400 <= status r < 500 ->
  fst (httpRequest opts w) = Throw (bad_status_error r) /\
  invocations (snd (httpRequest opts w)) = (invocations w + DEFAULT_RETRIES + 1)%nat.
Proof.
  intros Hs Hu Ho Hv Hr Hst.
  destruct (target_of_relative _ _ Hs Hu Ho) as [_ ->].
  assert (Hout : forall n, direct_outcome opts n = Throw (bad_status_error r)).
  { intros n. unfold Http.direct_outcome, validator. rewrite Hr. simpl. rewrite Hv. simpl.
    destruct (200 <=? status r) eqn:E1; destruct (status r <? 300) eqn:E2; simpl; try done.
    lia. }
  destruct (pRetry_exhausted (direct_attempt opts) (fun _ w' => w') (direct_outcome opts))
    with (n := DEFAULT_RETRIES) (w := w) as (m & Hm & H1 & H2).
  - intros w'. by rewrite direct_attempt_spec.
  - intros w'. rewrite direct_attempt_spec. apply invocations_sent.
  - done.
  - intros i _. rewrite Hout. eauto.
  - split; [|exact H2]. rewrite H1. f_equal.
    destruct (mainError_spec (failures (direct_outcome opts) (invocations w)
                                (S DEFAULT_RETRIES))) as (m' & Hm' & Hin & _).
    + rewrite (failures_map _ _ _ (fun _ => bad_status_error r)) by (intros; apply Hout).
      done.
    + rewrite Hm in Hm'. injection Hm' as <-.
      apply failures_in in Hin as (i & _ & Hi). rewrite Hout in Hi. by injection Hi.
Qed.

(** C4: a call with a URL that has no origin goes through [pRetry]
    over the global axios instance, with the retry budget of the
    per-origin pipelines, and through no breaker: both breaker
    registries, every breaker in them, the allocation count and the
    snapshot of their states are left as they were.  The call makes
    between one and [DEFAULT_RETRIES + 1] attempts.  An attempt that
    succeeds after [k] retried failures ends it with that result; a
    [TypeError] of the adapter ends it at once with that error; when
    every attempt fails with an error that is retried, it rejects
    with the main error of the operation after
    [DEFAULT_RETRIES + 1] attempts.  Under the adapter of Node a call
    that gives no base URL meets the [TypeError] at its first attempt:
    it throws Invalid URL after one attempt. *)
Theorem httpRequest_relative_url_bypasses_breakers opts u w :
  given (serviceName opts) = None ->
  given (url opts) = Some u ->
  new_URL_origin u = None ->
  hostBreakers (snd (httpRequest opts w)) = hostBreakers w /\
  proxyBreakers (snd (httpRequest opts w)) = proxyBreakers w /\
  allocated (snd (httpRequest opts w)) = allocated w /\
  getBreakerStates (snd (httpRequest opts w)) = getBreakerStates w /\
  (invocations w < invocations (snd (httpRequest opts w))
     <= invocations w + DEFAULT_RETRIES + 1)%nat /\
  (forall k a, (k <= DEFAULT_RETRIES)%nat ->
     (forall i, (i < k)%nat ->
        exists e, direct_outcome opts (invocations w + i) = Throw e /\ aborts e = false) ->
     direct_outcome opts (invocations w + k) = Ok a ->
     fst (httpRequest opts w) = Ok a /\
     invocations (snd (httpRequest opts w)) = (invocations w + k + 1)%nat) /\
  (forall k e, (k <= DEFAULT_RETRIES)%nat ->
     (forall i, (i < k)%nat ->
        exists e', direct_outcome opts (invocations w + i) = Throw e' /\ aborts e' = false) ->
     direct_outcome opts (invocations w + k) = Throw e ->
     aborts e = true ->
     fst (httpRequest opts w) = Throw e /\
     invocations (snd (httpRequest opts w)) = (invocations w + k + 1)%nat) /\
  ((forall i, (i <= DEFAULT_RETRIES)%nat ->
      exists e, direct_outcome opts (invocations w + i) = Throw e /\ aborts e = false) ->
   exists m,
     mainError (failures (direct_outcome opts) (invocations w) (S DEFAULT_RETRIES)) = Some m /\
     fst (httpRequest opts w) = Throw m /\
     invocations (snd (httpRequest opts w)) = (invocations w + DEFAULT_RETRIES + 1)%nat) /\
  (node_adapter -> given (baseURL opts) = None ->
   httpRequest opts w
   = (Throw invalid_url_error, sent (merged axios (with_timeout DEFAULT_TIMEOUT opts)) w) /\
   invocations (snd (httpRequest opts w)) = S (invocations w)).
Proof.
  intros Hs Hu Ho.
  destruct (target_of_relative _ _ Hs Hu Ho) as [_ ->].
  pose proof (direct_retry_io opts DEFAULT_RETRIES w) as [_ Hh _ Hp Ha].
  assert (Ho1 : forall w', fst (direct_attempt opts w') = direct_outcome opts (invocations w'))
    by (intros w'; by rewrite direct_attempt_spec).
  assert (Ho2 : forall w', invocations (snd (direct_attempt opts w')) = S (invocations w'))
    by (intros w'; rewrite direct_attempt_spec; apply invocations_sent).
  split; [done|]. split; [done|]. split; [done|].
  split; [unfold Http.getBreakerStates; by rewrite Hh|].
  split; [eapply pRetry_bounds; eauto|].
  split; [|split; [|split]].
  - intros k a Hk Hfail Hok.
    eapply (pRetry_ok_after (direct_attempt opts) _ (direct_outcome opts)); eauto.
  - intros k e Hk Hfail Hthrow Hab.
    eapply (pRetry_aborted (direct_attempt opts) _ (direct_outcome opts)); eauto.
  - intros Hfail.
    exact (pRetry_exhausted (direct_attempt opts) (fun _ w' => w') (direct_outcome opts)
             Ho1 Ho2 ltac:(done) DEFAULT_RETRIES w Hfail).
  - intros Hnode Hbase.
    assert (Hatt : direct_attempt opts w
                   = (Throw invalid_url_error,
                      sent (merged axios (with_timeout DEFAULT_TIMEOUT opts)) w)).
    { rewrite direct_attempt_spec. unfold verdict. rewrite Hnode; [done|].
      unfold Http.unparsable, merged. simpl.
      apply JsFacts.given_Some in Hu as [-> _]. rewrite Ho.
      destruct (baseURL opts) as [b|]; [by rewrite Hbase|done]. }
    assert (Hrun : pRetry DEFAULT_RETRIES (fun _ w' => w') (direct_attempt opts) w
                   = (Throw invalid_url_error,
                      sent (merged axios (with_timeout DEFAULT_TIMEOUT opts)) w)).
    { unfold pRetry. destruct DEFAULT_RETRIES; simpl; by rewrite Hatt. }
    rewrite Hrun. split; [done|]. apply invocations_sent.
Qed.

(** C10: with neither a service name nor a url the call throws the
    url-required error and the state is the one it started from: no
    breaker was created or fired and the transport was not invoked. *)
Theorem httpRequest_requires_url opts w :
  given (serviceName opts) = None ->
  given (url opts) = None ->
  httpRequest opts w = (Throw url_required_error, w) /\
  message url_required_error = "httpRequest requires url when serviceName is not provided".
Proof. unfold Http.httpRequest. by intros -> ->. Qed.

(** C3: in every state the process can reach, asking a registry twice
    for the same identity returns the same breaker object and a call
    leaves registered objects in place; breakers registered under
    different identities are different objects; and a call leaves the
    breaker of every identity other than its own target untouched, so
    the observable state of another origin cannot change. *)
Theorem breaker_registry_isolation w :
  reachable w ->
  (forall origin,
     getBreakerForHost origin (snd (getBreakerForHost origin w)) = getBreakerForHost origin w) /\
  (forall service,
     getBreaker service (snd (getBreaker service w)) = getBreaker service w) /\
  (forall opts t b, lookup_breaker t w = Some b ->
     exists b', lookup_breaker t (snd (httpRequest opts w)) = Some b' /\ uid b' = uid b) /\
  (forall t1 t2 b1 b2, t1 <> t2 ->
     lookup_breaker t1 w = Some b1 -> lookup_breaker t2 w = Some b2 -> uid b1 <> uid b2) /\
  (forall opts t, target_of opts <> Some t ->
     lookup_breaker t (snd (httpRequest opts w)) = lookup_breaker t w) /\
  (forall opts origin, target_of opts <> Some (Host origin) ->
     getBreakerStates (snd (httpRequest opts w)) !! origin = getBreakerStates w !! origin).
Proof.
  intros Hre. pose proof (reachable_wf w Hre) as Hwf.
  assert (Hsame : forall t, obtain t (snd (obtain t w)) = obtain t w).
  { intros t. destruct (obtain_spec t w Hwf) as (_ & Hl & _).
    rewrite (obtain_hit _ _ _ Hl). by destruct (obtain t w). }
  split; [intros o; apply (Hsame (Host o))|].
  split; [intros s; apply (Hsame (Service s))|].
  split; [intros opts t b; by apply httpRequest_same_instance|].
  split; [intros t1 t2 b1 b2 Hne H1 H2 Hu; apply Hne; eapply wf_distinct; eauto|].
  split; [intros opts t; by apply httpRequest_other_target|].
  intros opts o Hne. rewrite !getBreakerStates_lookup.
  by rewrite httpRequest_other_target.
Qed.

(** C9 (as amended): the snapshot has exactly one entry per origin that
    has a per-origin breaker, holding the name of the state of that
    breaker; names under which only a service breaker exists have no
    entry. *)
Theorem getBreakerStates_snapshot w :
  (forall origin b, hostBreakers w !! origin = Some b ->
     getBreakerStates w !! origin =
       Some (match Opossum.status (circuit b) with
             | Opossum.OPEN => "open"
             | Opossum.HALF_OPEN => "halfOpen"
             | Opossum.CLOSED => "closed"
             end)) /\
  (forall name, hostBreakers w !! name = None -> getBreakerStates w !! name = None).
Proof.
  split.
  - intros o b Hb. rewrite getBreakerStates_lookup. simpl. rewrite Hb. simpl.
    unfold Opossum.state_name, Opossum.opened, Opossum.halfOpen.
    by destruct (Opossum.status (circuit b)).
  - intros n Hn. rewrite getBreakerStates_lookup. simpl. by rewrite Hn.
Qed.

(** ** Further properties of the client *)

Lemma wire_notify t evs : forall w, wire (notify t evs w) = wire w.
Proof.
  induction evs as [|ev evs IH]; intros w; simpl; [done|].
  rewrite IH. by destruct t, ev.
Qed.

Lemma wire_store b w : wire (store b w) = wire w.
Proof. unfold store. by destruct (owner b). Qed.

Lemma wire_obtain t w : wire (snd (obtain t w)) = wire w.
Proof.
  destruct (lookup_breaker t w) as [b|] eqn:E.
  - by rewrite (obtain_hit _ _ _ E).
  - destruct (obtain_miss _ _ E) as [o ->]. simpl. apply wire_store.
Qed.

Lemma allocated_obtain t w :
  allocated (snd (obtain t w)) =
    match lookup_breaker t w with
    | Some _ => allocated w
    | None => S (allocated w)
    end.
Proof.
  destruct (lookup_breaker t w) as [b|] eqn:E.
  - by rewrite (obtain_hit _ _ _ E).
  - by destruct (obtain_miss _ _ E) as [o ->].
Qed.

(** A retry loop whose attempt sends [req] appends copies of [req] to
    the wire and nothing else. *)
Lemma pRetry_wire {A : Type} (attempt : M A) hook req :
  (forall w, wire (snd (attempt w)) = wire w ++ [req]) ->
  (forall e w, wire (hook e w) = wire w) ->
  forall n w, exists m, wire (snd (pRetry n hook attempt w)) = wire w ++ replicate m req.
Proof.
  intros Ha Hh.
  apply (pRetry_keeps attempt hook
           (fun w w' => exists m, wire w' = wire w ++ replicate m req)).
  - intros w. exists 0%nat. simpl. by rewrite app_nil_r.
  - intros w1 w2 w3 [m1 H1] [m2 H2]. exists (m1 + m2)%nat.
    by rewrite H2, H1, <- app_assoc, replicate_add.
  - intros w. exists 1%nat. apply Ha.
  - intros e w. exists 0%nat. simpl. by rewrite app_nil_r, Hh.
Qed.

Lemma wire_proxy_attempt service inst config w :
  wire (snd (proxy_attempt service inst config w)) = wire w ++ [merged inst config].
Proof.
  unfold Http.proxy_attempt. rewrite axios_request_spec.
  destruct (transport _ _) as [c msg| |r]; simpl; [done|done|].
  destruct (validator _ _ _); simpl; [|done].
  by destruct (500 <=? status r).
Qed.

Lemma action_wire t config w :
  inst_ok w ->
  exists m, wire (snd (action t config w)) =
            wire w ++ replicate m (merged (instance_of t) config).
Proof.
  intros Hok. destruct t as [origin|service]; simpl.
  - destruct (getAxiosForHost_spec origin w Hok) as (Hi & _).
    unfold Http.host_action.
    assert (Hw : wire (snd (getAxiosForHost origin w)) = wire w).
    { unfold Http.getAxiosForHost. by destruct (hostAxiosInstances w !! origin). }
    destruct (getAxiosForHost origin w) as [inst w1]. simpl in Hi, Hw. subst inst.
    rewrite <- Hw.
    apply (pRetry_wire (host_attempt (instance_of (Host origin)) config)
             (fun _ => logged debug "HTTP attempt failed for host" origin)
             (merged (instance_of (Host origin)) config)); [|done].
    intros w'. by rewrite host_attempt_spec.
  - destruct (getAxiosInstance_spec service w Hok) as (Hi & _).
    unfold Http.proxy_action.
    assert (Hw : wire (snd (getAxiosInstance service w)) = wire w).
    { unfold Http.getAxiosInstance. by destruct (proxyAxiosInstances w !! service). }
    destruct (getAxiosInstance service w) as [inst w1]. simpl in Hi, Hw. subst inst.
    rewrite <- Hw.
    apply (pRetry_wire (proxy_attempt service (instance_of (Service service)) config)
             (fun _ => logged debug "Request attempt failed" service)
             (merged (instance_of (Service service)) config)); [|done].
    intros w'. apply wire_proxy_attempt.
Qed.

Lemma fire_open b config w :
  Opossum.status (circuit b) = Opossum.OPEN ->
  fire b config w =
    (Throw open_breaker_error,
     store (with_circuit
              (Opossum.with_stats Opossum.count_reject
                 (Opossum.with_stats Opossum.count_fire (circuit b))) b) w).
Proof. intros H. unfold Http.fire, Opossum.enter. by rewrite H. Qed.

(** What a call on a breaker path does when the breaker is open. *)
Lemma breaker_path_rejected t opts b w :
  wf w ->
  target_of opts = Some t ->
  lookup_breaker t w = Some b ->
  Opossum.status (circuit b) = Opossum.OPEN ->
  httpRequest opts w =
    (Throw (match t with
            | Host origin => circuit_open_error "host" origin
            | Service service => circuit_open_error "service" service
            end),
     store (with_circuit
              (Opossum.with_stats Opossum.count_reject
                 (Opossum.with_stats Opossum.count_fire (circuit b))) b) w).
Proof.
  intros Hwf Ht Hb Hopen.
  rewrite (httpRequest_on_target _ _ _ Ht), (obtain_hit _ _ _ Hb). simpl.
  rewrite (fire_open _ _ _ Hopen). simpl. by destruct t.
Qed.

Lemma http_error_retried resp attach :
  aborts (http_error resp attach) = false /\ is_open_breaker (http_error resp attach) = false.
Proof. done. Qed.

(** What a call on a breaker path does when every attempt is answered
    5xx: the main error of the operation is thrown, and the breaker it
    went through has taken the failure into account. *)
Lemma breaker_path_exhausted t opts (answers : nat -> AxiosResponse) w :
  wf w ->
  target_of opts = Some t ->
  (forall b, lookup_breaker t w = Some b -> Opossum.status (circuit b) <> Opossum.OPEN) ->
  (forall i, (i <= retries_of t)%nat ->
     attempt_outcome t opts (invocations w + i) = Throw (http_error (answers i) true)) ->
  exists e w2,
    mainError (List.map (fun i => http_error (answers i) true) (seq 0 (S (retries_of t))))
      = Some e /\
    invocations w2 = (invocations w + retries_of t + 1)%nat /\
    httpRequest opts w =
      (Throw e,
       notify t
         (snd (Opossum.on_failure (message e)
                 (Opossum.with_stats Opossum.count_fire (circuit (fst (obtain t w))))))
         (store
            (with_circuit
               (fst (Opossum.on_failure (message e)
                       (Opossum.with_stats Opossum.count_fire (circuit (fst (obtain t w))))))
               (fst (obtain t w)))
            w2)).
Proof.
  intros Hwf Ht Hopen Hfail.
  rewrite (httpRequest_on_target _ _ _ Ht).
  destruct (obtain_spec t w Hwf) as (Hwf1 & Hl & _ & Hn & Hhit & Hmiss).
  assert (Hst : Opossum.status (circuit (fst (obtain t w))) <> Opossum.OPEN).
  { destruct (lookup_breaker t w) as [b0|] eqn:E.
    - rewrite (Hhit b0 eq_refl). simpl. by apply Hopen.
    - by rewrite Hmiss. }
  destruct (obtain t w) as [b w1]. simpl in *.
  pose proof (wf_owner _ _ _ Hwf1 _ _ Hl) as Hown.
  unfold Http.fire. rewrite (enter_not_open _ Hst).
  set (c := Opossum.with_stats Opossum.count_fire (circuit b)).
  destruct (action_exhausted (owner b) opts (store (with_circuit c b) w1))
    as (m & Hm & Hfst & Hinv).
  - apply inst_ok_store, Hwf1.
  - intros i Hi. rewrite store_invocations, Hn, Hown.
    rewrite Hfail by (by rewrite <- Hown). eauto.
  - rewrite store_invocations, Hn in Hm, Hinv. rewrite Hown in Hm, Hfst, Hinv |- *.
    rewrite (failures_map _ _ _ (fun i => http_error (answers i) true)) in Hm
      by (intros i Hi; apply Hfail; lia).
    assert (Hnot : is_open_breaker m = false).
    { assert (Hne : List.map (fun i => http_error (answers i) true)
                      (seq 0 (S (retries_of t))) <> []) by done.
      destruct (mainError_spec _ Hne) as (m' & Hm' & Hin & _).
      rewrite Hm in Hm'. injection Hm' as <-.
      apply in_map_iff in Hin as (i & <- & _). done. }
    destruct (action t opts (store (with_circuit c b) w1)) as [[resp|e'] w2];
      simpl in *; [discriminate|]. injection Hfst as ->.
    exists m, w2. split; [done|]. split; [done|].
    destruct (Opossum.on_failure (message m) c) as [c' evs]. simpl.
    by rewrite Hnot.
Qed.

Lemma logs_notify_open t evs : forall w,
  In Opossum.EvOpen evs ->
  In (match t with
      | Host origin => {| lvl := warn; text := "HTTP breaker open"; about := origin |}
      | Service service => {| lvl := warn; text := "circuit open"; about := service |}
      end) (logs (notify t evs w)).
Proof.
  assert (Hkeep : forall evs' w e, In e (logs w) -> In e (logs (notify t evs' w))).
  { induction evs' as [|ev evs' IH]; intros w e He; simpl; [done|].
    apply IH. destruct t, ev; simpl; apply in_or_app; by left. }
  induction evs as [|ev evs IH]; intros w Hin; simpl in *; [done|].
  destruct Hin as [->|Hin]; [|by apply IH].
  apply Hkeep. destruct t; simpl; apply in_or_app; right; by left.
Qed.


Lemma on_failure_failures msg c :
  Opossum.failures (Opossum.stats (fst (Opossum.on_failure msg c)))
  = S (Opossum.failures (Opossum.stats c)).
Proof. unfold Opossum.on_failure. by repeat case_match. Qed.

Lemma circuit_obtain t w :
  circuit (fst (obtain t w)) =
    match lookup_breaker t w with
    | Some b => circuit b
    | None =>
        Opossum.create (match t with
                        | Host _ => hostBreakerOptions
                        | Service _ => proxy_breakerOptions
                        end)
    end.
Proof.
  destruct t as [o|s]; simpl; unfold Http.getBreakerForHost, Http.getBreaker;
    by case_match.
Qed.

Lemma size_same_keys {X : Type} (m m' : gmap string X) :
  (forall k, is_Some (m' !! k) <-> is_Some (m !! k)) -> size m' = size m.
Proof.
  intros H. rewrite <- !size_dom. f_equal. apply set_eq. intros k.
  by rewrite !elem_of_dom.
Qed.

(** ** Extras: the client *)

(** X1: while the breaker of its target is open, a call throws the
    circuit-open error of its addressing mode, flagged
    [isCircuitOpen], without any transport invocation; the breaker
    stays open, stays the same object, and counts one more
    rejection. *)
Theorem open_circuit_short_circuits t opts b w :
  reachable w ->
  target_of opts = Some t ->
  lookup_breaker t w = Some b ->
  Opossum.status (circuit b) = Opossum.OPEN ->
  exists e w' b',
    httpRequest opts w = (Throw e, w') /\
    isCircuitOpen e = true /\
    message e = match t with
                | Host origin => "Circuit open for host " +:+ origin
                | Service service => "Circuit open for service " +:+ service
                end /\
    wire w' = wire w /\
    lookup_breaker t w' = Some b' /\
    uid b' = uid b /\
    Opossum.status (circuit b') = Opossum.OPEN /\
    Opossum.rejects (Opossum.stats (circuit b'))
      = S (Opossum.rejects (Opossum.stats (circuit b))).
Proof.
  intros Hre Ht Hb Hopen. pose proof (reachable_wf w Hre) as Hwf.
  pose proof (wf_owner _ _ _ Hwf _ _ Hb) as Hown.
  rewrite (breaker_path_rejected t opts b w Hwf Ht Hb Hopen).
  eexists _, _, _. split; [reflexivity|].
  split; [by destruct t|]. split; [by destruct t|].
  split; [apply wire_store|].
  split; [rewrite lookup_store; simpl; rewrite Hown; by case_decide|].
  done.
Qed.

(** X2: on a breaker path, when the breaker is not open and every
    attempt of the retry budget is answered 5xx, the call throws the
    main error of the retry operation after exactly budget + 1
    transport invocations: the [HTTP <status>] error of one of the
    attempts, with its response attached, whose message occurred
    among the attempts at least as often as any other; when all
    attempts were answered with the same status it is the error of the
    last attempt.  The breaker counts one more failure. *)
Theorem retries_exhausted_throws_main_error t opts (answers : nat -> AxiosResponse) w :
  reachable w ->
  target_of opts = Some t ->
  validateStatus opts = None ->
  (forall b, lookup_breaker t w = Some b -> Opossum.status (circuit b) <> Opossum.OPEN) ->
  (forall i, (i <= retries_of t)%nat ->
     transport (invocations w + i) (merged (instance_of t) opts) = Reply (answers i) /\
     500 <= status (answers i)) ->
  let errors :=
    List.map (fun i => http_error (answers i) true) (seq 0 (S (retries_of t))) in
  exists e w' b',
    mainError errors = Some e /\
    httpRequest opts w = (Throw e, w') /\
    (exists i, (i <= retries_of t)%nat /\ e = http_error (answers i) true /\
       message e = "HTTP " +:+ pretty (status (answers i))) /\
    (forall j, (j <= retries_of t)%nat ->
       (count_message (message (http_error (answers j) true)) errors
        <= count_message (message e) errors)%nat) /\
    ((forall j, (j <= retries_of t)%nat ->
        status (answers j) = status (answers (retries_of t))) ->
     e = http_error (answers (retries_of t)) true) /\
    invocations w' = (invocations w + retries_of t + 1)%nat /\
    lookup_breaker t w' = Some b' /\
    Opossum.failures (Opossum.stats (circuit b'))
      = S (match lookup_breaker t w with
           | Some b => Opossum.failures (Opossum.stats (circuit b))
           | None => 0
           end).
Proof.
  intros Hre Ht Hv Hopen Hans errors. pose proof (reachable_wf w Hre) as Hwf.
  assert (Hout : forall i, (i <= retries_of t)%nat ->
            attempt_outcome t opts (invocations w + i) = Throw (http_error (answers i) true)).
  { intros i Hi. destruct (Hans i Hi) as [Hr Hge].
    unfold Http.attempt_outcome, verdict, validator. rewrite Hr, Hv. simpl.
    assert (Hacc : inst_validateStatus (instance_of t) (status (answers i)) = true)
      by by destruct t.
    rewrite Hacc. destruct (500 <=? status (answers i)) eqn:E; [done|lia]. }
  destruct (breaker_path_exhausted t opts answers w Hwf Ht Hopen Hout)
    as (e & w2 & Hm & Hinv & Hreq).
  fold errors in Hm.
  assert (Hne : errors <> []) by done.
  destruct (mainError_spec errors Hne) as (e' & He' & Hin & Hmax).
  rewrite Hm in He'. injection He' as <-.
  rewrite Hreq. eexists _, _, _. split; [exact Hm|]. split; [reflexivity|].
  destruct (obtain_spec t w Hwf) as (Hwf1 & Hl & _).
  pose proof (wf_owner _ _ _ Hwf1 _ _ Hl) as Hown.
  split.
  { apply in_map_iff in Hin as (i & <- & Hi). apply in_seq in Hi.
    exists i. split; [lia|done]. }
  split.
  { intros j Hj. apply Hmax, in_map_iff. exists j. split; [done|].
    apply in_seq. lia. }
  split.
  { intros Hsame.
    assert (Hlast : mainError errors = Some (http_error (answers (retries_of t)) true)).
    { unfold errors. rewrite seq_S, List.map_app. simpl.
      apply mainError_same. intros x Hx.
      apply in_map_iff in Hx as (j & <- & Hj). apply in_seq in Hj.
      simpl. rewrite Hsame by lia. done. }
    rewrite Hm in Hlast. by injection Hlast. }
  split; [by rewrite notify_invocations, store_invocations|].
  split.
  - rewrite (lookup_breaker_kept _ _ _ (io_only_kept _ _ (notify_io _ _ _))).
    rewrite lookup_store. simpl. rewrite Hown. by case_decide.
  - simpl. rewrite on_failure_failures. simpl. rewrite circuit_obtain.
    by destruct (lookup_breaker t w).
Qed.

(** X3: a call only appends to the record of transport invocations,
    and what it appends are copies of one request: the call's options
    merged over the axios instance of its path.  There are at most
    budget + 1 copies. *)
Theorem httpRequest_appends_one_request opts w :
  reachable w ->
  exists n,
    wire (snd (httpRequest opts w)) =
      wire w ++ replicate n
        (match target_of opts with
         | Some t => merged (instance_of t) opts
         | None => merged axios (with_timeout DEFAULT_TIMEOUT opts)
         end) /\
    (n <= S (match target_of opts with
             | Some t => retries_of t
             | None => DEFAULT_RETRIES
             end))%nat.
Proof.
  intros Hre. pose proof (reachable_wf w Hre) as Hwf.
  assert (Hlen : forall (w1 w2 : world) m req bound,
            wire w2 = wire w1 ++ replicate m req ->
            (invocations w2 <= invocations w1 + bound)%nat -> (m <= bound)%nat).
  { intros w1 w2 m req bound Hw. unfold invocations.
    rewrite Hw, length_app, length_replicate. lia. }
  destruct (target_of opts) as [t|] eqn:Et.
  - rewrite (httpRequest_on_target _ _ _ Et), snd_rethrow.
    destruct (obtain_spec t w Hwf) as (Hwf1 & Hl & _ & Hn & _).
    pose proof (wire_obtain t w) as Hw1.
    destruct (obtain t w) as [b w1]. simpl in *.
    pose proof (wf_owner _ _ _ Hwf1 _ _ Hl) as Hown.
    unfold Http.fire. destruct (Opossum.enter (circuit b)) as [c|c]; simpl.
    + exists 0%nat. simpl. rewrite wire_store, Hw1, app_nil_r. split; [done|lia].
    + rewrite Hown.
      destruct (action_wire t opts (store (with_circuit c b) w1)) as [m Hm];
        [apply inst_ok_store, Hwf1|].
      pose proof (action_bounds t opts (store (with_circuit c b) w1)
                    (inst_ok_store _ _ (wf_inst _ _ _ Hwf1))) as Hb.
      rewrite wire_store, Hw1 in Hm.
      assert (Hm' : (m <= S (retries_of t))%nat).
      { eapply (Hlen w _ m); [exact Hm|]. rewrite store_invocations, Hn in Hb. lia. }
      exists m. split; [|done].
      destruct (action t opts (store (with_circuit c b) w1)) as [[resp|e] w2]; simpl in *.
      * destruct (Opossum.on_success c) as [c' evs]. simpl.
        by rewrite wire_notify, wire_store.
      * destruct (Opossum.on_failure (message e) c) as [c' evs]. simpl.
        by rewrite wire_notify, wire_store.
  - destruct (httpRequest_off_target opts w Et) as [-> | ->].
    + exists 0%nat. simpl. rewrite app_nil_r. split; [done|lia].
    + destruct (pRetry_wire (direct_attempt opts) (fun _ w' => w')
                  (merged axios (with_timeout DEFAULT_TIMEOUT opts))) with
        (n := DEFAULT_RETRIES) (w := w) as [m Hm].
      * intros w'. by rewrite direct_attempt_spec.
      * done.
      * exists m. split; [done|].
        eapply (Hlen w _ m); [exact Hm|].
        pose proof (pRetry_bounds (direct_attempt opts) (fun _ w' => w')) as Hb.
        specialize (Hb ltac:(intros w'; rewrite direct_attempt_spec; apply invocations_sent)
                       ltac:(done) DEFAULT_RETRIES w). lia.
Qed.

Lemma accounted_keep w w' :
  allocated w' = allocated w ->
  (forall t, is_Some (lookup_breaker t w') <-> is_Some (lookup_breaker t w)) ->
  allocated w = (size (hostBreakers w) + size (proxyBreakers w))%nat ->
  allocated w' = (size (hostBreakers w') + size (proxyBreakers w'))%nat.
Proof.
  intros Ha Hk Hw. rewrite Ha, Hw. f_equal; apply size_same_keys; intros k; symmetry.
  - apply (Hk (Host k)).
  - apply (Hk (Service k)).
Qed.

Lemma accounted_obtain t w :
  allocated w = (size (hostBreakers w) + size (proxyBreakers w))%nat ->
  allocated (snd (obtain t w))
  = (size (hostBreakers (snd (obtain t w))) + size (proxyBreakers (snd (obtain t w))))%nat.
Proof.
  intros Hw. destruct t as [o|s]; simpl;
    unfold Http.getBreakerForHost, Http.getBreaker.
  - destruct (hostBreakers w !! o) eqn:E; simpl; [done|].
    rewrite map_size_insert_None by done. lia.
  - destruct (proxyBreakers w !! s) eqn:E; simpl; [done|].
    rewrite map_size_insert_None by done. lia.
Qed.

Lemma registered_after_call opts t w :
  wf w ->
  is_Some (lookup_breaker t (snd (httpRequest opts w))) <->
  is_Some (lookup_breaker t w) \/ target_of opts = Some t.
Proof.
  intros Hwf. destruct (decide (target_of opts = Some t)) as [Et|Hne].
  - split; [by right|]. intros _.
    rewrite (httpRequest_on_target _ _ _ Et), snd_rethrow.
    destruct (obtain_spec t w Hwf) as (Hwf1 & Hl & _).
    destruct (obtain t w) as [b w1]. simpl in *.
    pose proof (wf_owner _ _ _ Hwf1 _ _ Hl) as Hown.
    destruct (fire_effect b opts w1 (wf_inst _ _ _ Hwf1)) as (_ & _ & _ & c' & Hc').
    rewrite Hown in Hc'. by rewrite Hc'.
  - rewrite (httpRequest_other_target _ _ _ Hwf Hne). split; [by left|].
    by intros [H|H].
Qed.

Lemma accounted_httpRequest opts w :
  wf w ->
  allocated w = (size (hostBreakers w) + size (proxyBreakers w))%nat ->
  allocated (snd (httpRequest opts w))
  = (size (hostBreakers (snd (httpRequest opts w)))
     + size (proxyBreakers (snd (httpRequest opts w))))%nat.
Proof.
  intros Hwf Hw. destruct (target_of opts) as [t|] eqn:Et.
  - rewrite (httpRequest_on_target _ _ _ Et), snd_rethrow.
    pose proof (accounted_obtain t w Hw) as Hw1.
    destruct (obtain_spec t w Hwf) as (Hwf1 & Hl & _).
    destruct (obtain t w) as [b w1]. simpl in *.
    pose proof (wf_owner _ _ _ Hwf1 _ _ Hl) as Hown.
    destruct (fire_effect b opts w1 (wf_inst _ _ _ Hwf1)) as (_ & Ha & Hoth & c' & Hc').
    apply (accounted_keep w1); [done| |done].
    intros t'. destruct (decide (t' = owner b)) as [->|Hne].
    + rewrite Hc', Hown, Hl. split; eauto.
    + by rewrite Hoth.
  - destruct (httpRequest_off_target opts w Et) as [-> | ->]; [done|].
    pose proof (direct_retry_io opts DEFAULT_RETRIES w) as [_ Hh _ Hp Ha].
    by rewrite Hh, Hp, Ha.
Qed.

Lemma accounted_reachable w :
  reachable w ->
  allocated w = (size (hostBreakers w) + size (proxyBreakers w))%nat.
Proof.
  induction 1 as [|opts w Hre IH|t w Hre IH|t w Hre IH].
  - done.
  - apply accounted_httpRequest; [by apply reachable_wf|done].
  - pose proof (reachable_wf w Hre) as Hwf. unfold Http.reset_timer.
    destruct (lookup_breaker t w) as [b|] eqn:E; [|done].
    pose proof (wf_owner _ _ _ Hwf _ _ E) as Hown.
    destruct (Opossum.reset_elapsed (circuit b)) as [c evs].
    destruct (settled_effect b c evs w w eq_refl (fun _ _ => eq_refl)) as (Ha & Hl & Ho).
    rewrite Hown in *.
    apply (accounted_keep w); [done| |done].
    intros t'. destruct (decide (t' = t)) as [->|Hne].
    + rewrite Ho, E. split; eauto.
    + by rewrite Hl.
  - pose proof (reachable_wf w Hre) as Hwf. unfold Http.window_timer.
    destruct (lookup_breaker t w) as [b|] eqn:E; [|done].
    pose proof (wf_owner _ _ _ Hwf _ _ E) as Hown.
    apply (accounted_keep w); [apply store_allocated| |done].
    intros t'. rewrite lookup_store. simpl. rewrite Hown.
    case_decide; [subst; rewrite E; split; eauto|done].
Qed.

(** X4: breakers are never evicted and never leaked.  In every
    reachable state the number of breaker objects constructed so far
    is the number of entries of the two registries, and after a call
    the registered identities are those registered before plus the
    target of the call, however the call ended. *)
Theorem registries_account_for_every_breaker w :
  reachable w ->
  allocated w = (size (hostBreakers w) + size (proxyBreakers w))%nat /\
  (forall opts t,
     is_Some (lookup_breaker t (snd (httpRequest opts w))) <->
     is_Some (lookup_breaker t w) \/ target_of opts = Some t) /\
  (forall opts u,
     given (serviceName opts) = None -> given (url opts) = Some u ->
     truthy (getOriginFromUrl u) = true ->
     is_Some (getBreakerStates (snd (httpRequest opts w)) !! getOriginFromUrl u)).
Proof.
  intros Hre. pose proof (reachable_wf w Hre) as Hwf.
  split; [by apply accounted_reachable|].
  split; [intros opts t; by apply registered_after_call|].
  intros opts u Hs Hu Ho. rewrite getBreakerStates_lookup.
  apply fmap_is_Some, registered_after_call; [done|].
  right. by apply target_of_url.
Qed.

(** X5: the first call to an origin, when every attempt is answered
    5xx and the error threshold is below 100 %, leaves the breaker of
    the origin open and logs the warning; a following call to the same
    origin is then refused with the circuit-open error and nothing is
    sent. *)
Theorem first_failed_call_opens_breaker opts u w :
  reachable w ->
  given (serviceName opts) = None ->
  given (url opts) = Some u ->
  truthy (getOriginFromUrl u) = true ->
  validateStatus opts = None ->
  hostBreakers w !! getOriginFromUrl u = None ->
  Opossum.errorThresholdPercentage hostBreakerOptions < 100 ->
  (forall i, (i <= DEFAULT_RETRIES)%nat -> exists ri,
     transport (invocations w + i)
       (merged (axios_create (Some (getOriginFromUrl u)) DEFAULT_TIMEOUT) opts) = Reply ri /\
     500 <= status ri) ->
  getBreakerStates (snd (httpRequest opts w)) !! getOriginFromUrl u = Some "open" /\
  In {| lvl := warn; text := "HTTP breaker open"; about := getOriginFromUrl u |}
     (logs (snd (httpRequest opts w))) /\
  fst (httpRequest opts (snd (httpRequest opts w)))
    = Throw (circuit_open_error "host" (getOriginFromUrl u)) /\
  wire (snd (httpRequest opts (snd (httpRequest opts w)))) = wire (snd (httpRequest opts w)).
Proof.
  intros Hre Hs Hu Ho Hv Hnew Hthr Hans. pose proof (reachable_wf w Hre) as Hwf.
  pose proof (target_of_url _ _ Hs Hu Ho) as Ht.
  set (answers := fun i : nat =>
         match transport (invocations w + i)
                 (merged (axios_create (Some (getOriginFromUrl u)) DEFAULT_TIMEOUT) opts) with
         | Reply ri => ri
         | _ => {| status := 500; data := JNull |}
         end).
  destruct (breaker_path_exhausted (Host (getOriginFromUrl u)) opts answers w Hwf Ht)
    as (e & w2 & He & Hinv & Hreq).
  { intros b Hb. simpl in Hb. congruence. }
  { intros i Hi. destruct (Hans i Hi) as (ri & Hri & Hge).
    unfold Http.attempt_outcome, verdict, validator, answers. simpl. rewrite Hri, Hv. simpl.
    destruct (500 <=? status ri) eqn:E; [done|lia]. }
  pose proof (circuit_obtain (Host (getOriginFromUrl u)) w) as Hc.
  change (lookup_breaker (Host (getOriginFromUrl u)) w)
    with (hostBreakers w !! getOriginFromUrl u) in Hc. rewrite Hnew in Hc.
  destruct (obtain_spec (Host (getOriginFromUrl u)) w Hwf) as (Hwf1 & Hl & _).
  pose proof (wf_owner _ _ _ Hwf1 _ _ Hl) as Hown.
  assert (Hfail : Opossum.on_failure (message e)
                    (Opossum.with_stats Opossum.count_fire (circuit (fst (obtain (Host (getOriginFromUrl u)) w))))
                  = (Opossum.with_status Opossum.OPEN
                       (Opossum.with_stats Opossum.count_failure
                          (Opossum.with_stats Opossum.count_fire
                             (Opossum.create hostBreakerOptions))),
                     [Opossum.EvFailure (message e); Opossum.EvOpen])).
  { rewrite Hc. unfold Opossum.on_failure, Opossum.over_threshold. simpl.
    destruct (_ <? _) eqn:E; [done|]. apply Z.ltb_ge in E. lia. }
  rewrite Hfail in Hreq. simpl in Hreq.
  set (b' := with_circuit
               (Opossum.with_status Opossum.OPEN
                  (Opossum.with_stats Opossum.count_failure
                     (Opossum.with_stats Opossum.count_fire
                        (Opossum.create hostBreakerOptions))))
               (fst (obtain (Host (getOriginFromUrl u)) w))) in *.
  assert (Hb' : lookup_breaker (Host (getOriginFromUrl u)) (snd (httpRequest opts w))
                = Some b').
  { rewrite Hreq.
    transitivity (lookup_breaker (Host (getOriginFromUrl u)) (store b' w2));
      [reflexivity|].
    rewrite lookup_store.
    change (owner b') with (owner (fst (obtain (Host (getOriginFromUrl u)) w))).
    rewrite Hown. by case_decide. }
  assert (Hst : Opossum.status (circuit b') = Opossum.OPEN) by done.
  split; [|split].
  - by rewrite getBreakerStates_lookup, Hb'.
  - rewrite Hreq. simpl. apply in_or_app. right. by left.
  - pose proof (httpRequest_wf opts w Hwf) as Hwf'.
    rewrite (breaker_path_rejected (Host (getOriginFromUrl u)) opts b' _ Hwf' Ht Hb' Hst). simpl.
    split; [done|]. apply wire_store.
Qed.

(** X6: a call by service name retries on 5xx within the fixed budget
    of the proxy client (two retries), whatever the retry setting of
    the per-origin client: [k] answers of 5xx and then an answer below
    500 give that answer after [k + 1] transport invocations, and the
    breaker of the service is closed afterwards. *)
Theorem service_call_retries_then_succeeds (k : nat) opts service r w :
  reachable w ->
  given (serviceName opts) = Some service ->
  validateStatus opts = None ->
  (forall b, proxyBreakers w !! service = Some b ->
     Opossum.status (circuit b) <> Opossum.OPEN) ->
  (k <= 2)%nat ->
  (forall i, (i < k)%nat -> exists ri,
     transport (invocations w + i)
       (merged (axios_create (ServiceRegistry.getServiceUrl env service) 10000) opts)
       = Reply ri /\ 500 <= status ri) ->
  transport (invocations w + k)
    (merged (axios_create (ServiceRegistry.getServiceUrl env service) 10000) opts) = Reply r ->
  status r < 500 ->
  exists w' b',
    httpRequest opts w = (Ok r, w') /\
    invocations w' = (invocations w + k + 1)%nat /\
    proxyBreakers w' !! service = Some b' /\
    Opossum.status (circuit b') = Opossum.CLOSED /\
    hostBreakers w' = hostBreakers w.
Proof.
  intros Hre Hs Hv Hopen Hk Hfail Hr Hlt. pose proof (reachable_wf w Hre) as Hwf.
  assert (Ht : target_of opts = Some (Service service))
    by (unfold Http.target_of; by rewrite Hs).
  destruct (breaker_path_ok_after (Service service) k opts r w)
    as (w' & H1 & H2 & b' & Hb' & Hcl); auto.
  - intros i Hi. destruct (Hfail i Hi) as (ri & Hri & Hge).
    unfold Http.attempt_outcome, verdict, validator. simpl.
    unfold proxy_timeoutMs. rewrite Hri, Hv. simpl.
    destruct (500 <=? status ri) eqn:E; [eauto|lia].
  - unfold Http.attempt_outcome, verdict, validator. simpl.
    unfold proxy_timeoutMs. rewrite Hr, Hv. simpl.
    destruct (500 <=? status r) eqn:E; [lia|done].
  - exists w', b'. split; [done|]. split; [done|]. split; [done|]. split; [done|].
    apply map_eq. intros o.
    pose proof (httpRequest_other_target opts (Host o) w Hwf) as Hoth.
    rewrite H1 in Hoth. simpl in Hoth. apply Hoth. by rewrite Ht.
Qed.

Lemma on_failure_half_open msg c :
  Opossum.status c = Opossum.HALF_OPEN ->
  Opossum.status (fst (Opossum.on_failure msg c)) = Opossum.OPEN.
Proof.
  intros H. unfold Opossum.on_failure, Opossum.halfOpen. simpl. rewrite H.
  by rewrite orb_true_r.
Qed.

(** X7: once the reset timer of an open breaker has fired the breaker
    is half-open and the next call is let through as a trial: answered
    below 500 it is returned and the breaker closes; answered 5xx on
    every attempt it throws the main error of the retry operation,
    which is the error of one of the attempts, and the breaker is open
    again. *)
Theorem half_open_trial_decides t opts b w :
  reachable w ->
  target_of opts = Some t ->
  validateStatus opts = None ->
  lookup_breaker t w = Some b ->
  Opossum.status (circuit b) = Opossum.OPEN ->
  (exists b1, lookup_breaker t (reset_timer t w) = Some b1 /\
     Opossum.status (circuit b1) = Opossum.HALF_OPEN /\ uid b1 = uid b) /\
  (forall r,
     transport (invocations w) (merged (instance_of t) opts) = Reply r ->
     status r < 500 ->
     exists w' b',
       httpRequest opts (reset_timer t w) = (Ok r, w') /\
       lookup_breaker t w' = Some b' /\
       Opossum.status (circuit b') = Opossum.CLOSED) /\
  (forall answers : nat -> AxiosResponse,
     (forall i, (i <= retries_of t)%nat ->
        transport (invocations w + i) (merged (instance_of t) opts) = Reply (answers i) /\
        500 <= status (answers i)) ->
     exists e w' b',
       mainError (List.map (fun i => http_error (answers i) true)
                    (seq 0 (S (retries_of t)))) = Some e /\
       (exists i, (i <= retries_of t)%nat /\ e = http_error (answers i) true) /\
       httpRequest opts (reset_timer t w) = (Throw e, w') /\
       lookup_breaker t w' = Some b' /\
       Opossum.status (circuit b') = Opossum.OPEN).
Proof.
  intros Hre Ht Hv Hb Hopen. pose proof (reachable_wf w Hre) as Hwf.
  pose proof (wf_owner _ _ _ Hwf _ _ Hb) as Hown.
  pose proof (reset_timer_wf t w Hwf) as Hwf1.
  set (b1 := with_circuit (Opossum.with_status Opossum.HALF_OPEN (circuit b)) b).
  assert (Hw1 : reset_timer t w = notify t [Opossum.EvHalfOpen] (store b1 w)).
  { unfold Http.reset_timer, Opossum.reset_elapsed. by rewrite Hb, Hopen. }
  assert (Hb1 : lookup_breaker t (reset_timer t w) = Some b1).
  { rewrite Hw1, (lookup_breaker_kept _ _ _ (io_only_kept _ _ (notify_io _ _ _))).
    rewrite lookup_store. change (owner b1) with (owner b). rewrite Hown.
    by case_decide. }
  assert (Hn : invocations (reset_timer t w) = invocations w)
    by (by rewrite Hw1, notify_invocations, store_invocations).
  assert (Hacc : forall s, inst_validateStatus (instance_of t) s = true) by by destruct t.
  split; [by exists b1|]. split.
  - intros r Hr Hlt.
    destruct (breaker_path_ok_after t 0 opts r (reset_timer t w) Hwf1 Ht)
      as (w' & H1 & _ & b' & Hb' & Hcl).
    + intros b0. rewrite Hb1. by intros [= <-].
    + lia.
    + intros i Hi. lia.
    + unfold Http.attempt_outcome, verdict, validator.
      rewrite Hn, Nat.add_0_r, Hr, Hv. simpl. rewrite Hacc.
      destruct (500 <=? status r) eqn:E; [lia|done].
    + eauto.
  - intros answers Hans.
    assert (Hout : forall i, (i <= retries_of t)%nat ->
              attempt_outcome t opts (invocations (reset_timer t w) + i)
              = Throw (http_error (answers i) true)).
    { intros i Hi. destruct (Hans i Hi) as [Hr Hge].
      unfold Http.attempt_outcome, verdict, validator. rewrite Hn, Hr, Hv. simpl.
      rewrite Hacc. destruct (500 <=? status (answers i)) eqn:E; [done|lia]. }
    destruct (breaker_path_exhausted t opts answers (reset_timer t w) Hwf1 Ht)
      as (e & w2 & He & Hinv & Hreq).
    { intros b0. rewrite Hb1. by intros [= <-]. }
    { exact Hout. }
    rewrite Hreq, (obtain_hit _ _ _ Hb1). simpl fst.
    exists e. eexists _, _. split; [exact He|]. split.
    { assert (Hne : List.map (fun i => http_error (answers i) true)
                      (seq 0 (S (retries_of t))) <> []) by done.
      destruct (mainError_spec _ Hne) as (e' & He' & Hin & _).
      rewrite He in He'. injection He' as <-.
      apply in_map_iff in Hin as (i & <- & Hi). apply in_seq in Hi.
      exists i. split; [lia|done]. }
    split; [reflexivity|]. split.
    + rewrite (lookup_breaker_kept _ _ _ (io_only_kept _ _ (notify_io _ _ _))).
      rewrite lookup_store. simpl. rewrite Hown. by case_decide.
    + simpl. by apply on_failure_half_open.
Qed.

End Client.

(** ** The claims at concrete inputs *)

(** The end-to-end scenario: 500, 500, then 200 [{ok:true}]. *)
Lemma httpRequest_retries_then_succeeds_witness :
  exists w',
    Demo.request Demo.flaky (Demo.get "https://svc.example/api") init
      = (Ok {| status := 200; data := Demo.ok_body |}, w') /\
    invocations w' = 3%nat /\
    getBreakerStates w' !! "https://svc.example" = Some "closed".
Proof.
  apply (httpRequest_retries_then_succeeds Demo.origin_of Demo.flaky 10000 2
           Demo.breaker_defaults Demo.no_env 2
           (Demo.get "https://svc.example/api") "https://svc.example/api"
           {| status := 200; data := Demo.ok_body |} init).
  - apply reach_init.
  - reflexivity.
  - reflexivity.
  - reflexivity.
  - reflexivity.
  - intros b H. vm_compute in H. discriminate.
  - lia.
  - intros i Hi. exists {| status := 500; data := JObj [] |}.
    destruct i as [|[|i]]; [split; [reflexivity|simpl; lia] .. | lia].
  - reflexivity.
  - simpl. lia.
Defined.

Lemma fallback_retries_client_error_witness :
  fst (Demo.request Demo.not_found (Demo.get_from "http://localhost:3000" "/health") init)
    = Throw (bad_status_error {| status := 404; data := JObj [] |}) /\
  invocations
    (snd (Demo.request Demo.not_found (Demo.get_from "http://localhost:3000" "/health") init))
    = 3%nat.
Proof.
  apply (fallback_retries_client_error Demo.origin_of Demo.not_found 10000 2
           Demo.breaker_defaults Demo.no_env
           (Demo.get_from "http://localhost:3000" "/health") "/health"
           {| status := 404; data := JObj [] |} init).
  - reflexivity.
  - reflexivity.
  - reflexivity.
  - reflexivity.
  - reflexivity.
  - simpl. lia.
Defined.

Lemma httpRequest_requires_url_witness :
  Demo.request Demo.flaky Demo.get_nothing init = (Throw url_required_error, init) /\
  message url_required_error = "httpRequest requires url when serviceName is not provided".
Proof.
  apply (httpRequest_requires_url Demo.origin_of Demo.flaky 10000 2
           Demo.breaker_defaults Demo.no_env Demo.get_nothing init); reflexivity.
Defined.


Lemma httpRequest_relative_url_bypasses_breakers_witness :
  let based :=
    Demo.request (Demo.node Demo.flaky) (Demo.get_from "http://localhost:3000" "/health") init in
  let bare := Demo.request (Demo.node Demo.flaky) (Demo.get "/health") init in
  (fst based = Ok {| status := 200; data := Demo.ok_body |} /\
   invocations (snd based) = 3%nat /\
   hostBreakers (snd based) = hostBreakers init /\
   proxyBreakers (snd based) = proxyBreakers init /\
   allocated (snd based) = allocated init /\
   getBreakerStates (snd based) = getBreakerStates init) /\
  (bare = (Throw invalid_url_error,
           sent {| w_baseURL := None; w_url := Some "/health";
                   w_method := Some "get"; w_timeout := 10000 |} init) /\
   invocations (snd bare) = 1%nat /\
   hostBreakers (snd bare) = hostBreakers init /\
   proxyBreakers (snd bare) = proxyBreakers init /\
   allocated (snd bare) = allocated init /\
   getBreakerStates (snd bare) = getBreakerStates init).
Proof.
  split.
  - destruct (httpRequest_relative_url_bypasses_breakers Demo.origin_of
                (Demo.node Demo.flaky) 10000 2 Demo.breaker_defaults Demo.no_env
                (Demo.get_from "http://localhost:3000" "/health") "/health" init)
      as (H1 & H2 & H3 & H4 & _ & H6 & _); [reflexivity|reflexivity|reflexivity|].
    destruct (H6 2%nat {| status := 200; data := Demo.ok_body |}) as [H7 H8].
    + lia.
    + intros i Hi. exists (bad_status_error {| status := 500; data := JObj [] |}).
      destruct i as [|[|i]]; [split; reflexivity .. | lia].
    + reflexivity.
    + repeat split; assumption.
  - destruct (httpRequest_relative_url_bypasses_breakers Demo.origin_of
                (Demo.node Demo.flaky) 10000 2 Demo.breaker_defaults Demo.no_env
                (Demo.get "/health") "/health" init)
      as (H1 & H2 & H3 & H4 & _ & _ & _ & _ & H9); [reflexivity|reflexivity|reflexivity|].
    destruct H9 as [H10 H11].
    + intros n req Hreq. unfold Demo.node. by rewrite Hreq.
    + reflexivity.
    + repeat split; assumption.
Defined.

(** The fallback spends its three attempts on 500, 500 and 200, which
    the global instance accepts, and touches no breaker. *)
Example relative_url_is_retried :
  let result := Demo.request Demo.flaky (Demo.get_from "http://localhost:3000" "/health") init in
  fst result = Ok {| status := 200; data := Demo.ok_body |} /\
  invocations (snd result) = 3%nat /\
  getBreakerStates (snd result) = ∅ /\
  allocated (snd result) = 0%nat.
Proof. vm_compute. auto. Qed.

Lemma breaker_registry_isolation_witness :
  let run := Demo.request Demo.failing in
  let w := snd (run (Demo.get "https://svc.example/api") init) in
  (forall origin,
     getBreakerForHost Demo.breaker_defaults origin
       (snd (getBreakerForHost Demo.breaker_defaults origin w))
     = getBreakerForHost Demo.breaker_defaults origin w) /\
  (forall service,
     getBreaker service (snd (getBreaker service w)) = getBreaker service w) /\
  (forall opts t b, lookup_breaker t w = Some b ->
     exists b', lookup_breaker t (snd (run opts w)) = Some b' /\ uid b' = uid b) /\
  (forall t1 t2 b1 b2, t1 <> t2 ->
     lookup_breaker t1 w = Some b1 -> lookup_breaker t2 w = Some b2 -> uid b1 <> uid b2) /\
  (forall opts t, target_of Demo.origin_of opts <> Some t ->
     lookup_breaker t (snd (run opts w)) = lookup_breaker t w) /\
  (forall opts origin, target_of Demo.origin_of opts <> Some (Host origin) ->
     getBreakerStates (snd (run opts w)) !! origin = getBreakerStates w !! origin).
Proof.
  intros run w.
  apply (breaker_registry_isolation Demo.origin_of Demo.failing 10000 2
           Demo.breaker_defaults Demo.no_env w).
  apply reach_request, reach_init.
Defined.

(** Failures against one origin open its breaker and leave the breaker
    of another origin closed. *)
Example failures_stay_with_their_origin :
  let w1 := snd (Demo.request Demo.flaky (Demo.get "https://other.example/a") init) in
  let w2 := snd (Demo.request Demo.failing (Demo.get "https://svc.example/api") w1) in
  getBreakerStates w1 !! "https://other.example" = Some "closed" /\
  getBreakerStates w2 !! "https://svc.example" = Some "open" /\
  getBreakerStates w2 !! "https://other.example" = Some "closed" /\
  fst (Demo.request Demo.failing (Demo.get "https://svc.example/api") w2)
    = Throw (circuit_open_error "host" "https://svc.example") /\
  invocations (snd (Demo.request Demo.failing (Demo.get "https://svc.example/api") w2))
    = invocations w2.
Proof. vm_compute. auto 6. Qed.

Lemma getBreakerStates_snapshot_witness :
  let w := snd (Demo.request Demo.flaky (Demo.get "https://svc.example/api") init) in
  getBreakerStates w !! "https://svc.example" = Some "closed" /\
  getBreakerStates w !! "engagement" = None.
Proof.
  intros w. split.
  - refine (proj1 (getBreakerStates_snapshot w) "https://svc.example"
              {| uid := 0; owner := Host "https://svc.example";
                 circuit := Opossum.with_stats Opossum.count_success
                              (Opossum.with_stats Opossum.count_fire
                                 (Opossum.create Demo.breaker_defaults)) |} _).
    vm_compute. reflexivity.
  - apply (proj2 (getBreakerStates_snapshot w) "engagement"). vm_compute. reflexivity.
Defined.

(** C9: a call by service name creates a breaker that the snapshot does
    not show. *)
Lemma getBreakerStates_misses_service_breakers :
  let w := snd (Demo.request Demo.flaky (Demo.get_service "engagement" "/health") init) in
  (exists b, lookup_breaker (Service "engagement") w = Some b) /\
  getBreakerStates w !! "engagement" = None /\
  getBreakerStates w = ∅.
Proof.
  vm_compute. split; [eexists; reflexivity|]. split; reflexivity.
Qed.

(** ** The extras at concrete inputs *)

Lemma after_outage_reachable :
  reachable Demo.origin_of Samples.recovering 10000 2 Demo.breaker_defaults Demo.no_env
    Samples.after_outage.
Proof. apply reach_request, reach_init. Qed.

Lemma open_circuit_short_circuits_witness :
  exists e w' b',
    Demo.request Samples.recovering (Demo.get "https://svc.example/again") Samples.after_outage
      = (Throw e, w') /\
    isCircuitOpen e = true /\
    message e = "Circuit open for host https://svc.example" /\
    wire w' = wire Samples.after_outage /\
    lookup_breaker (Host "https://svc.example") w' = Some b' /\
    uid b' = 0%nat /\
    Opossum.status (circuit b') = Opossum.OPEN /\
    Opossum.rejects (Opossum.stats (circuit b')) = 1%nat.
Proof.
  let found := eval vm_compute in
      (lookup_breaker (Host "https://svc.example") Samples.after_outage) in
  match found with
  | Some ?b =>
      apply (open_circuit_short_circuits Demo.origin_of Samples.recovering 10000 2
               Demo.breaker_defaults Demo.no_env (Host "https://svc.example")
               (Demo.get "https://svc.example/again") b Samples.after_outage)
  end.
  - apply after_outage_reachable.
  - reflexivity.
  - vm_compute. reflexivity.
  - reflexivity.
Defined.

Lemma retries_exhausted_throws_main_error_witness :
  exists w' b',
    Demo.request Samples.degrading (Demo.get "https://svc.example/api") init
      = (Throw (http_error {| status := 500; data := JObj [] |} true), w') /\
    message (http_error {| status := 500; data := JObj [] |} true) = "HTTP 500" /\
    invocations w' = 3%nat /\
    lookup_breaker (Host "https://svc.example") w' = Some b' /\
    Opossum.failures (Opossum.stats (circuit b')) = 1%nat.
Proof.
  destruct (retries_exhausted_throws_main_error Demo.origin_of Samples.degrading 10000 2
              Demo.breaker_defaults Demo.no_env (Host "https://svc.example")
              (Demo.get "https://svc.example/api")
              (fun i => match i with
                        | 0%nat | 1%nat => {| status := 500; data := JObj [] |}
                        | _ => {| status := 503; data := JObj [] |}
                        end) init)
    as (e & w' & b' & Hm & Hreq & _ & _ & _ & Hinv & Hb & Hf).
  - apply reach_init.
  - reflexivity.
  - reflexivity.
  - intros b H. vm_compute in H. discriminate.
  - intros i Hi. destruct i as [|[|[|i]]]; [split; [reflexivity|simpl; lia] .. | simpl in Hi; lia].
  - vm_compute in Hm. injection Hm as <-.
    exists w', b'. split; [exact Hreq|]. split; [reflexivity|].
    split; [exact Hinv|]. split; [exact Hb | exact Hf].
Defined.

Lemma httpRequest_appends_one_request_witness :
  exists n,
    wire (snd (Demo.request Demo.flaky (Demo.get "https://svc.example/api") init)) =
      wire init ++ replicate n
        {| w_baseURL := Some "https://svc.example";
           w_url := Some "https://svc.example/api";
           w_method := Some "get";
           w_timeout := 10000 |} /\
    (n <= 3)%nat.
Proof.
  apply (httpRequest_appends_one_request Demo.origin_of Demo.flaky 10000 2
           Demo.breaker_defaults Demo.no_env (Demo.get "https://svc.example/api") init).
  apply reach_init.
Defined.

Lemma registries_account_for_every_breaker_witness :
  allocated Samples.after_outage
    = (size (hostBreakers Samples.after_outage)
       + size (proxyBreakers Samples.after_outage))%nat /\
  (forall opts t,
     is_Some (lookup_breaker t (snd (Demo.request Samples.recovering opts Samples.after_outage)))
     <-> is_Some (lookup_breaker t Samples.after_outage)
         \/ target_of Demo.origin_of opts = Some t) /\
  (forall opts u,
     given (serviceName opts) = None -> given (url opts) = Some u ->
     truthy (getOriginFromUrl Demo.origin_of u) = true ->
     is_Some (getBreakerStates (snd (Demo.request Samples.recovering opts Samples.after_outage))
                !! getOriginFromUrl Demo.origin_of u)).
Proof.
  apply (registries_account_for_every_breaker Demo.origin_of Samples.recovering 10000 2
           Demo.breaker_defaults Demo.no_env Samples.after_outage).
  apply after_outage_reachable.
Defined.

Lemma first_failed_call_opens_breaker_witness :
  let opts := Demo.get "https://svc.example/api" in
  let w1 := snd (Demo.request Demo.failing opts init) in
  getBreakerStates w1 !! "https://svc.example" = Some "open" /\
  In {| lvl := warn; text := "HTTP breaker open"; about := "https://svc.example" |}
     (logs w1) /\
  fst (Demo.request Demo.failing opts w1)
    = Throw (circuit_open_error "host" "https://svc.example") /\
  wire (snd (Demo.request Demo.failing opts w1)) = wire w1.
Proof.
  apply (first_failed_call_opens_breaker Demo.origin_of Demo.failing 10000 2
           Demo.breaker_defaults Demo.no_env
           (Demo.get "https://svc.example/api") "https://svc.example/api" init).
  - apply reach_init.
  - reflexivity.
  - reflexivity.
  - reflexivity.
  - reflexivity.
  - reflexivity.
  - simpl. lia.
  - intros i _. exists {| status := 500; data := JObj [] |}.
    split; [reflexivity|simpl; lia].
Defined.

Lemma service_call_retries_then_succeeds_witness :
  exists w' b',
    Demo.request Demo.flaky (Demo.get_service "engagement" "/health") init
      = (Ok {| status := 200; data := Demo.ok_body |}, w') /\
    invocations w' = 3%nat /\
    proxyBreakers w' !! "engagement" = Some b' /\
    Opossum.status (circuit b') = Opossum.CLOSED /\
    hostBreakers w' = hostBreakers init.
Proof.
  apply (service_call_retries_then_succeeds Demo.origin_of Demo.flaky 10000 2
           Demo.breaker_defaults Demo.no_env 2
           (Demo.get_service "engagement" "/health") "engagement"
           {| status := 200; data := Demo.ok_body |} init).
  - apply reach_init.
  - reflexivity.
  - reflexivity.
  - intros b H. vm_compute in H. discriminate.
  - lia.
  - intros i Hi. exists {| status := 500; data := JObj [] |}.
    destruct i as [|[|i]]; [split; [reflexivity|simpl; lia] .. | lia].
  - reflexivity.
  - simpl. lia.
Defined.

Lemma half_open_trial_decides_witness :
  let t := Host "https://svc.example" in
  let opts := Demo.get "https://svc.example/again" in
  let w1 := reset_timer t Samples.after_outage in
  (exists b1, lookup_breaker t w1 = Some b1 /\
     Opossum.status (circuit b1) = Opossum.HALF_OPEN /\ uid b1 = 0%nat) /\
  (forall r,
     Samples.recovering (invocations Samples.after_outage)
       (merged (axios_create (Some "https://svc.example") 10000) opts) = Reply r ->
     status r < 500 ->
     exists w' b',
       Demo.request Samples.recovering opts w1 = (Ok r, w') /\
       lookup_breaker t w' = Some b' /\
       Opossum.status (circuit b') = Opossum.CLOSED) /\
  (forall answers : nat -> AxiosResponse,
     (forall i, (i <= 2)%nat ->
        Samples.recovering (invocations Samples.after_outage + i)
          (merged (axios_create (Some "https://svc.example") 10000) opts)
          = Reply (answers i) /\
        500 <= status (answers i)) ->
     exists e w' b',
       mainError (List.map (fun i => http_error (answers i) true) (seq 0 3)) = Some e /\
       (exists i, (i <= 2)%nat /\ e = http_error (answers i) true) /\
       Demo.request Samples.recovering opts w1 = (Throw e, w') /\
       lookup_breaker t w' = Some b' /\
       Opossum.status (circuit b') = Opossum.OPEN).
Proof.
  let found := eval vm_compute in
      (lookup_breaker (Host "https://svc.example") Samples.after_outage) in
  match found with
  | Some ?b =>
      apply (half_open_trial_decides Demo.origin_of Samples.recovering 10000 2
               Demo.breaker_defaults Demo.no_env (Host "https://svc.example")
               (Demo.get "https://svc.example/again") b Samples.after_outage)
  end.
  - apply after_outage_reachable.
  - reflexivity.
  - reflexivity.
  - vm_compute. reflexivity.
  - reflexivity.
Defined.

(** After the outage the trial call is answered 200 and the breaker
    closes again. *)
Example breaker_recovers :
  let t := Host "https://svc.example" in
  let w1 := reset_timer t Samples.after_outage in
  let w2 := snd (Demo.request Samples.recovering (Demo.get "https://svc.example/again") w1) in
  getBreakerStates Samples.after_outage !! "https://svc.example" = Some "open" /\
  getBreakerStates w1 !! "https://svc.example" = Some "halfOpen" /\
  getBreakerStates w2 !! "https://svc.example" = Some "closed" /\
  invocations w2 = 4%nat.
Proof. vm_compute. auto. Qed.

End HttpFacts.

(** ** The cache client *)

Module CacheFacts.
Import Cache.

Lemma notify_commands evs : forall w, commands (notify evs w) = commands w.
Proof.
  induction evs as [|ev evs IH]; intros w; simpl; [done|].
  rewrite IH. by destruct ev.
Qed.

Section Backend.

Variable redis : nat -> Command -> Reply.
Variable JSON_parse : string -> option json.
Variable JSON_stringify : json -> option string.

Local Abbreviation get := (Cache.get redis JSON_parse).
Local Abbreviation set := (Cache.set redis JSON_stringify).
Local Abbreviation del := (Cache.del redis).

Lemma unavailable_skips w :
  unavailable w ->
  disconnected w = true \/
  exists b, _breaker (service w) = Some b /\ Opossum.opened b = true.
Proof.
  unfold unavailable, disconnected. intros [H | [H | (b & Hb & Hs)]].
  - left. by rewrite H.
  - left. rewrite H. by destruct (isConnected (service w)).
  - right. exists b. split; [done|]. unfold Opossum.opened. by rewrite Hs.
Qed.

(** C5: [get], [set] and [del] always return normally; [get] returns
    null unless the backend answered a value that parses; and when the
    connection is down or the breaker is open, [get] returns null and
    none of the three sends a command to the backend. *)
Theorem cache_fails_as_miss key value ttl w :
  (exists v, fst (get key w) = Ok v) /\
  fst (set key value ttl w) = Ok tt /\
  fst (del key w) = Ok tt /\
  (forall v, fst (get key w) = Ok v ->
     v = JNull \/
     exists s, redis (length (commands w)) (GET key) = Bulk (Some s) /\
               JSON_parse s = Some v) /\
  (unavailable w ->
     fst (get key w) = Ok JNull /\
     commands (snd (get key w)) = commands w /\
     commands (snd (set key value ttl w)) = commands w /\
     commands (snd (del key w)) = commands w).
Proof.
  split; [|split; [|split; [|split]]].
  - unfold Cache.get. repeat case_match; eauto.
  - unfold Cache.set. by repeat case_match.
  - unfold Cache.del. by repeat case_match.
  - intros v. unfold Cache.get, guarded, fire, exec_get, send.
    repeat case_match; simplify_eq/=; intros; simplify_eq/=; eauto.
    all: right; repeat case_match; simplify_eq/=; eauto.
    all: match goal with
         | H : given _ = Some _ |- _ => apply JsFacts.given_Some in H as [-> _]
         end; eauto.
  - intros Hun. destruct (unavailable_skips w Hun) as [Hd | (b & Hb & Ho)].
    + unfold Cache.get, Cache.set, Cache.del. rewrite Hd. simpl. done.
    + unfold Cache.get, Cache.set, Cache.del, guarded. rewrite Hb, Ho.
      destruct (disconnected w); simpl; done.
Qed.

(** ** Extras: the cache client *)

Lemma unavailable_sends_nothing key value ttl w :
  unavailable w ->
  commands (snd (get key w)) = commands w /\
  commands (snd (set key value ttl w)) = commands w /\
  commands (snd (del key w)) = commands w.
Proof.
  intros Hun. destruct (unavailable_skips w Hun) as [Hd | (b & Hb & Ho)].
  - unfold Cache.get, Cache.set, Cache.del. rewrite Hd. simpl. done.
  - unfold Cache.get, Cache.set, Cache.del, guarded. rewrite Hb, Ho.
    destruct (disconnected w); simpl; done.
Qed.

Lemma get_commands key w :
  commands (snd (get key w)) = commands w \/
  commands (snd (get key w)) = commands w ++ [GET key].
Proof.
  unfold Cache.get, guarded, fire, exec_get, send.
  repeat case_match; simplify_eq/=; rewrite ?notify_commands; simpl; auto.
Qed.

Lemma set_commands key value ttl w :
  commands (snd (set key value ttl w)) = commands w \/
  exists stringValue, JSON_stringify value = Some stringValue /\
    commands (snd (set key value ttl w))
    = commands w ++ [SETEX key (default 3600 ttl) stringValue].
Proof.
  unfold Cache.set, guarded, fire, exec_set, send.
  repeat case_match; simplify_eq/=; rewrite ?notify_commands; simpl; eauto.
Qed.

Lemma del_commands key w :
  commands (snd (del key w)) = commands w \/
  commands (snd (del key w)) = commands w ++ [DEL key].
Proof.
  unfold Cache.del, guarded, fire, exec_del, send.
  repeat case_match; simplify_eq/=; rewrite ?notify_commands; simpl; auto.
Qed.

(** X16: every cache operation sends at most one command to the
    backend, and it is the command for its own key: [GET key],
    [DEL key], or [SETEX key ttl json] with the time to live 3600 when
    none is given.  Nothing is retried. *)
Theorem cache_operations_send_one_command key value ttl w :
  (commands (snd (get key w)) = commands w \/
   commands (snd (get key w)) = commands w ++ [GET key]) /\
  (commands (snd (set key value ttl w)) = commands w \/
   exists stringValue, JSON_stringify value = Some stringValue /\
     commands (snd (set key value ttl w))
     = commands w ++ [SETEX key (default 3600 ttl) stringValue]) /\
  (commands (snd (del key w)) = commands w \/
   commands (snd (del key w)) = commands w ++ [DEL key]).
Proof.
  split; [apply get_commands|].
  split; [apply set_commands | apply del_commands].
Qed.

(** X17: when the service is connected, its breaker is closed, and the
    backend refuses a [GET] that brings the error rate of the window
    over the threshold, [get] still returns null, the breaker opens
    (and says so in the log and in [getBreakerState]), and from then on
    [get], [set] and [del] send nothing to the backend. *)
Theorem backend_failure_opens_cache_breaker key msg b w :
  disconnected w = false ->
  _breaker (service w) = Some b ->
  Opossum.status b = Opossum.CLOSED ->
  Opossum.errorThresholdPercentage (Opossum.options b)
    * Z.of_nat (S (Opossum.fires (Opossum.stats b)))
    < Z.of_nat (S (Opossum.failures (Opossum.stats b))) * 100 ->
  redis (length (commands w)) (GET key) = Failure msg ->
  fst (get key w) = Ok JNull /\
  commands (snd (get key w)) = commands w ++ [GET key] /\
  getBreakerState (snd (get key w)) = "open" /\
  In {| lvl := warn; text := "Redis circuit open" |} (logs (snd (get key w))) /\
  (forall key' value ttl,
     commands (snd (get key' (snd (get key w)))) = commands (snd (get key w)) /\
     commands (snd (set key' value ttl (snd (get key w)))) = commands (snd (get key w)) /\
     commands (snd (del key' (snd (get key w)))) = commands (snd (get key w))).
Proof.
  intros Hd Hb Hst Hthr Hfail.
  assert (Hget : get key w =
    (Ok JNull,
     logged error ("Cache get error for key " +:+ key +:+ ":")
       (notify [Opossum.EvFailure msg; Opossum.EvOpen]
          (set_breaker
             (Opossum.with_status Opossum.OPEN
                (Opossum.with_stats Opossum.count_failure
                   (Opossum.with_stats Opossum.count_fire b)))
             (issued (GET key)
                (set_breaker (Opossum.with_stats Opossum.count_fire b) w)))))).
  { unfold Cache.get, guarded, fire, exec_get, send, Opossum.enter, Opossum.opened.
    rewrite Hd, Hb, Hst. simpl. rewrite Hfail.
    unfold Opossum.on_failure, Opossum.over_threshold. simpl. rewrite Hst.
    destruct (_ <? _) eqn:E; [done|]. apply Z.ltb_ge in E. lia. }
  rewrite Hget. simpl.
  split; [done|]. split; [done|]. split; [done|].
  split; [apply in_or_app; left; apply in_or_app; right; by left|].
  intros key' value ttl. apply unavailable_sends_nothing.
  right. right. eexists. split; reflexivity.
Qed.

End Backend.

Lemma cache_fails_as_miss_witness :
  Cache.unavailable Demo.cache_open /\
  fst (Cache.get Demo.redis_up Demo.parse "user:1" Demo.cache_open) = Ok JNull /\
  commands (snd (Cache.get Demo.redis_up Demo.parse "user:1" Demo.cache_open)) = [] /\
  commands (snd (Cache.set Demo.redis_up Demo.stringify "user:1" (JStr "v") (Some 10)
                   Demo.cache_open)) = [] /\
  commands (snd (Cache.del Demo.redis_up "user:1" Demo.cache_open)) = [].
Proof.
  assert (H : Cache.unavailable Demo.cache_open).
  { right. right. eexists. split; reflexivity. }
  split; [exact H|].
  exact (proj2 (proj2 (proj2 (proj2
    (cache_fails_as_miss Demo.redis_up Demo.parse Demo.stringify
       "user:1" (JStr "v") (Some 10) Demo.cache_open)))) H).
Defined.

(** A backend that refuses every command costs a miss, not an error;
    a backend that answers is read through. *)
Example cache_get_examples :
  fst (Cache.get Demo.redis_down Demo.parse "user:1" Demo.cache_ready) = Ok JNull /\
  fst (Cache.get Demo.redis_up Demo.parse "user:1" Demo.cache_ready) = Ok (JStr "cached") /\
  fst (Cache.get Demo.redis_up Demo.parse "user:1" Demo.cache_down) = Ok JNull /\
  commands (snd (Cache.get Demo.redis_up Demo.parse "user:1" Demo.cache_down)) = [].
Proof. vm_compute. auto. Qed.

Lemma backend_failure_opens_cache_breaker_witness :
  let w := Cache.get Demo.redis_down Demo.parse "user:1" Demo.cache_ready in
  fst w = Ok JNull /\
  commands (snd w) = [GET "user:1"] /\
  getBreakerState (snd w) = "open" /\
  commands (snd (Cache.set Demo.redis_down Demo.stringify "user:2" (JStr "v") None (snd w)))
  = [GET "user:1"].
Proof.
  destruct (backend_failure_opens_cache_breaker Demo.redis_down Demo.parse Demo.stringify
              "user:1" "ECONNREFUSED" (Opossum.create Demo.breaker_defaults) Demo.cache_ready)
    as (H1 & H2 & H3 & _ & H5);
    [reflexivity | reflexivity | reflexivity | vm_compute; reflexivity | reflexivity |].
  split; [exact H1|]. split; [exact H2|]. split; [exact H3|].
  rewrite (proj1 (proj2 (H5 "user:2" (JStr "v") None))). exact H2.
Defined.

(** ** Extras: reconnection delays and preference keys *)

Lemma pow2_ge_1 n : 0 <= n -> 1 <= 2 ^ n.
Proof. intros Hn. pose proof (Z.pow_pos_nonneg 2 n). lia. Qed.

(** X18: the reconnect strategy gives up exactly when the number of
    retries exceeds the configured maximum.  Otherwise, for a jitter in
    [0, 100), the delay never exceeds the configured maximum, is at
    least the exponential backoff [100 * 2^retries] capped at that
    maximum, equals the maximum once the backoff has reached it, and
    does not decrease from one retry to the next. *)
Theorem reconnectStrategy_bounds maxAttempts maxDelay jitter retries :
  0 <= retries -> 0 <= jitter < 100 ->
  (maxAttempts < retries ->
   CacheKeys.reconnectStrategy maxAttempts maxDelay jitter retries = None) /\
  (retries <= maxAttempts ->
   exists d,
     CacheKeys.reconnectStrategy maxAttempts maxDelay jitter retries = Some d /\
     Z.min maxDelay (100 * 2 ^ retries) <= d <= maxDelay /\
     d < 100 * 2 ^ retries + 100 /\
     (maxDelay <= 100 * 2 ^ retries -> d = maxDelay) /\
     (retries + 1 <= maxAttempts ->
      exists d', CacheKeys.reconnectStrategy maxAttempts maxDelay jitter (retries + 1)
                 = Some d' /\ d <= d')).
Proof.
  intros Hr Hj. unfold CacheKeys.reconnectStrategy. split.
  - intros Hlt. destruct (_ <? _) eqn:E; [done|]. apply Z.ltb_ge in E. lia.
  - intros Hle. destruct (maxAttempts <? retries) eqn:E; [apply Z.ltb_lt in E; lia|].
    eexists. split; [reflexivity|].
    pose proof (pow2_ge_1 retries Hr) as Hp.
    assert (Hs : 2 ^ (retries + 1) = 2 * 2 ^ retries) by (rewrite Z.pow_add_r; lia).
    split; [lia|]. split; [lia|]. split; [lia|].
    intros Hle'. destruct (maxAttempts <? retries + 1) eqn:E'; [apply Z.ltb_lt in E'; lia|].
    eexists. split; [reflexivity|]. rewrite Hs. lia.
Qed.

Lemma reconnectStrategy_bounds_witness :
  CacheKeys.reconnectStrategy 10 5000 42 3 = Some 842 /\
  CacheKeys.reconnectStrategy 10 5000 42 9 = Some 5000 /\
  CacheKeys.reconnectStrategy 10 5000 42 11 = None.
Proof.
  pose proof (reconnectStrategy_bounds 10 5000 42 11 ltac:(lia) ltac:(lia)) as [H _].
  split; [reflexivity|]. split; [reflexivity|]. apply H. lia.
Defined.

Lemma length_append (s t : string) :
  String.length (s +:+ t) = (String.length s + String.length t)%nat.
Proof. induction s as [|a s IH]; simpl; [done | by rewrite IH]. Qed.

Lemma append_cancel_r (s t u : string) : s +:+ u = t +:+ u -> s = t.
Proof.
  revert t. induction s as [|a s IH]; intros [|b t] H.
  - done.
  - apply (f_equal String.length) in H. rewrite !length_append in H.
    simpl in H. lia.
  - apply (f_equal String.length) in H. rewrite !length_append in H.
    simpl in H. lia.
  - simpl in H. injection H as -> H. f_equal. by apply IH.
Qed.

(** X19: different users never share a preferences key, and the two
    preference operations talk to the backend about their user's key
    only: [getUserPreferences] sends at most [GET] of it,
    [setUserPreferences] at most [SETEX] of it with a time to live of
    one hour. *)
Theorem preferences_are_kept_per_user redis JSON_parse JSON_stringify
    (userId : string) (preferences : json) (w : Cache.world) :
  (forall other, CacheKeys.preferences_key other = CacheKeys.preferences_key userId ->
                 other = userId) /\
  (commands (snd (CacheKeys.getUserPreferences redis JSON_parse userId w)) = commands w \/
   commands (snd (CacheKeys.getUserPreferences redis JSON_parse userId w))
   = commands w ++ [GET (CacheKeys.preferences_key userId)]) /\
  (commands (snd (CacheKeys.setUserPreferences redis JSON_stringify userId preferences w))
   = commands w \/
   exists stringValue,
     commands (snd (CacheKeys.setUserPreferences redis JSON_stringify userId preferences w))
     = commands w ++ [SETEX (CacheKeys.preferences_key userId) 3600 stringValue]).
Proof.
  split; [|split].
  - intros other H. unfold CacheKeys.preferences_key in H.
    simpl in H. injection H as H. exact (append_cancel_r other userId ":preferences" H).
  - apply get_commands.
  - destruct (set_commands redis JSON_stringify (CacheKeys.preferences_key userId)
                preferences (Some 3600) w) as [H | (s & _ & H)]; [by left|].
    right. by exists s.
Qed.

End CacheFacts.

(** ** The rate-limiting middlewares *)

Module RateLimitFacts.
Import RateLimit.

Lemma path_or_empty p : default "" (given (Some p)) = p.
Proof. by destruct p. Qed.

Lemma rateBot_reaching NODE_ENV redisReady consume req :
  reaches_store NODE_ENV req = true ->
  rateBot NODE_ENV redisReady consume req =
    if negb redisReady
    then (Next, [Log warn "[rate-limit] Redis unavailable; failing open"])
    else
      match consume_both consume (getKey req) with
      | (Ok _, effects) => (Next, effects)
      | (Throw (RateLimiterRes ms), effects) =>
          (Respond (too_many_requests (ceil_div_1000 ms)), effects)
      | (Throw (Unexpected _), effects) =>
          (Next, effects ++ [Log error "[rate-limit] unexpected error:"])
      end.
Proof.
  unfold reaches_store, rateBot. rewrite path_or_empty.
  destruct (not_production NODE_ENV); [done|].
  destruct (startsWith (path req) "/api/auth"); [done|].
  by destruct (isBotUserAgent req).
Qed.

(** C6 (as amended): with the Redis connection failed, a request that
    gets as far as the store check is handed to the next handler after
    one warning, whatever the limiters would have answered, and no
    quota counter is consumed. *)
Theorem limiters_fail_open NODE_ENV consume req req' l :
  reaches_store NODE_ENV req = true ->
  getLimiterForPath (path req') = Some l ->
  rateBot NODE_ENV false consume req =
    (Next, [Log warn "[rate-limit] Redis unavailable; failing open"]) /\
  perEndpointLimiter false consume req' =
    (Next, [Log warn "[rate-limit] Redis not available; failing open"]).
Proof.
  intros Hr Hl. split.
  - by rewrite rateBot_reaching.
  - unfold perEndpointLimiter. by rewrite Hl.
Qed.

Lemma limiters_fail_open_witness :
  rateBot (Some "production") false Demo.exhausted Demo.browser =
    (Next, [Log warn "[rate-limit] Redis unavailable; failing open"]) /\
  perEndpointLimiter false Demo.exhausted Demo.users_page =
    (Next, [Log warn "[rate-limit] Redis not available; failing open"]).
Proof.
  apply (limiters_fail_open (Some "production") Demo.exhausted Demo.browser Demo.users_page
           {| keyPrefix := "endpoint_users"; points := 50;
              duration := 900; blockDuration := Some 60 |}); reflexivity.
Defined.

(** C6: no environment, limiter behaviour or request makes either
    middleware answer 503 when the Redis connection has failed: there
    is no fail-closed setting to select. *)
Lemma no_fail_closed_setting :
  ~ (exists NODE_ENV consume req r,
       fst (rateBot NODE_ENV false consume req) = Respond r /\ statusCode r = 503) /\
  ~ (exists consume req r,
       fst (perEndpointLimiter false consume req) = Respond r /\ statusCode r = 503).
Proof.
  split.
  - intros (env & consume & req & r & H & Hs). unfold rateBot in H.
    repeat case_match; simplify_eq/=.
  - intros (consume & req & r & H & Hs). unfold perEndpointLimiter in H.
    repeat case_match; simplify_eq/=.
Qed.

(** C7: outside production a crawler is handed to the next handler,
    and so is a crawler on an authentication path in production. *)
Lemma bots_pass_when_exempt :
  rateBot (Some "development") true Demo.granting Demo.crawler = (Next, []) /\
  rateBot (Some "production") true Demo.granting Demo.crawler_login = (Next, []) /\
  isBotUserAgent Demo.crawler = true /\
  isBotUserAgent Demo.crawler_login = true.
Proof. vm_compute. auto. Qed.

(** C7 (as amended): outside production, and in production on a path
    that starts with /api/auth, every request (a bot's too) goes to
    the next handler and nothing else happens; elsewhere in production
    a request whose lowercased User-Agent contains bot, crawler or
    spider is answered 403 whatever the state of Redis and of the
    limiters, with no limiter consumed. *)
Theorem rateBot_exemptions_then_bots NODE_ENV redisReady consume req :
  (not_production NODE_ENV = true ->
     rateBot NODE_ENV redisReady consume req = (Next, [])) /\
  (not_production NODE_ENV = false -> startsWith (path req) "/api/auth" = true ->
     rateBot NODE_ENV redisReady consume req = (Next, [])) /\
  (not_production NODE_ENV = false -> startsWith (path req) "/api/auth" = false ->
   isBotUserAgent req = true ->
     rateBot NODE_ENV redisReady consume req = (Respond bots_not_allowed, []) /\
     statusCode bots_not_allowed = 403) /\
  (isBotUserAgent req = true <->
   exists pre word post,
     toLowerCase (default "" (given (userAgent req))) = pre +:+ word +:+ post /\
     (word = "bot" \/ word = "crawler" \/ word = "spider")).
Proof.
  split; [|split; [|split]].
  - intros H. unfold rateBot. by rewrite H.
  - intros H1 H2. unfold rateBot. by rewrite H1, path_or_empty, H2.
  - intros H1 H2 H3. unfold rateBot. by rewrite H1, path_or_empty, H2, H3.
  - unfold isBotUserAgent. rewrite !orb_true_iff, !JsFacts.includes_spec. split.
    + intros [[(pre & post & H) | (pre & post & H)] | (pre & post & H)];
        [exists pre, "bot", post | exists pre, "crawler", post | exists pre, "spider", post];
        eauto.
    + intros (pre & word & post & H & [-> | [-> | ->]]); eauto.
Qed.

Lemma rateBot_exemptions_then_bots_witness :
  rateBot (Some "production") false Demo.exhausted Demo.crawler
    = (Respond bots_not_allowed, []) /\
  statusCode bots_not_allowed = 403.
Proof.
  apply (rateBot_exemptions_then_bots (Some "production") false Demo.exhausted Demo.crawler);
    reflexivity.
Defined.

(** C8: a limiter that is used up while its window is closing reports
    no time before the next request, and the rejection then carries a
    retry-after of zero, in the header and in the body. *)
Lemma retry_after_can_be_zero :
  rateBot (Some "production") true Demo.expiring Demo.browser
  = (Respond {| statusCode := 429;
                headers := [("Retry-After", "0")];
                body := JObj [("success", JBool false);
                              ("message", JStr "Too many requests, please try again later.");
                              ("retryAfter", JNum 0)] |},
     [Consume "rl_main" "user-1"]) /\
  perEndpointLimiter true Demo.expiring Demo.users_page
  = (Respond {| statusCode := 429;
                headers := [("Retry-After", "0")];
                body := JObj [("message", JStr "Endpoint rate limit exceeded");
                              ("retryAfterSeconds", JNum 0)] |},
     [Consume "endpoint_users" "user-1"]).
Proof. split; reflexivity. Qed.

(** C8 (as amended): when the distributed limiter, or the burst
    limiter after the distributed one granted, or the limiter of the
    endpoint rejects a request with a [RateLimiterRes], the answer is
    a 429 whose only header is Retry-After and whose body carries the
    same number: the time the limiter reports before the next request,
    in seconds, rounded up.  The number is positive exactly when that
    time is.  Both middlewares answer 429 in these cases only: every
    other path ends in [next] or in the 403 for bots. *)
Theorem rejection_carries_retry_after NODE_ENV consume req req' l :
  reaches_store NODE_ENV req = true ->
  getLimiterForPath (path req') = Some l ->
  (forall ms,
     consume rateLimiterRedis (getKey req) = Throw (RateLimiterRes ms) ->
     rateBot NODE_ENV true consume req =
       (Respond {| statusCode := 429;
                   headers := [("Retry-After", pretty (ceil_div_1000 ms))];
                   body := JObj [("success", JBool false);
                                 ("message",
                                  JStr "Too many requests, please try again later.");
                                 ("retryAfter", JNum (ceil_div_1000 ms))] |},
        [Consume "rl_main" (getKey req)])) /\
  (forall ms,
     consume rateLimiterRedis (getKey req) = Ok tt ->
     consume tokenBucketLimiter (getKey req) = Throw (RateLimiterRes ms) ->
     rateBot NODE_ENV true consume req =
       (Respond {| statusCode := 429;
                   headers := [("Retry-After", pretty (ceil_div_1000 ms))];
                   body := JObj [("success", JBool false);
                                 ("message",
                                  JStr "Too many requests, please try again later.");
                                 ("retryAfter", JNum (ceil_div_1000 ms))] |},
        [Consume "rl_main" (getKey req); Consume "rl_burst" (getKey req)])) /\
  (forall ms,
     consume l (getRateLimitKey req') = Throw (RateLimiterRes ms) ->
     perEndpointLimiter true consume req' =
       (Respond {| statusCode := 429;
                   headers := [("Retry-After", pretty (ceil_div_1000 ms))];
                   body := JObj [("message", JStr "Endpoint rate limit exceeded");
                                 ("retryAfterSeconds", JNum (ceil_div_1000 ms))] |},
        [Consume (keyPrefix l) (getRateLimitKey req')])) /\
  (forall ms,
     1000 * (ceil_div_1000 ms - 1) < ms <= 1000 * ceil_div_1000 ms /\
     (0 < ceil_div_1000 ms <-> 0 < ms)) /\
  (forall env ready c q r,
     fst (rateBot env ready c q) = Respond r -> statusCode r = 429 ->
     reaches_store env q = true /\ ready = true /\
     exists t,
       (c rateLimiterRedis (getKey q) = Throw (RateLimiterRes t) \/
        c rateLimiterRedis (getKey q) = Ok tt /\
        c tokenBucketLimiter (getKey q) = Throw (RateLimiterRes t)) /\
       r = too_many_requests (ceil_div_1000 t)) /\
  (forall ready c q r,
     fst (perEndpointLimiter ready c q) = Respond r ->
     ready = true /\
     exists k t, getLimiterForPath (path q) = Some k /\
       c k (getRateLimitKey q) = Throw (RateLimiterRes t) /\
       r = endpoint_limit_exceeded (ceil_div_1000 t)).
Proof.
  intros Hr Hl.
  split; [|split; [|split; [|split; [|split]]]].
  - intros ms Hc. rewrite rateBot_reaching by done. simpl.
    unfold consume_both. by rewrite Hc.
  - intros ms Hc1 Hc2. rewrite rateBot_reaching by done. simpl.
    unfold consume_both. by rewrite Hc1, Hc2.
  - intros ms Hc. unfold perEndpointLimiter. rewrite Hl. simpl. by rewrite Hc.
  - intros ms. pose proof (JsFacts.ceil_div_1000_spec ms). lia.
  - intros env ready c q r H Hs. unfold reaches_store.
    unfold rateBot in H. rewrite path_or_empty in H.
    destruct (not_production env); [done|].
    destruct (startsWith (path q) "/api/auth"); [done|].
    destruct (isBotUserAgent q); [simpl in H; by simplify_eq|].
    destruct ready; [|done]. simpl in *. unfold consume_both in H.
    destruct (c rateLimiterRedis (getKey q)) as [[]|[t|m]] eqn:E1; simpl in *.
    + destruct (c tokenBucketLimiter (getKey q)) as [[]|[t|m]] eqn:E2; simpl in *;
        simplify_eq. eauto 10.
    + simplify_eq. eauto 10.
    + simplify_eq.
  - intros ready c q r H. unfold perEndpointLimiter in H.
    destruct (getLimiterForPath (path q)) as [k|]; [|done].
    destruct ready; [|done]. simpl in *.
    destruct (c k (getRateLimitKey q)) as [[]|[t|m]] eqn:E; simpl in *; simplify_eq.
    split; [done|]. eauto.
Qed.

Lemma rejection_carries_retry_after_witness :
  rateBot (Some "production") true Demo.burst_exhausted Demo.browser =
    (Respond {| statusCode := 429;
                headers := [("Retry-After", "1")];
                body := JObj [("success", JBool false);
                              ("message", JStr "Too many requests, please try again later.");
                              ("retryAfter", JNum 1)] |},
     [Consume "rl_main" "user-1"; Consume "rl_burst" "user-1"]) /\
  rateBot (Some "production") true Demo.exhausted Demo.browser =
    (Respond {| statusCode := 429;
                headers := [("Retry-After", "2")];
                body := JObj [("success", JBool false);
                              ("message", JStr "Too many requests, please try again later.");
                              ("retryAfter", JNum 2)] |},
     [Consume "rl_main" "user-1"]) /\
  perEndpointLimiter true Demo.exhausted Demo.users_page =
    (Respond {| statusCode := 429;
                headers := [("Retry-After", "2")];
                body := JObj [("message", JStr "Endpoint rate limit exceeded");
                              ("retryAfterSeconds", JNum 2)] |},
     [Consume "endpoint_users" "user-1"]).
Proof.
  destruct (rejection_carries_retry_after (Some "production") Demo.burst_exhausted
              Demo.browser Demo.users_page
              {| keyPrefix := "endpoint_users"; points := 50;
                 duration := 900; blockDuration := Some 60 |})
    as (_ & Hburst & _); [reflexivity|reflexivity|].
  destruct (rejection_carries_retry_after (Some "production") Demo.exhausted
              Demo.browser Demo.users_page
              {| keyPrefix := "endpoint_users"; points := 50;
                 duration := 900; blockDuration := Some 60 |})
    as (Hmain & _ & Hend & _); [reflexivity|reflexivity|].
  split; [exact (Hburst 400 eq_refl eq_refl)|].
  split; [exact (Hmain 1500 eq_refl) | exact (Hend 1500 eq_refl)].
Defined.

(** ** Extras: the middlewares *)

Lemma getKey_not_empty req : getKey req <> "".
Proof.
  unfold getKey.
  destruct (given (userId req)) as [u|] eqn:Eu.
  - apply JsFacts.given_Some in Eu as [_ Hu]. by destruct u.
  - destruct (given (ip req)) as [a|] eqn:Ea; [|done].
    apply JsFacts.given_Some in Ea as [_ Ha]. by destruct a.
Qed.

(** X12: an error of a limiter that is not a quota rejection never
    turns a request away.  When the distributed limiter fails,
    [rateBot] logs the error and hands the request to the next handler
    without asking the burst limiter; when the distributed limiter
    grants and the burst limiter fails, it does the same after both
    were consumed; [perEndpointLimiter] does the same when the limiter
    of the endpoint fails. *)
Theorem unexpected_limiter_errors_fail_open NODE_ENV consume req req' l :
  reaches_store NODE_ENV req = true ->
  getLimiterForPath (path req') = Some l ->
  (forall msg,
     consume rateLimiterRedis (getKey req) = Throw (Unexpected msg) ->
     rateBot NODE_ENV true consume req =
       (Next, [Consume "rl_main" (getKey req);
               Log error "[rate-limit] unexpected error:"])) /\
  (forall msg,
     consume rateLimiterRedis (getKey req) = Ok tt ->
     consume tokenBucketLimiter (getKey req) = Throw (Unexpected msg) ->
     rateBot NODE_ENV true consume req =
       (Next, [Consume "rl_main" (getKey req); Consume "rl_burst" (getKey req);
               Log error "[rate-limit] unexpected error:"])) /\
  (forall msg,
     consume l (getRateLimitKey req') = Throw (Unexpected msg) ->
     perEndpointLimiter true consume req' =
       (Next, [Consume (keyPrefix l) (getRateLimitKey req');
               Log error "[rate-limit] unexpected error:"])).
Proof.
  intros Hr Hl. split; [|split].
  - intros msg Hc. rewrite rateBot_reaching by done. simpl.
    unfold consume_both. by rewrite Hc.
  - intros msg Hc1 Hc2. rewrite rateBot_reaching by done. simpl.
    unfold consume_both. by rewrite Hc1, Hc2.
  - intros msg Hc. unfold perEndpointLimiter. rewrite Hl. simpl. by rewrite Hc.
Qed.

Lemma unexpected_limiter_errors_fail_open_witness :
  let broken := fun (_ : Limiter) (_ : string) =>
                  (Throw (Unexpected "ECONNRESET") : result Thrown unit) in
  rateBot (Some "production") true Samples.burst_broken Demo.browser =
    (Next, [Consume "rl_main" "user-1"; Consume "rl_burst" "user-1";
            Log error "[rate-limit] unexpected error:"]) /\
  rateBot (Some "production") true broken Demo.browser =
    (Next, [Consume "rl_main" "user-1"; Log error "[rate-limit] unexpected error:"]) /\
  perEndpointLimiter true broken Demo.users_page =
    (Next, [Consume "endpoint_users" "user-1";
            Log error "[rate-limit] unexpected error:"]).
Proof.
  intros broken.
  destruct (unexpected_limiter_errors_fail_open (Some "production") Samples.burst_broken
              Demo.browser Demo.users_page
              {| keyPrefix := "endpoint_users"; points := 50;
                 duration := 900; blockDuration := Some 60 |})
    as (_ & Hburst & _); [reflexivity|reflexivity|].
  destruct (unexpected_limiter_errors_fail_open (Some "production") broken
              Demo.browser Demo.users_page
              {| keyPrefix := "endpoint_users"; points := 50;
                 duration := 900; blockDuration := Some 60 |})
    as (Hmain & _ & Hend); [reflexivity|reflexivity|].
  split; [exact (Hburst "ECONNRESET" eq_refl eq_refl)|].
  split; [exact (Hmain "ECONNRESET" eq_refl) | exact (Hend "ECONNRESET" eq_refl)].
Defined.

(** X13: [rateBot] answers only with 403 or 429; it consumes a limiter
    only for a request that got as far as the store check with Redis
    ready, always under the key of the request (the user id when
    there is one, else the address, else [anonymous]; never the empty
    string), and the burst limiter only after the distributed limiter
    granted the request. *)
Theorem rateBot_consumes_in_order NODE_ENV redisReady consume req :
  (forall r, fst (rateBot NODE_ENV redisReady consume req) = Respond r ->
     statusCode r = 403 \/ statusCode r = 429) /\
  (forall prefix k,
     In (Consume prefix k) (snd (rateBot NODE_ENV redisReady consume req)) ->
     reaches_store NODE_ENV req = true /\ redisReady = true /\
     k = getKey req /\ k <> "" /\
     (prefix = "rl_main" \/
      prefix = "rl_burst" /\ consume rateLimiterRedis k = Ok tt)) /\
  (forall u, given (userId req) = Some u -> getKey req = u).
Proof.
  split; [|split].
  - intros r. unfold rateBot. repeat case_match; simplify_eq/=; intros; simplify_eq/=; auto.
  - intros prefix k. unfold reaches_store, rateBot. rewrite path_or_empty.
    destruct (not_production NODE_ENV); [done|].
    destruct (startsWith (path req) "/api/auth"); [done|].
    destruct (isBotUserAgent req); [done|].
    destruct redisReady; simpl; [|by intros [|[]]].
    pose proof (getKey_not_empty req) as Hne.
    unfold consume_both.
    destruct (consume rateLimiterRedis (getKey req)) as [[]|[t|m]] eqn:E1; simpl.
    + destruct (consume tokenBucketLimiter (getKey req)) as [[]|[t|m]] eqn:E2; simpl;
        intros H; repeat (destruct H as [H|H]; [simplify_eq; auto 10|]); done.
    + intros H; repeat (destruct H as [H|H]; [simplify_eq; auto 10|]); done.
    + intros H; repeat (destruct H as [H|H]; [simplify_eq; auto 10|]); done.
  - intros u Hu. unfold getKey. by rewrite Hu.
Qed.

Lemma rateBot_consumes_in_order_witness :
  snd (rateBot (Some "production") true Demo.granting Demo.browser)
    = [Consume "rl_main" "user-1"; Consume "rl_burst" "user-1"] /\
  getKey Demo.browser = "user-1".
Proof.
  split; [reflexivity|].
  apply (proj2 (proj2 (rateBot_consumes_in_order (Some "production") true
                         Demo.granting Demo.browser))).
  reflexivity.
Defined.

Lemma getLimiterForPath_by_prefix p :
  getLimiterForPath p =
    if startsWith p "/api/users"
    then Some {| keyPrefix := "endpoint_users"; points := 50;
                 duration := 900; blockDuration := Some 60 |}
    else if startsWith p "/api/adventures"
         then Some {| keyPrefix := "endpoint_adventures"; points := 200;
                      duration := 900; blockDuration := Some 30 |}
         else None.
Proof.
  unfold getLimiterForPath, endpointRules. cbn -[startsWith].
  by repeat case_match.
Qed.

(** X14: [perEndpointLimiter] leaves a path that starts with neither
    /api/users nor /api/adventures alone, whatever the state of Redis:
    [next] is called and nothing is logged or consumed.  A path under
    one of the two prefixes is checked against the limiter of that
    prefix and no other. *)
Theorem perEndpointLimiter_selects_by_prefix redisReady consume req :
  (startsWith (path req) "/api/users" = false ->
   startsWith (path req) "/api/adventures" = false ->
   perEndpointLimiter redisReady consume req = (Next, [])) /\
  (forall prefix k,
     In (Consume prefix k) (snd (perEndpointLimiter redisReady consume req)) ->
     redisReady = true /\ k = getKey req /\
     (startsWith (path req) "/api/users" = true /\ prefix = "endpoint_users" \/
      startsWith (path req) "/api/users" = false /\
      startsWith (path req) "/api/adventures" = true /\ prefix = "endpoint_adventures")) /\
  (startsWith (path req) "/api/users" = true ->
   exists l, getLimiterForPath (path req) = Some l /\
     keyPrefix l = "endpoint_users" /\ points l = 50 /\ duration l = 900 /\
     blockDuration l = Some 60).
Proof.
  split; [|split].
  - intros H1 H2. unfold perEndpointLimiter.
    by rewrite getLimiterForPath_by_prefix, H1, H2.
  - intros prefix k. unfold perEndpointLimiter, getRateLimitKey.
    rewrite getLimiterForPath_by_prefix.
    destruct (startsWith (path req) "/api/users") eqn:E1.
    + destruct redisReady; cbn -[startsWith]; [|by intros [|[]]].
      destruct (consume _ _) as [[]|[t|m]]; cbn -[startsWith];
        intros H; repeat (destruct H as [H|H]; [simplify_eq; auto 10|]); done.
    + destruct (startsWith (path req) "/api/adventures") eqn:E2; [|done].
      destruct redisReady; cbn -[startsWith]; [|by intros [|[]]].
      destruct (consume _ _) as [[]|[t|m]]; cbn -[startsWith];
        intros H; repeat (destruct H as [H|H]; [simplify_eq; auto 10|]); done.
  - intros H1. rewrite getLimiterForPath_by_prefix, H1. eauto 10.
Qed.

Lemma perEndpointLimiter_selects_by_prefix_witness :
  perEndpointLimiter false Demo.exhausted Demo.browser = (Next, []).
Proof.
  apply (proj1 (perEndpointLimiter_selects_by_prefix false Demo.exhausted Demo.browser));
    reflexivity.
Defined.

(** X15: the variant of [rateBot] built on express-rate-limit decides
    like the Redis-backed one before any limiter is involved: a
    request that does not get as far as the store check gets the same
    answer from both, and every other request is handed to the
    limiter. *)
Theorem rateBot_variants_agree NODE_ENV redisReady consume limiter req :
  (reaches_store NODE_ENV req = false ->
   Sanitize.rateBot NODE_ENV limiter req = fst (rateBot NODE_ENV redisReady consume req) /\
   snd (rateBot NODE_ENV redisReady consume req) = []) /\
  (reaches_store NODE_ENV req = true ->
   Sanitize.rateBot NODE_ENV limiter req = limiter req).
Proof.
  unfold reaches_store, Sanitize.rateBot, rateBot, isBotUserAgent.
  rewrite path_or_empty.
  destruct (not_production NODE_ENV);
    [split; [intros _; by split | intros [=]]|].
  destruct (startsWith (path req) "/api/auth");
    [split; [intros _; by split | intros [=]]|].
  destruct (_ || _ || _)%bool;
    [split; [intros _; by split | intros [=]]|].
  split; [intros [=] | done].
Qed.

Lemma rateBot_variants_agree_witness :
  Sanitize.rateBot (Some "production") (fun _ => Next) Demo.crawler
    = Respond bots_not_allowed /\
  fst (rateBot (Some "production") true Demo.granting Demo.crawler)
    = Respond bots_not_allowed.
Proof.
  destruct (proj1 (rateBot_variants_agree (Some "production") true Demo.granting
                     (fun _ => Next) Demo.crawler) eq_refl) as [H _].
  split; [|reflexivity]. rewrite H. reflexivity.
Defined.

End RateLimitFacts.
(** ** Extras: the log sanitizer and the request sanitizer *)

Module ValueFacts.

Import SecureLogger Sanitize.

(** Induction over values, with the hypothesis for every item of an
    array and for every value of an object. *)
Lemma json_nested_ind (P : json -> Prop) :
  P JNull ->
  (forall b, P (JBool b)) ->
  (forall n, P (JNum n)) ->
  (forall s, P (JStr s)) ->
  (forall items, Forall P items -> P (JArr items)) ->
  (forall fields, Forall (fun entry => P (snd entry)) fields -> P (JObj fields)) ->
  forall v, P v.
Proof.
  intros Hnull Hbool Hnum Hstr Harr Hobj.
  fix IH 1.
  intros [|b|n|s|items|fields];
    [exact Hnull | apply Hbool | apply Hnum | apply Hstr | | ].
  - apply Harr. induction items as [|x xs IHxs]; constructor; [apply IH|exact IHxs].
  - apply Hobj. induction fields as [|[k x] xs IHxs]; constructor; [apply IH|exact IHxs].
Qed.

Lemma marker_is_discreet : looks_like_secret "[REDACTED]" = false.
Proof. reflexivity. Qed.

Lemma sanitizeObject_discreet v : forall depth, discreet (sanitizeObject v depth) = true.
Proof.
  induction v as [|b|n|s|items IH|fields IH] using json_nested_ind; intros depth;
    simpl; destruct (Nat.ltb 10 depth); try reflexivity.
  - destruct (looks_like_secret s) eqn:E; simpl; [reflexivity|by rewrite E].
  - simpl. apply forallb_forall. intros x Hx.
    apply in_map_iff in Hx as (y & <- & Hy).
    rewrite Forall_forall in IH. by apply IH, list_elem_of_In.
  - simpl. apply forallb_forall. intros x Hx.
    apply in_map_iff in Hx as ([k y] & <- & Hy).
    rewrite Forall_forall in IH.
    destruct (isSensitive k) eqn:E; simpl; [reflexivity|].
    apply (IH (k, y)). by apply list_elem_of_In.
Qed.



(** X8: whatever [sanitizeObject] returns, at whatever depth it is
    entered, shows no string that looks like a secret and has the
    redaction marker under every sensitive key, at every level; so
    does what [secureLog] hands to the logger. *)
Theorem sanitizer_output_is_discreet :
  (forall v depth, discreet (sanitizeObject v depth) = true) /\
  (forall l message data v,
     line_data (secureLog l message data) = Some v -> discreet v = true).
Proof.
  split; [apply sanitizeObject_discreet|].
  intros l message [d|] v; simpl; [|done].
  destruct (JsValue.truthy_value d); [|done].
  intros [= <-]. apply sanitizeObject_discreet.
Qed.



(** A password, a bearer-like token under a harmless key, and a value
    nested too deep. *)
Example sanitizer_examples :
  sanitizeObject
    (JObj [("user", JStr "ada"); ("Password", JStr "hunter2");
           ("note", JStr "QWxhZGRpbjpvcGVuIHNlc2FtZQ==");
           ("apiKey", JObj [("id", JNum 1)])]) 0
  = JObj [("user", JStr "ada"); ("Password", JStr "[REDACTED]");
          ("note", JStr "[REDACTED]"); ("apiKey", JStr "[REDACTED]")] /\
  sanitizeObject (JArr [JArr [JStr "deep"]]) 10 = JArr [JStr "[Max Depth Reached]"].
Proof. vm_compute. auto. Qed.

(** *** [strip] *)

Lemma strip_plain v : plain (strip v) = true.
Proof.
  induction v as [|b|n|s|items IH|fields IH] using json_nested_ind; try reflexivity.
  - simpl. apply forallb_forall. intros x Hx.
    apply in_map_iff in Hx as (y & <- & Hy).
    rewrite Forall_forall in IH. by apply IH, list_elem_of_In.
  - simpl. induction fields as [|[k x] rest IHrest]; [reflexivity|].
    apply Forall_cons in IH as [Hx Hrest]. simpl in Hx.
    destruct (operator_key k) eqn:E; [by apply IHrest|].
    destruct (proto_key k) eqn:E'; [by apply IHrest|].
    simpl. rewrite E, E', Hx. simpl. by apply IHrest.
Qed.

Lemma plain_operator_free v : plain v = true -> operator_free v = true.
Proof.
  induction v as [|b|n|s|items IH|fields IH] using json_nested_ind; try reflexivity.
  - simpl. rewrite !forallb_forall. intros Hp x Hx.
    rewrite Forall_forall in IH. apply IH; [by apply list_elem_of_In|by apply Hp].
  - simpl. induction fields as [|[k x] rest IHrest]; [reflexivity|].
    apply Forall_cons in IH as [Hx Hrest]. simpl in Hx. simpl. intros Hp.
    apply andb_true_iff in Hp as [Hk Hp]. apply andb_true_iff in Hk as [Hk Hpx].
    apply andb_true_iff in Hk as [Hk _].
    rewrite Hk, (Hx Hpx). simpl. by apply IHrest.
Qed.

Lemma strip_operator_free v : operator_free (strip v) = true.
Proof. apply plain_operator_free, strip_plain. Qed.

Lemma strip_keeps_plain v : plain v = true -> strip v = v.
Proof.
  induction v as [|b|n|s|items IH|fields IH] using json_nested_ind; try reflexivity.
  - simpl. intros Hf. f_equal. rewrite <- (map_id items) at 2. apply map_ext_in.
    intros x Hx. rewrite Forall_forall in IH. rewrite forallb_forall in Hf.
    apply IH; [by apply list_elem_of_In|by apply Hf].
  - simpl. intros Hf. f_equal.
    induction fields as [|[k x] rest IHrest]; [reflexivity|].
    apply Forall_cons in IH as [Hx Hrest]. simpl in Hx, Hf.
    apply andb_true_iff in Hf as [Hkx Hf]. apply andb_true_iff in Hkx as [Hk Hfx].
    apply andb_true_iff in Hk as [Hk Hp].
    apply negb_true_iff in Hk, Hp. rewrite Hk, Hp.
    f_equal; [by rewrite Hx|by apply IHrest].
Qed.

Lemma strip_keys fields :
  match strip (JObj fields) with
  | JObj kept =>
      List.map fst kept
      = List.filter (fun k => (negb (operator_key k) && negb (proto_key k))%bool)
          (List.map fst fields)
  | _ => False
  end.
Proof.
  simpl. induction fields as [|[k x] rest IH]; [reflexivity|]. simpl.
  destruct (operator_key k); simpl; [exact IH|].
  destruct (proto_key k); simpl; [exact IH|by f_equal].
Qed.

(** X10: what [strip] returns has no key, at any depth, that starts
    with a dollar sign or contains a dot, and none that is
    [__proto__]; the entries it keeps of an object are those under the
    other keys, in their order; a value without such keys is returned
    as it is, so stripping twice is stripping once. *)
Theorem strip_removes_operator_keys v :
  operator_free (strip v) = true /\
  plain (strip v) = true /\
  (plain v = true -> strip v = v) /\
  strip (strip v) = strip v /\
  (forall fields, v = JObj fields ->
     exists kept, strip v = JObj kept /\
       List.map fst kept
       = List.filter (fun k => (negb (operator_key k) && negb (proto_key k))%bool)
           (List.map fst fields)).
Proof.
  split; [apply strip_operator_free|].
  split; [apply strip_plain|].
  split; [apply strip_keeps_plain|].
  split; [apply strip_keeps_plain, strip_plain|].
  intros fields ->. pose proof (strip_keys fields) as H.
  destruct (strip (JObj fields)) as [| | | | |kept]; try done. eauto.
Qed.

Lemma strip_removes_operator_keys_witness :
  strip (JObj [("email", JObj [("$gt", JStr "")]); ("$where", JStr "1");
               ("profile.role", JStr "admin"); ("name", JStr "Ada")])
  = JObj [("email", JObj []); ("name", JStr "Ada")] /\
  strip (JObj [("__proto__", JObj [("isAdmin", JBool true)]); ("name", JStr "Ada")])
  = JObj [("name", JStr "Ada")] /\
  strip (JObj [("name", JStr "Ada")]) = JObj [("name", JStr "Ada")].
Proof.
  split; [vm_compute; reflexivity|]. split; [vm_compute; reflexivity|].
  apply (proj1 (proj2 (proj2 (strip_removes_operator_keys (JObj [("name", JStr "Ada")]))))).
  reflexivity.
Defined.

(** X11: after the middleware, the body, the query and the route
    parameters of the request hold no operator key at any depth,
    whatever they held before. *)
Theorem sanitize_cleans_every_part req v :
  body (sanitize req) = Some v \/ query (sanitize req) = Some v \/
  params (sanitize req) = Some v ->
  operator_free v = true.
Proof.
  assert (H : forall x, cleaned x = Some v -> operator_free v = true).
  { intros [x|]; unfold cleaned; simpl; [|done].
    destruct (JsValue.truthy_value x) eqn:E; simpl.
    - intros [= <-]. apply strip_operator_free.
    - intros [= <-]. by destruct x. }
  intros [Hb|[Hq|Hp]];
    [apply (H (body req)) | apply (H (query req)) | apply (H (params req))];
    assumption.
Qed.

Lemma sanitize_cleans_every_part_witness :
  operator_free (JObj [("email", JObj [])]) = true.
Proof.
  apply (sanitize_cleans_every_part
           {| body := Some (JObj [("email", JObj [("$ne", JNull)])]);
              query := None; params := None |}).
  left. reflexivity.
Defined.

End ValueFacts.


(** ** Extras: the in-memory throttler *)

Module ThrottlerFacts.

Import Throttler.

Lemma in_recent (windowMs now t : Z) (recorded : list Z) :
  In t (List.filter (fun time => now - time <? windowMs) recorded) <->
  In t recorded /\ now - t < windowMs.
Proof. rewrite List.filter_In. by rewrite Z.ltb_lt. Qed.

(** X20: a request touches the record of its own key only.  It is let
    through exactly when fewer than [maxRequests] recorded times are
    still in the window.  Afterwards the key is registered; its record
    keeps the recorded times that are still in the window, holds no
    time that has left it, and nothing new except the arrival time of a
    request that was let through, so the record of a passed request
    never holds more than [maxRequests] times. *)
Theorem throttleRequests_keeps_window maxRequests windowMs key now requestTimes :
  let recorded := default [] (requestTimes !! key) in
  let recent := List.filter (fun time => now - time <? windowMs) recorded in
  let r := throttleRequests maxRequests windowMs key now requestTimes in
  (forall other, other <> key -> snd r !! other = requestTimes !! other) /\
  (fst r = Pass <-> Z.of_nat (length recent) < maxRequests) /\
  exists times,
    snd r !! key = Some times /\
    (forall t, In t times ->
       (In t recorded /\ now - t < windowMs) \/ (t = now /\ fst r = Pass)) /\
    (forall t, In t recorded -> now - t < windowMs -> In t times) /\
    (fst r = Pass -> Z.of_nat (length times) <= maxRequests /\ In now times) /\
    (fst r <> Pass -> maxRequests <= Z.of_nat (length times)).
Proof.
  intros recorded recent r. subst r. unfold throttleRequests. fold recorded. fold recent.
  assert (Hin : forall t, In t recent <-> In t recorded /\ now - t < windowMs)
    by (intros t; apply in_recent).
  destruct (maxRequests <=? Z.of_nat (length recent)) eqn:E; simpl.
  - apply Z.leb_le in E. split; [intros other Hne; by rewrite lookup_insert_ne|].
    split; [split; [by destruct recent | lia]|].
    exists recent. split; [by rewrite lookup_insert_eq|].
    split; [intros t Ht; left; by apply Hin|].
    split; [intros t H1 H2; by apply Hin|].
    split; [by destruct recent | intros _; exact E].
  - apply Z.leb_gt in E. split; [intros other Hne; by rewrite lookup_insert_ne|].
    split; [done|].
    exists (recent ++ [now]). split; [by rewrite lookup_insert_eq|].
    split.
    { intros t Ht. apply in_app_or in Ht as [Ht | [<- | []]]; [left; by apply Hin | by right]. }
    split; [intros t H1 H2; apply in_or_app; left; by apply Hin|].
    split; [|done]. intros _. rewrite length_app. simpl.
    split; [lia | apply in_or_app; right; by left].
Qed.

(** X21: with a positive limit and a clock that does not run
    backwards, a request that is not let through is delayed by a
    positive time of at most one window, namely the time until the
    oldest recorded request leaves the window, so the clamp to 0 never
    applies and the delay is always a number.  When the timer fires and
    the client is still there, the request is recorded and passed on
    without another check; a client that is gone leaves no trace. *)
Theorem throttleRequests_delay maxRequests windowMs key now requestTimes :
  0 < maxRequests ->
  Forall (fun time => time <= now) (default [] (requestTimes !! key)) ->
  let r := throttleRequests maxRequests windowMs key now requestTimes in
  (fst r = Pass \/
   exists oldest rest,
     snd r !! key = Some (oldest :: rest) /\
     fst r = Timer (windowMs - (now - oldest)) /\
     0 < windowMs - (now - oldest) <= windowMs) /\
  (forall later,
     delayed key later true (snd r) = Some (false, snd r) /\
     exists times,
       snd r !! key = Some times /\
       delayed key later false (snd r) = Some (true, <[key := times ++ [later]]> (snd r))).
Proof.
  intros Hmax Hclock r. subst r. unfold throttleRequests.
  set (recorded := default [] (requestTimes !! key)) in *.
  set (recent := List.filter _ recorded).
  assert (Hin : forall t, In t recent <-> In t recorded /\ now - t < windowMs)
    by (intros t; apply in_recent).
  destruct (maxRequests <=? Z.of_nat (length recent)) eqn:E; simpl.
  - apply Z.leb_le in E. split.
    + right. destruct recent as [|oldest rest] eqn:Er; [simpl in E; lia|].
      exists oldest, rest. split; [by rewrite lookup_insert_eq|].
      assert (Ho : In oldest recorded /\ now - oldest < windowMs)
        by (apply Hin; by left).
      destruct Ho as [Ho1 Ho2].
      rewrite List.Forall_forall in Hclock. specialize (Hclock _ Ho1). simpl in Hclock.
      split; [f_equal; lia | lia].
    + intros later. split; [done|]. exists recent.
      unfold delayed. rewrite lookup_insert_eq. done.
  - split; [by left|]. intros later. split; [done|]. exists (recent ++ [now]).
    unfold delayed. rewrite lookup_insert_eq. done.
Qed.

End ThrottlerFacts.

Lemma throttleRequests_delay_witness :
  let busy : gmap string (list Z) := {[ "203.0.113.7" := [1000; 1200] ]} in
  let r := Throttler.throttleRequests 2 1000 "203.0.113.7" 1500 busy in
  Forall (fun time => time <= 1500) (default [] (busy !! "203.0.113.7")) /\
  (fst r = Throttler.Pass \/
   exists oldest rest,
     snd r !! "203.0.113.7" = Some (oldest :: rest) /\
     fst r = Throttler.Timer (1000 - (1500 - oldest)) /\
     0 < 1000 - (1500 - oldest) <= 1000) /\
  (forall later,
     Throttler.delayed "203.0.113.7" later true (snd r) = Some (false, snd r) /\
     exists times,
       snd r !! "203.0.113.7" = Some times /\
       Throttler.delayed "203.0.113.7" later false (snd r)
       = Some (true, <["203.0.113.7" := times ++ [later]]> (snd r))).
Proof.
  cbv zeta.
  assert (H : Forall (fun time => time <= 1500)
                (default [] (({[ "203.0.113.7" := [1000; 1200] ]} : gmap string (list Z))
                             !! "203.0.113.7"))).
  { rewrite lookup_singleton_eq. simpl. repeat constructor; lia. }
  split; [exact H|].
  apply (ThrottlerFacts.throttleRequests_delay 2 1000 "203.0.113.7" 1500
           {[ "203.0.113.7" := [1000; 1200] ]}); [lia | exact H].
Defined.

(** A full window delays the next request until the oldest one leaves
    it; a limit of zero makes the delay of a first request not a
    number. *)
Example throttleRequests_examples :
  fst (Throttler.throttleRequests 2 1000 "203.0.113.7" 1500
         {[ "203.0.113.7" := [1000; 1200] ]}) = Throttler.Timer 500 /\
  fst (Throttler.throttleRequests 2 1000 "203.0.113.7" 2100
         {[ "203.0.113.7" := [1000; 1200] ]}) = Throttler.Pass /\
  fst (Throttler.throttleRequests 0 1000 "203.0.113.7" 1500 ∅) = Throttler.TimerNaN.
Proof. vm_compute. auto. Qed.


(** ** Extras: trimming and splitting *)

Module JsStringFacts.

Import JsString.

Lemma trimStart_head s a t : trimStart s = String a t -> is_white_space a = false.
Proof.
  induction s as [|b s IH]; simpl; [done|].
  destruct (is_white_space b) eqn:E; [done|]. by intros [= <- _].
Qed.

Lemma trimStart_fixed a t : is_white_space a = false -> trimStart (String a t) = String a t.
Proof. intros H. simpl. by rewrite H. Qed.

Lemma trimStart_idem s : trimStart (trimStart s) = trimStart s.
Proof.
  destruct (trimStart s) as [|a t] eqn:E; [done|].
  apply trimStart_fixed. by apply trimStart_head in E.
Qed.

Lemma trimEnd_idem s : trimEnd (trimEnd s) = trimEnd s.
Proof.
  induction s as [|a s IH]; simpl; [done|].
  destruct (trimEnd s) as [|b t] eqn:E.
  - destruct (is_white_space a) eqn:Ea; simpl; [done | by rewrite Ea].
  - change (trimEnd (String a (String b t))) with
      (match trimEnd (String b t) with
       | EmptyString => if is_white_space a then EmptyString else String a EmptyString
       | String b' t' => String a (String b' t')
       end).
    by rewrite IH.
Qed.

Lemma trimEnd_head a t :
  is_white_space a = false -> exists t', trimEnd (String a t) = String a t'.
Proof. intros H. simpl. rewrite H. destruct (trimEnd t); eauto. Qed.

Lemma trim_fixed s : trimStart (trim s) = trim s /\ trimEnd (trim s) = trim s.
Proof.
  unfold trim. split; [|apply trimEnd_idem].
  destruct (trimStart s) as [|a t] eqn:E; [done|].
  apply trimStart_head in E.
  destruct (trimEnd_head a t E) as [t' ->]. by apply trimStart_fixed.
Qed.

Lemma trim_idem s : trim (trim s) = trim s.
Proof.
  destruct (trim_fixed s) as [H1 H2]. unfold trim at 1. by rewrite H1.
Qed.

(** [s.includes(c)] for a single character. *)
Lemma includes_char a s c :
  includes (String a s) (String c EmptyString)
  = (Ascii.eqb c a || includes s (String c EmptyString))%bool.
Proof. simpl. by destruct (Ascii.eqb c a). Qed.

Lemma includes_char_empty c : includes EmptyString (String c EmptyString) = false.
Proof. done. Qed.

Lemma trimStart_char c s :
  includes s (String c EmptyString) = false ->
  includes (trimStart s) (String c EmptyString) = false.
Proof.
  induction s as [|a s IH]; [done|]. intros H. cbn [trimStart].
  destruct (is_white_space a); [|done].
  rewrite includes_char in H. apply orb_false_iff in H as [_ H]. by apply IH.
Qed.

Lemma trimEnd_char c s :
  includes s (String c EmptyString) = false ->
  includes (trimEnd s) (String c EmptyString) = false.
Proof.
  induction s as [|a s IH]; [done|]. intros H.
  rewrite includes_char in H. apply orb_false_iff in H as [Ha H].
  specialize (IH H). cbn [trimEnd].
  destruct (trimEnd s) as [|b t].
  - destruct (is_white_space a); [done|]. rewrite includes_char, Ha. done.
  - rewrite includes_char, Ha. exact IH.
Qed.

Lemma split_pieces sep s piece :
  In piece (split sep s) -> includes piece (String sep EmptyString) = false.
Proof.
  revert piece. induction s as [|a s IH]; intros piece; cbn [split].
  - intros [<- | []]. done.
  - destruct (Ascii.eqb a sep) eqn:E.
    + intros [<- | H]; [done | by apply IH].
    + destruct (split sep s) as [|p ps] eqn:Es.
      * intros [<- | []]. rewrite includes_char.
        rewrite Ascii.eqb_sym, E. done.
      * intros [<- | H].
        -- rewrite includes_char, Ascii.eqb_sym, E. apply IH. by left.
        -- apply IH. by right.
Qed.

Lemma truthy_spec s : truthy s = true <-> s <> EmptyString.
Proof. by destruct s. Qed.

End JsStringFacts.

(** ** Extras: the address filter *)

Module IpFilterFacts.

Import JsString IpFilter JsStringFacts.

(** X22: every entry of a parsed list is non-empty, has no white space
    at either end, and holds no comma; an absent or empty setting gives
    the empty list. *)
Theorem parseList_entries (value : option string) :
  (forall entry, In entry (parseList value) ->
     entry <> EmptyString /\ trim entry = entry /\ includes entry "," = false) /\
  (given value = None -> parseList value = []).
Proof.
  unfold parseList. split; [|by intros ->].
  intros entry. destruct (given value) as [v|]; [|done].
  rewrite List.filter_In, List.in_map_iff.
  intros [(piece & <- & Hin) Ht].
  split; [by apply truthy_spec|]. split; [apply trim_idem|].
  unfold trim. apply trimEnd_char, trimStart_char. by apply split_pieces in Hin.
Qed.

(** X23: the filter answers 403 or lets the request through, and logs
    a warning exactly when it refuses.  With no list configured every
    request passes.  A match of the deny list refuses whatever the
    allow list says.  When the request carries a non-empty
    [x-forwarded-for] header the decision is taken on that header
    alone: the address of the socket is not looked at. *)
Theorem ipFilter_decides (allowList denyList : option string) (req : Request) :
  let r := ipFilter allowList denyList req in
  (fst r = RateLimit.Next /\ snd r = [] \/
   fst r = RateLimit.Respond forbidden /\ exists text, snd r = [RateLimit.Log warn text]) /\
  (parseList allowList = [] -> parseList denyList = [] -> fst r = RateLimit.Next) /\
  (forall block otherAllowList,
     In block (parseList denyList) -> includes (address req) block = true ->
     fst (ipFilter otherAllowList denyList req) = RateLimit.Respond forbidden) /\
  (forall forwarded socket,
     forwardedFor req = Some forwarded -> forwarded <> EmptyString ->
     ipFilter allowList denyList
       {| forwardedFor := Some forwarded; remoteAddress := socket |} = r).
Proof.
  cbv zeta. unfold ipFilter, allow, deny. split; [|split; [|split]].
  - destruct (matches _ _); simpl; [right; eauto|].
    destruct (parseList allowList); [by left|].
    destruct (negb _); simpl; [right; eauto | by left].
  - intros -> ->. done.
  - intros block other Hin Hinc.
    assert (Hm : matches (parseList denyList) (address req) = true).
    { unfold matches. destruct (parseList denyList) as [|d ds] eqn:E; [done|].
      apply existsb_exists. eauto. }
    by rewrite Hm.
  - intros forwarded socket Hf Hne.
    assert (Ha : address {| forwardedFor := Some forwarded; remoteAddress := socket |}
                 = address req).
    { unfold address. simpl. rewrite Hf. simpl. by destruct forwarded. }
    by rewrite Ha.
Qed.

End IpFilterFacts.

Lemma parseList_entries_witness :
  In "192.168." (IpFilter.parseList (Some " 10.0.0.1, ,192.168. ")) /\
  JsString.trim "192.168." = "192.168." /\
  includes "192.168." "," = false.
Proof.
  assert (H : In "192.168." (IpFilter.parseList (Some " 10.0.0.1, ,192.168. ")))
    by (vm_compute; auto).
  split; [exact H|].
  exact (proj2 (proj1 (IpFilterFacts.parseList_entries _) _ H)).
Defined.

(** Entries match as substrings, and a forwarded header is believed:
    a deny entry for 10.0.0.1 also refuses 110.0.0.12, and a client
    outside the allow list passes by naming an allowed address. *)
Example ipFilter_examples :
  IpFilter.parseList (Some " 10.0.0.1, ,192.168. ") = ["10.0.0.1"; "192.168."] /\
  fst (IpFilter.ipFilter None (Some "10.0.0.1")
         {| IpFilter.forwardedFor := None; IpFilter.remoteAddress := Some "110.0.0.12" |})
  = RateLimit.Respond IpFilter.forbidden /\
  fst (IpFilter.ipFilter (Some "10.0.") None
         {| IpFilter.forwardedFor := None; IpFilter.remoteAddress := Some "203.0.113.7" |})
  = RateLimit.Respond IpFilter.forbidden /\
  fst (IpFilter.ipFilter (Some "10.0.") None
         {| IpFilter.forwardedFor := Some "10.0.0.5";
            IpFilter.remoteAddress := Some "203.0.113.7" |})
  = RateLimit.Next.
Proof. vm_compute. auto. Qed.


(** ** Extras: the error handler *)

Module ErrorHandlerFacts.

Import ErrorHandler.

Lemma has_status_spec c err : has_status c err = true <-> statusCode err = Some c.
Proof.
  unfold has_status. destruct (statusCode err) as [n|]; [|done].
  rewrite Z.eqb_eq. split; [by intros -> | by intros [= ->]].
Qed.

Lemma is_code_spec c err : is_code c err = true <-> code err = Some c.
Proof.
  unfold is_code. destruct (code err) as [n|]; [|done].
  rewrite Z.eqb_eq. split; [by intros -> | by intros [= ->]].
Qed.

(** X24: the handler never answers with status 0 or with an empty
    message: the status is one of 400, 401, 404, 429, 500 or the
    [statusCode] of the error.  An error with [statusCode] 429 is
    answered 429 with the fixed text whatever its name.  Token errors
    are answered 401 unless they carry 429.  Outside validation errors,
    an error that a rule recognises never has its own message sent to
    the client.  The stack and the request context are sent in
    development only. *)
Theorem errorHandler_answers (NODE_ENV : option string) (err : CustomError)
    (req : Request) :
  let a := errorHandler NODE_ENV err req in
  status a <> 0 /\
  answer_message a <> EmptyString /\
  (In (status a) [400; 401; 404; 429; 500] \/ statusCode err = Some (status a)) /\
  (statusCode err = Some 429 ->
   status a = 429 /\ answer_message a = "Too many requests, please try again later") /\
  (name err = "JsonWebTokenError" \/ name err = "TokenExpiredError" ->
   status a = 401 \/ status a = 429) /\
  (name err <> "ValidationError" ->
   name err = "CastError" \/ name err = "JsonWebTokenError" \/
   name err = "TokenExpiredError" \/ code err = Some 11000 \/ statusCode err = Some 429 ->
   In (answer_message a) fixed_messages) /\
  (development NODE_ENV = false -> answer_stack a = None /\ answer_context a = None).
Proof.
  cbv zeta. unfold errorHandler, pick.
  destruct (has_status 429 err) eqn:H429.
  { apply has_status_spec in H429. rewrite H429. simpl.
    repeat split; try done; try (intros; by destruct (development NODE_ENV)).
    - left. tauto.
    - tauto.
    - tauto. }
  assert (Hn429 : statusCode err <> Some 429)
    by (intros H; apply has_status_spec in H; congruence).
  destruct (String.eqb (name err) "TokenExpiredError") eqn:Ee.
  { apply String.eqb_eq in Ee. simpl.
    repeat split; try done; try (intros; by destruct (development NODE_ENV)); try tauto. }
  destruct (String.eqb (name err) "JsonWebTokenError") eqn:Ej.
  { apply String.eqb_eq in Ej. simpl.
    repeat split; try done; try (intros; by destruct (development NODE_ENV)); try tauto. }
  apply String.eqb_neq in Ee, Ej.
  destruct (String.eqb (name err) "ValidationError") eqn:Ev.
  { apply String.eqb_eq in Ev. simpl.
    split; [done|]. split; [by destruct (JsString.join _ _)|].
    split; [tauto|]. split; [done|]. split; [tauto|]. split; [done|].
    intros ->. done. }
  apply String.eqb_neq in Ev.
  destruct (is_code 11000 err) eqn:Ec.
  { simpl.
    repeat split; try done; try (intros; by destruct (development NODE_ENV)); try tauto. }
  assert (Hnc : code err <> Some 11000)
    by (intros H; apply is_code_spec in H; congruence).
  destruct (String.eqb (name err) "CastError") eqn:Ea.
  { simpl.
    repeat split; try done; try (intros; by destruct (development NODE_ENV)); try tauto. }
  apply String.eqb_neq in Ea. simpl.
  split.
  { destruct (statusCode err) as [n|]; [|done]. destruct (n =? 0) eqn:E0; [done|].
    by apply Z.eqb_neq in E0. }
  split; [by destruct (message err)|].
  split.
  { destruct (statusCode err) as [n|]; [|left; tauto].
    destruct (n =? 0) eqn:E0; [left; tauto | by right]. }
  split; [done|]. split; [tauto|]. split; [tauto|].
  intros ->. done.
Qed.

End ErrorHandlerFacts.

(** A validation error without messages is answered 400 with the text
    of an internal error; a duplicate key is answered 400 even when the
    error is a cast error. *)
Example errorHandler_examples :
  let plain := {| ErrorHandler.requestId := None; ErrorHandler.method := "GET";
                  ErrorHandler.url := "/api/tasks"; ErrorHandler.userAgent := None;
                  ErrorHandler.ip := None |} in
  let answer name code errors :=
    let a := ErrorHandler.errorHandler (Some "production")
               {| ErrorHandler.name := name; ErrorHandler.message := "E11000 dup key";
                  ErrorHandler.stack := Some "at Model.save"; ErrorHandler.statusCode := None;
                  ErrorHandler.code := code; ErrorHandler.errors := errors |} plain in
    (ErrorHandler.status a, ErrorHandler.answer_message a, ErrorHandler.answer_stack a) in
  answer "ValidationError" None None = (400, "Internal Server Error", None) /\
  answer "ValidationError" None (Some ["name is required"; "email is invalid"])
  = (400, "name is required, email is invalid", None) /\
  answer "CastError" (Some 11000) None = (400, "Duplicate field value entered", None) /\
  answer "MongoServerError" None None = (500, "E11000 dup key", None).
Proof. vm_compute. auto. Qed.


(** ** Extras: the authentication middlewares *)

Module AuthFacts.

Import JsString Auth.

Lemma slice_append (p rest : string) : slice (String.length p) (p +:+ rest) = rest.
Proof. induction p as [|a p IH]; [done | exact IH]. Qed.

Lemma bearer_header (rest : string) :
  given (Some ("Bearer " +:+ rest)) = Some ("Bearer " +:+ rest) /\
  startsWith ("Bearer " +:+ rest) "Bearer " = true /\
  slice 7 ("Bearer " +:+ rest) = rest.
Proof. done. Qed.

Section Token.

Variable verifyAccessToken : string -> result Error JWTPayload.

Local Abbreviation authenticateToken := (Auth.authenticateToken verifyAccessToken).

(** X25: [authenticateToken] calls [next] exactly when the header is
    [Bearer ] followed by a token that, trimmed, [verifyAccessToken]
    accepts, and the user context is then built from the decoded
    payload, with the role [user] when the payload names no roles.
    Every refusal is a 401 that carries a [WWW-Authenticate: Bearer]
    challenge; a header without the prefix is refused without the
    verifier being asked. *)
Theorem authenticateToken_decides (authorization : option string) :
  (forall user,
     authenticateToken authorization = Next user <->
     exists rest decoded,
       authorization = Some ("Bearer " +:+ rest) /\
       verifyAccessToken (trim rest) = Ok decoded /\
       user = context decoded) /\
  (forall r,
     authenticateToken authorization = Respond r ->
     RateLimit.statusCode r = 401 /\
     exists params,
       RateLimit.headers r = [("WWW-Authenticate", "Bearer error=" +:+ params)]) /\
  ((forall rest, authorization <> Some ("Bearer " +:+ rest)) ->
   authenticateToken authorization = Respond no_token).
Proof.
  unfold Auth.authenticateToken. split; [|split].
  - intros user. split.
    + destruct authorization as [h|]; cbn -[startsWith slice trim remove_first]; [|done].
      destruct (truthy h); [|done].
      destruct (startsWith h "Bearer ") eqn:Es; [|done].
      apply JsFacts.startsWith_spec in Es as [rest ->].
      change (slice 7 ("Bearer " +:+ rest)) with rest.
      destruct (verifyAccessToken (trim rest)) as [decoded|e] eqn:Ev.
      * intros [= <-]. by exists rest, decoded.
      * by destruct (String.eqb _ _).
    + intros (rest & decoded & -> & Hv & ->).
      destruct (bearer_header rest) as (-> & -> & ->). by rewrite Hv.
  - intros r. destruct (given authorization) as [h|].
    + destruct (startsWith h "Bearer ").
      * destruct (verifyAccessToken _); [done|].
        destruct (String.eqb _ _); intros [= <-]; (split; [done | eexists; reflexivity]).
      * intros [= <-]. split; [done | eexists; reflexivity].
    + intros [= <-]. split; [done | eexists; reflexivity].
  - intros Hno. destruct authorization as [h|]; cbn -[startsWith slice trim remove_first]; [|done].
    destruct (truthy h); [|done].
    destruct (startsWith h "Bearer ") eqn:Es; [|done].
    apply JsFacts.startsWith_spec in Es as [rest ->]. by destruct (Hno rest).
Qed.

End Token.

Lemma caught_answers (e : Error) :
  RateLimit.headers (caught e) = [] /\
  (RateLimit.statusCode (caught e) = 401 \/ caught e = internal_error).
Proof. unfold caught. repeat case_match; split; auto. Qed.

Section JWT.

Variable jwt_verify : string -> result Error JWTPayload.
Variable User_findById : string -> result Error (option User).
Variable isTokenRevoked : string -> result Error bool.

Local Abbreviation authenticateJWT :=
  (Auth.authenticateJWT jwt_verify User_findById isTokenRevoked).

(** The token the middleware reads from a header. *)
Local Abbreviation token_of authHeader := (trim (remove_first "Bearer " authHeader)).

Local Ltac membership Hin :=
  cbn -[trim remove_first] in Hin;
  repeat (destruct Hin as [Hin|Hin]; [try discriminate; try (injection Hin as <-)|]);
  try contradiction;
  eauto 10.

Local Ltac branch :=
  split; [|split; [|split; [|split]]];
  [ let Hr := fresh "Hr" in
    intros ? Hr; cbn -[trim remove_first] in Hr |- *;
    try discriminate; injection Hr as <-; intuition eauto
  | let Hn := fresh "Hn" in
    intros [Hn|Hn]; cbn -[trim remove_first] in Hn |- *;
    try discriminate; try contradiction; try reflexivity
  | let Hin := fresh "Hin" in intros ? Hin; membership Hin
  | let Hin := fresh "Hin" in intros ? Hin; membership Hin
  | let Hin := fresh "Hin" in intros ? Hin; membership Hin ].

(** X26: [authenticateJWT] calls [next] exactly when the header yields
    a non-empty token that [jwt.verify] accepts, the payload names a
    user id and an email, the user exists and is active, and either the
    payload has no token id or the revocation service answers that the
    id is not revoked.  A revocation service that fails therefore
    refuses the request. *)
Theorem authenticateJWT_admits (authorization : option string) (user : UserContext) :
  fst (authenticateJWT authorization) = Next user <->
  exists authHeader decoded id mail account,
    authorization = Some authHeader /\
    token_of authHeader <> EmptyString /\
    jwt_verify (token_of authHeader) = Ok decoded /\
    given (userId decoded) = Some id /\
    given (email decoded) = Some mail /\
    User_findById id = Ok (Some account) /\
    isActive account = true /\
    (given (jti decoded) = None \/
     exists tokenId, given (jti decoded) = Some tokenId /\
                     isTokenRevoked tokenId = Ok false) /\
    user = context decoded.
Proof.
  unfold Auth.authenticateJWT. split.
  - destruct authorization as [h|]; cbn -[startsWith slice trim remove_first]; [|done].
    destruct (truthy h) eqn:Eh; [|done].
    destruct (truthy (token_of h)) eqn:Et; simpl; [|done].
    destruct (jwt_verify (token_of h)) as [decoded|e] eqn:Ev; [|done].
    destruct (given (userId decoded)) as [id|] eqn:Eu; [|done].
    destruct (given (email decoded)) as [mail|] eqn:Em; [|done].
    destruct (User_findById id) as [[account|]|e] eqn:Ef; [|done|done].
    destruct (isActive account) eqn:Ea; simpl; [|done].
    destruct (given (jti decoded)) as [tokenId|] eqn:Ej.
    + destruct (isTokenRevoked tokenId) as [[|]|e] eqn:Er; [done| |done].
      intros [= <-]. exists h, decoded, id, mail, account.
      repeat split; try done; [by apply JsStringFacts.truthy_spec | eauto].
    + intros [= <-]. exists h, decoded, id, mail, account.
      repeat split; try done; [by apply JsStringFacts.truthy_spec | eauto].
  - intros (h & decoded & id & mail & account & -> & Ht & Hv & Hu & Hm & Hf & Ha & Hj & ->).
    apply JsStringFacts.truthy_spec in Ht.
    assert (Hh : given (Some h) = Some h).
    { simpl. destruct h; [|done]. by vm_compute in Ht. }
    rewrite Hh, Ht. simpl. rewrite Hv, Hu, Hm, Hf, Ha. simpl.
    destruct Hj as [-> | (tokenId & -> & ->)]; done.
Qed.

(** X27: [authenticateJWT] answers 401 or 500 when it refuses, and the
    500 has a fixed body.  It asks its collaborators in a fixed order
    and no more than needed: nothing is called for a missing header or
    an empty token, the user is looked up only under the id of a
    verified payload, and the revocation service is asked only about
    the token id of a verified payload whose user is active, never when
    the payload has no token id. *)
Theorem authenticateJWT_calls (authorization : option string) :
  let r := authenticateJWT authorization in
  (forall response, fst r = Respond response ->
     RateLimit.headers response = [] /\
     (RateLimit.statusCode response = 401 \/
      response = internal_error /\ In logged_error (snd r))) /\
  (given authorization = None \/ token_of (default EmptyString authorization) = EmptyString ->
   snd r = []) /\
  (forall token, In (Verify token) (snd r) ->
     token = token_of (default EmptyString authorization) /\
     exists rest, snd r = Verify token :: rest) /\
  (forall id, In (FindById id) (snd r) ->
     exists decoded rest,
       jwt_verify (token_of (default EmptyString authorization)) = Ok decoded /\
       given (userId decoded) = Some id /\
       snd r = Verify (token_of (default EmptyString authorization)) :: FindById id :: rest) /\
  (forall tokenId, In (IsTokenRevoked tokenId) (snd r) ->
     exists decoded id account,
       jwt_verify (token_of (default EmptyString authorization)) = Ok decoded /\
       given (userId decoded) = Some id /\
       User_findById id = Ok (Some account) /\ isActive account = true /\
       given (jti decoded) = Some tokenId).
Proof.
  cbv zeta. unfold Auth.authenticateJWT.
  destruct authorization as [h|]; cbn -[trim remove_first]; [|by branch].
  destruct (truthy h) eqn:Eh; [|by branch].
  destruct (truthy (token_of h)) eqn:Et; cbn -[trim remove_first]; [|by branch].
  assert (Hne : token_of h <> EmptyString) by (by apply JsStringFacts.truthy_spec).
  destruct (jwt_verify (token_of h)) as [decoded|e] eqn:Ev;
    [|pose proof (caught_answers e); by branch].
  destruct (given (userId decoded)) as [id|] eqn:Eu; [|by branch].
  destruct (given (email decoded)) as [mail|] eqn:Em; [|by branch].
  destruct (User_findById id) as [[account|]|e] eqn:Ef;
    [|by branch|pose proof (caught_answers e); by branch].
  destruct (isActive account) eqn:Ea; cbn -[trim remove_first]; [|by branch].
  destruct (given (jti decoded)) as [tokenId|] eqn:Ej; [|by branch].
  destruct (isTokenRevoked tokenId) as [[|]|e] eqn:Er;
    [by branch|by branch|pose proof (caught_answers e); by branch].
Qed.

End JWT.

End AuthFacts.

(** [authenticateJWT] takes a bare token, which [authenticateToken]
    refuses; an error of the verifier that is neither of the two named
    ones, such as a token that is not valid yet, is answered 500; so is
    a revocation service that cannot be reached. *)
Example authentication_examples :
  let payload jti := {| Auth.userId := Some "u1"; Auth.email := Some "u1@example.org";
                        Auth.roles := None; Auth.jti := jti |} in
  let verify jti (token : string) : result Auth.Error Auth.JWTPayload :=
    if String.eqb token "good" then Ok (payload jti)
    else Throw {| TokenRevocation.error_name := "NotBeforeError";
                  TokenRevocation.error_message := "jwt not active" |} in
  let find (_ : string) : result Auth.Error (option Auth.User) :=
    Ok (Some {| Auth.isActive := true |}) in
  let unreachable (_ : string) : result Auth.Error bool :=
    Throw {| TokenRevocation.error_name := "Error";
             TokenRevocation.error_message := "ECONNREFUSED" |} in
  fst (Auth.authenticateJWT (verify None) find unreachable (Some "good"))
  = Auth.Next (Auth.context (payload None)) /\
  Auth.user_roles (Auth.context (payload None)) = ["user"] /\
  Auth.authenticateToken (verify None) (Some "good") = Auth.Respond Auth.no_token /\
  Auth.authenticateToken (verify None) (Some "Bearer  good ")
  = Auth.Next (Auth.context (payload None)) /\
  fst (Auth.authenticateJWT (verify None) find unreachable (Some "Bearer early"))
  = Auth.Respond Auth.internal_error /\
  fst (Auth.authenticateJWT (verify (Some "j1")) find unreachable (Some "Bearer good"))
  = Auth.Respond Auth.internal_error /\
  snd (Auth.authenticateJWT (verify (Some "j1")) find unreachable (Some "Bearer good"))
  = [Auth.Verify "good"; Auth.FindById "u1"; Auth.IsTokenRevoked "j1"; Auth.logged_error].
Proof. vm_compute. auto 10. Qed.


(** ** Extras: token revocation *)

Module TokenRevocationFacts.

Import JsString TokenRevocation JsStringFacts.

Lemma parse_digits_nonneg ds : forall acc, 0 <= acc -> 0 <= parse_digits acc ds.
Proof.
  induction ds as [|a ds IH]; intros acc Hacc; simpl; [done|]. apply IH. lia.
Qed.

Lemma unit_seconds_positive u factor : unit_seconds u = Some factor -> 0 < factor.
Proof. unfold unit_seconds. repeat case_match; intros [= <-]; lia. Qed.

Lemma parseDurationToSeconds_nonneg value n :
  parseDurationToSeconds value = Some n -> 0 <= n.
Proof.
  unfold parseDurationToSeconds.
  destruct (span_digits (trim value)) as [digits rest].
  destruct digits as [|d ds]; [done|].
  pose proof (parse_digits_nonneg (String d ds) 0 ltac:(lia)) as Hn.
  destruct (trimStart rest) as [|u [|? ?]]; [by intros [= <-] | | done].
  destruct (unit_seconds u) as [factor|] eqn:Eu; [|done].
  apply unit_seconds_positive in Eu. intros [= <-].
  apply Z.mul_nonneg_nonneg; [exact Hn | lia].
Qed.

Lemma positive_spec parsed n : positive parsed = Some n -> 0 < n.
Proof.
  unfold positive. destruct parsed as [m|]; [|done].
  destruct (0 <? m) eqn:E; [|done]. apply Z.ltb_lt in E. by intros [= <-].
Qed.

Lemma default_positive fallback parsed :
  0 < fallback -> 0 < default fallback (positive parsed).
Proof.
  intros Hf. destruct (positive parsed) as [n|] eqn:E; simpl; [|done].
  by apply positive_spec in E.
Qed.

Section Expiry.

Variable JWT_EXPIRES_IN : option string.
Variable Date_getTime : json -> option Z.

Lemma defaultExpiresIn_positive : 0 < defaultExpiresIn JWT_EXPIRES_IN.
Proof. unfold defaultExpiresIn. apply default_positive. lia. Qed.

Lemma fromExpiresAt_positive now item n :
  fromExpiresAt Date_getTime now item = Some n -> 0 < n.
Proof.
  unfold fromExpiresAt. repeat case_match; try done.
  intros [= <-]. by apply Z.ltb_lt.
Qed.

Lemma resolveExpiresIn_ge_1 now item :
  1 <= resolveExpiresIn JWT_EXPIRES_IN Date_getTime now item.
Proof.
  unfold resolveExpiresIn.
  assert (Hl : 0 < default (defaultExpiresIn JWT_EXPIRES_IN)
                       (fromExpiresAt Date_getTime now item)).
  { destruct (fromExpiresAt _ _ _) as [n|] eqn:E; simpl.
    - by apply fromExpiresAt_positive in E.
    - apply defaultExpiresIn_positive. }
  destruct (lookup _ item) as [[| | n | s | |]|]; try lia.
  pose proof (default_positive _ (parseDurationToSeconds s) Hl). lia.
Qed.

(** X28: the time to live that [resolveExpiresIn] gives is always at
    least one second, whatever the attributes of the item, the clock
    and the environment say.  A numeric [expiresIn], [expiresInSeconds]
    or [ttl] attribute decides alone, raised to 1 when it is smaller.
    An item without attributes gets the default, which is seven days
    when [JWT_EXPIRES_IN] is unset or is not a positive duration. *)
Theorem resolveExpiresIn_is_positive (now : Z) (item : Item) :
  1 <= resolveExpiresIn JWT_EXPIRES_IN Date_getTime now item /\
  (forall n, lookup ["expiresin"; "expiresinseconds"; "ttl"] item = Some (JNum n) ->
             resolveExpiresIn JWT_EXPIRES_IN Date_getTime now item = Z.max 1 n) /\
  (customAttributes item = [] ->
   resolveExpiresIn JWT_EXPIRES_IN Date_getTime now item = defaultExpiresIn JWT_EXPIRES_IN) /\
  (positive (parseDurationToSeconds (default "7d" (given JWT_EXPIRES_IN))) = None ->
   defaultExpiresIn JWT_EXPIRES_IN = 604800).
Proof.
  split; [apply resolveExpiresIn_ge_1|]. split; [|split].
  - intros n Hl. unfold resolveExpiresIn. by rewrite Hl.
  - intros Hnil. unfold resolveExpiresIn, fromExpiresAt, lookup. by rewrite Hnil.
  - intros Hp. unfold defaultExpiresIn. by rewrite Hp.
Qed.

Section Revoke.

Variable Date_now : nat -> Z.
Variable String_of : json -> string.

Local Abbreviation resolveTokenId := (TokenRevocation.resolveTokenId String_of).
Local Abbreviation revokeTasks :=
  (TokenRevocation.revokeTasks JWT_EXPIRES_IN Date_getTime Date_now String_of).
Local Abbreviation revokeAllUserTokens :=
  (TokenRevocation.revokeAllUserTokens JWT_EXPIRES_IN Date_getTime Date_now String_of).

Lemma revokeTasks_commands items : forall position command,
  In command (revokeTasks position items) ->
  exists item tokenId,
    In item items /\ resolveTokenId item = Some tokenId /\
    setex_key command = revoked_key tokenId /\
    setex_value command = "1" /\ 1 <= setex_seconds command.
Proof.
  induction items as [|item items IH]; intros position command; simpl; [done|].
  destruct (given (TokenRevocation.resolveTokenId String_of item)) as [tokenId|] eqn:Et.
  - apply JsFacts.given_Some in Et as [Et _]. intros [<- | Hin].
    + exists item, tokenId. simpl. repeat split; auto. apply resolveExpiresIn_ge_1.
    + destruct (IH _ _ Hin) as (i & t & Hi & H). exists i, t. auto.
  - intros Hin. destruct (IH _ _ Hin) as (i & t & Hi & H). exists i, t. auto.
Qed.

Lemma revokeTasks_length items : forall position,
  (length (revokeTasks position items) <= length items)%nat.
Proof.
  induction items as [|item items IH]; intros position; simpl; [done|].
  destruct (given (TokenRevocation.resolveTokenId String_of item));
    simpl; specialize (IH (S position)); lia.
Qed.

(** X29: every command that [revokeAllUserTokens] sends is a [SETEX]
    of the value 1 under the key [revoked_token:] followed by the token
    id of one of the items found, with a time to live of at least one
    second, which is what [isTokenRevoked] reads back.  No more
    commands are sent than items were found, and none when no item has
    a token id. *)
Theorem revokeAllUserTokens_commands (items : list Item) :
  (forall command, In command (revokeAllUserTokens items) ->
     exists item tokenId,
       In item items /\ resolveTokenId item = Some tokenId /\
       command = {| setex_key := "revoked_token:" +:+ tokenId;
                    setex_seconds := setex_seconds command;
                    setex_value := "1" |} /\
       1 <= setex_seconds command /\
       (forall redis_get,
          redis_get (setex_key command) = Ok (Some (setex_value command)) ->
          isTokenRevoked redis_get tokenId = Ok true)) /\
  (length (revokeAllUserTokens items) <= length items)%nat /\
  ((forall item, In item items -> resolveTokenId item = None) ->
   revokeAllUserTokens items = []).
Proof.
  split; [|split].
  - intros command Hin.
    destruct (revokeTasks_commands items 0%nat command Hin)
      as (item & tokenId & Hi & Ht & Hk & Hv & Hs).
    exists item, tokenId. split; [done|]. split; [done|].
    split; [destruct command; simpl in *; by subst|]. split; [done|].
    intros redis_get Hg. unfold isTokenRevoked. rewrite <- Hk, Hg, Hv. done.
  - apply revokeTasks_length.
  - intros Hnone. destruct (revokeAllUserTokens items) as [|command rest] eqn:E; [done|].
    destruct (revokeTasks_commands items 0%nat command) as (item & tokenId & Hi & Ht & _).
    + unfold TokenRevocation.revokeAllUserTokens in E. rewrite E. by left.
    + rewrite (Hnone item Hi) in Ht. done.
Qed.

End Revoke.

End Expiry.

Lemma white_space_not_digit a : is_white_space a = true -> is_digit a = false.
Proof.
  destruct a as [[] [] [] [] [] [] [] []]; vm_compute; intros; congruence.
Qed.

Lemma unit_not_digit u factor :
  unit_seconds u = Some factor -> is_digit u = false /\ is_white_space u = false.
Proof.
  destruct u as [[] [] [] [] [] [] [] []]; vm_compute; intros; split; congruence.
Qed.

Lemma digit_not_white_space a : is_digit a = true -> is_white_space a = false.
Proof.
  destruct a as [[] [] [] [] [] [] [] []]; vm_compute; intros; congruence.
Qed.

Lemma span_digits_append ds rest :
  all_chars is_digit ds = true ->
  match rest with EmptyString => True | String a _ => is_digit a = false end ->
  span_digits (ds +:+ rest) = (ds, rest).
Proof.
  intros Hd Hr. induction ds as [|d ds IH].
  - change (EmptyString +:+ rest) with rest.
    destruct rest as [|a rest]; [done|]. simpl. by rewrite Hr.
  - simpl in Hd. apply andb_true_iff in Hd as [Hd Hds].
    change (String d ds +:+ rest) with (String d (ds +:+ rest)).
    simpl. rewrite Hd, (IH Hds). done.
Qed.

Lemma trimStart_white w s :
  all_chars is_white_space w = true -> trimStart (w +:+ s) = trimStart s.
Proof.
  intros Hw. induction w as [|a w IH]; [done|].
  simpl in Hw. apply andb_true_iff in Hw as [Ha Hw].
  change (String a w +:+ s) with (String a (w +:+ s)). simpl. rewrite Ha. by apply IH.
Qed.

Lemma trimEnd_white w : all_chars is_white_space w = true -> trimEnd w = EmptyString.
Proof.
  induction w as [|a w IH]; [done|]. simpl. intros H.
  apply andb_true_iff in H as [Ha Hw]. by rewrite (IH Hw), Ha.
Qed.

Lemma trimEnd_append_white s w :
  all_chars is_white_space w = true -> trimEnd (s +:+ w) = trimEnd s.
Proof.
  intros Hw. induction s as [|a s IH].
  - change (EmptyString +:+ w) with w. by rewrite trimEnd_white.
  - change (String a s +:+ w) with (String a (s +:+ w)). simpl. by rewrite IH.
Qed.

Lemma trimEnd_last s a :
  is_white_space a = false -> trimEnd (s +:+ String a EmptyString) = s +:+ String a EmptyString.
Proof.
  intros Ha. induction s as [|b s IH].
  - change (EmptyString +:+ String a EmptyString) with (String a EmptyString).
    simpl. by rewrite Ha.
  - change (String b s +:+ String a EmptyString) with (String b (s +:+ String a EmptyString)).
    simpl. rewrite IH. destruct s; done.
Qed.

Lemma append_assoc (s t u : string) : (s +:+ t) +:+ u = s +:+ (t +:+ u).
Proof.
  induction s as [|a s IH]; [done|].
  change (String a (s +:+ t) +:+ u = String a (s +:+ (t +:+ u))).
  change (String a ((s +:+ t) +:+ u) = String a (s +:+ (t +:+ u))). by rewrite IH.
Qed.

Lemma trimEnd_digits ds : all_chars is_digit ds = true -> trimEnd ds = ds.
Proof.
  induction ds as [|d ds IH]; [done|]. simpl. intros H.
  apply andb_true_iff in H as [Hd Hds]. rewrite (IH Hds).
  destruct ds; [|done]. by rewrite (digit_not_white_space _ Hd).
Qed.

(** X30: [parseDurationToSeconds] accepts a non-empty run of digits,
    with white space around it, as that many seconds, and the same
    followed, after optional white space, by one of the letters s, m,
    h, d, w in either case as that many seconds, minutes, hours, days
    or weeks.  Whatever it accepts, the result is not negative. *)
Theorem parseDurationToSeconds_accepts (before digits between after : string) :
  digits <> EmptyString ->
  all_chars is_digit digits = true ->
  all_chars is_white_space before = true ->
  all_chars is_white_space between = true ->
  all_chars is_white_space after = true ->
  parseDurationToSeconds (before +:+ digits +:+ after) = Some (parse_digits 0 digits) /\
  0 <= parse_digits 0 digits /\
  (forall u factor,
     unit_seconds u = Some factor ->
     0 < factor /\
     parseDurationToSeconds (before +:+ digits +:+ between +:+ String u after)
     = Some (parse_digits 0 digits * factor)) /\
  (forall value n, parseDurationToSeconds value = Some n -> 0 <= n).
Proof.
  intros Hne Hd Hb Hbt Ha.
  destruct digits as [|d ds]; [done|].
  assert (Hd0 : is_digit d = true) by (simpl in Hd; by apply andb_true_iff in Hd as [? _]).
  assert (Hdw : is_white_space d = false) by (by apply digit_not_white_space).
  split; [|split; [|split]].
  - unfold parseDurationToSeconds, trim.
    rewrite (trimStart_white before _ Hb).
    change (String d ds +:+ after) with (String d (ds +:+ after)).
    rewrite (trimStart_fixed d (ds +:+ after) Hdw).
    change (String d (ds +:+ after)) with (String d ds +:+ after).
    rewrite (trimEnd_append_white _ _ Ha), (trimEnd_digits _ Hd).
    replace (String d ds) with (String d ds +:+ EmptyString) at 1
      by (clear; induction (String d ds) as [|a s IH]; [done|];
          change (String a (s +:+ EmptyString) = String a s); by rewrite IH).
    rewrite (span_digits_append (String d ds) EmptyString Hd I). done.
  - apply parse_digits_nonneg. lia.
  - intros u factor Hu. split; [by apply unit_seconds_positive in Hu|].
    destruct (unit_not_digit u factor Hu) as [Hud Huw].
    unfold parseDurationToSeconds, trim.
    rewrite (trimStart_white before _ Hb).
    change (String d ds +:+ between +:+ String u after)
      with (String d (ds +:+ between +:+ String u after)).
    rewrite (trimStart_fixed d (ds +:+ between +:+ String u after) Hdw).
    change (String d (ds +:+ between +:+ String u after))
      with (String d ds +:+ between +:+ String u after).
    assert (Hend : trimEnd (String d ds +:+ between +:+ String u after)
                   = String d ds +:+ between +:+ String u EmptyString).
    { change (String u after) with (String u EmptyString +:+ after).
      rewrite <- !append_assoc.
      rewrite (trimEnd_append_white _ _ Ha).
      by rewrite (trimEnd_last _ u Huw). }
    rewrite Hend.
    rewrite (span_digits_append (String d ds) (between +:+ String u EmptyString) Hd).
    + rewrite (trimStart_white between _ Hbt).
      rewrite (trimStart_fixed u EmptyString Huw). by rewrite Hu.
    + destruct between as [|w ws].
      * exact Hud.
      * simpl in Hbt. apply andb_true_iff in Hbt as [Hw _].
        by apply white_space_not_digit.
  - apply parseDurationToSeconds_nonneg.
Qed.

End TokenRevocationFacts.

Lemma parseDurationToSeconds_accepts_witness :
  TokenRevocation.parseDurationToSeconds " 15 M " = Some 900 /\
  TokenRevocation.parseDurationToSeconds "7d" = Some 604800 /\
  TokenRevocation.parseDurationToSeconds " 15 " = Some 15.
Proof.
  destruct (TokenRevocationFacts.parseDurationToSeconds_accepts " " "15" " " " ")
    as (H1 & _ & H2 & _); [done | reflexivity | reflexivity | reflexivity | reflexivity |].
  split; [exact (proj2 (H2 "M"%char 60 eq_refl))|].
  split; [reflexivity | exact H1].
Defined.

(** Durations that are not accepted, and what becomes of them: a
    setting of zero or with an unknown unit falls back to seven days,
    and a smaller numeric attribute is raised to one second. *)
Example resolveExpiresIn_examples :
  let item attrs := {| TokenRevocation.itemId := Some "t1";
                       TokenRevocation.customAttributes := attrs |} in
  let attr k v := {| TokenRevocation.key := k; TokenRevocation.value := v |} in
  let never (_ : json) : option Z := None in
  TokenRevocation.parseDurationToSeconds "1.5h" = None /\
  TokenRevocation.parseDurationToSeconds "10 min" = None /\
  TokenRevocation.parseDurationToSeconds "-5" = None /\
  TokenRevocation.defaultExpiresIn (Some "0") = 604800 /\
  TokenRevocation.defaultExpiresIn (Some "2y") = 604800 /\
  TokenRevocation.defaultExpiresIn (Some "12H") = 43200 /\
  TokenRevocation.resolveExpiresIn None never 0 (item [attr "TTL" (JNum (-3))]) = 1 /\
  TokenRevocation.resolveExpiresIn None never 0 (item [attr "expiresIn" (JStr "30m")]) = 1800 /\
  TokenRevocation.resolveExpiresIn None never 0 (item [attr "expiresIn" (JStr "soon")])
  = 604800.
Proof. vm_compute. auto 10. Qed.

